(** * Collections of objects: a shallow embedding of
      source/blender/blenkernel/intern/collection.c

    Collections form a directed graph: every collection owns an ordered list
    of child links, an ordered list of parent back-references and an ordered
    list of member objects.  Pointers are modelled as addresses (natural
    numbers) into two finite maps, one for collections and one for objects.
    Recursive C functions that follow pointers take a [fuel] argument: they
    return [None] when the fuel is exhausted or when a pointer that the C
    code dereferences is not mapped.  Functions whose C code counts in an
    [int] return [None] where the count would pass [INT_MAX], and a write
    past the end of an array has no result either.

    The set of inputs of a mesh effect, of
    intern/openmesheffect/host/intern/inputs.cpp, follows the collections. *)

From stdpp Require Import base option list gmap relations fin_maps fin_sets strings.

Abbreviation cid := nat (only parsing).
Abbreviation oid := nat (only parsing).

(** ** Constants of headers that are not part of the sources

    The bit masks of DNA_group_types.h and DNA_layer_types.h and the creation
    flags of BKE_library.h are taken as parameters. *)
Class Constants := {
  COLLECTION_RESTRICT_VIEW : Z;
  COLLECTION_RESTRICT_SELECT : Z;
  COLLECTION_RESTRICT_RENDER : Z;
  COLLECTION_HAS_OBJECT_CACHE : Z;
  COLLECTION_IS_MASTER : Z;
  BASE_SELECTED : Z;
  BASE_VISIBLED : Z;
  BASE_SELECTABLED : Z;
  BASE_VISIBLE_VIEWPORT : Z;
  BASE_VISIBLE_RENDER : Z;
  LIB_ID_CREATE_NO_MAIN : Z;
  LIB_ID_CREATE_NO_USER_REFCOUNT : Z
}.

(** ** Data model *)

(** [Base]: an object together with its inherited flags. *)
Record Base := mkBase { object : oid; base_flag : Z }.

(** [Collection]: [id_us] is the user count of the ID block, [gobject] the
    [CollectionObject] links, [children] the [CollectionChild] links and
    [parents] the [CollectionParent] links, each in list order. *)
Record Collection := mkCollection {
  id_us : Z;
  flag : Z;
  gobject : list oid;
  children : list cid;
  parents : list cid;
  object_cache : list Base
}.

(** [Object]: only the fields that collection.c reads or writes. *)
Record Object := mkObject { ob_us : Z; dup_group : option cid }.

(** [Main]: the memory the functions work on.  [sync_requests] counts the
    calls of [BKE_main_collection_sync]. *)
Record Main := mkMain {
  collections : gmap nat Collection;
  objects : gmap nat Object;
  sync_requests : nat
}.

Record Scene := mkScene { master_collection : cid }.

(** The data of the iterator over the collections of a scene. *)
Record CollectionsIteratorData := mkCollectionsIteratorData {
  array : list cid;
  tot : nat;
  cur : nat
}.

(** [BLI_Iterator]: [current] is the element the iterator stands on. *)
Record BLI_Iterator (D : Type) := mkIterator {
  current : nat;
  data : D;
  valid : bool
}.
Arguments mkIterator {D} _ _ _.
Arguments current {D} _.
Arguments data {D} _.
Arguments valid {D} _.

(** The data of the iterator over the objects of a scene.  A pointer to a
    [CollectionObject] link is the list of objects from that link on; NULL is
    the empty list. *)
Record SceneObjectsIteratorData := mkSceneObjectsIteratorData {
  visited : gset nat;
  cob_next : list oid;
  scene_collection_iter : BLI_Iterator CollectionsIteratorData
}.

#[global] Instance Base_eq_dec : EqDecision Base.
Proof. solve_decision. Defined.
#[global] Instance Collection_eq_dec : EqDecision Collection.
Proof. solve_decision. Defined.
#[global] Instance Object_eq_dec : EqDecision Object.
Proof. solve_decision. Defined.

Definition set_id_us (c : Collection) (v : Z) : Collection :=
  mkCollection v (flag c) (gobject c) (children c) (parents c) (object_cache c).
Definition set_flag (c : Collection) (v : Z) : Collection :=
  mkCollection (id_us c) v (gobject c) (children c) (parents c) (object_cache c).
Definition set_gobject (c : Collection) (v : list oid) : Collection :=
  mkCollection (id_us c) (flag c) v (children c) (parents c) (object_cache c).
Definition set_children (c : Collection) (v : list cid) : Collection :=
  mkCollection (id_us c) (flag c) (gobject c) v (parents c) (object_cache c).
Definition set_parents (c : Collection) (v : list cid) : Collection :=
  mkCollection (id_us c) (flag c) (gobject c) (children c) v (object_cache c).
Definition set_object_cache (c : Collection) (v : list Base) : Collection :=
  mkCollection (id_us c) (flag c) (gobject c) (children c) (parents c) v.

(** ** Loops over linked lists *)

(** A loop that threads a state through the links of a list and stops at the
    first failure. *)
Fixpoint for_each {S A} (f : S -> A -> option S) (l : list A) (s : S) : option S :=
  match l with
  | [] => Some s
  | x :: l' => s' ← f s x; for_each f l' s'
  end.

(** A loop of the shape [for (...) { if (f x) return true; } return false;]. *)
Fixpoint any_m {A} (f : A -> option bool) (l : list A) : option bool :=
  match l with
  | [] => Some false
  | x :: l' => b ← f x; if b : bool then Some true else any_m f l'
  end.

(** A loop of the shape
    [for (...) { r = f(x, &s); if (r != NULL) return r; } return NULL;]. *)
Fixpoint first_m {S A R} (f : S -> A -> option (option R * S)) (l : list A) (s : S)
    : option (option R * S) :=
  match l with
  | [] => Some (None, s)
  | x :: l' =>
      '(r, s') ← f s x;
      match r with
      | Some _ => Some (r, s')
      | None => first_m f l' s'
      end
  end.

(** ** List primitives of BLI_listbase.h

    [BLI_findptr] returns the first link whose pointer field equals [ptr]; a
    link is identified by its position.  [BLI_freelinkN] unlinks the link it
    is given and does nothing for NULL; [BLI_addtail] appends. *)
Definition BLI_findptr {A} (field : A -> nat) (lb : list A) (ptr : nat) : option nat :=
  fst <$> list_find (fun x => field x = ptr) lb.

Definition BLI_freelinkN {A} (lb : list A) (link : option nat) : list A :=
  match link with
  | Some i => delete i lb
  | None => lb
  end.

Definition BLI_addtail {A} (lb : list A) (x : A) : list A := lb ++ [x].

(** ** Reference counting

    Modelled from the spec: [id_us_plus] and [id_us_min] of library.c, which
    is not part of the sources, are the reference-counting service's
    increment and decrement. *)
Definition id_us_plus (us : Z) : Z := (us + 1)%Z.
Definition id_us_min (us : Z) : Z := (us - 1)%Z.

(** Modelled from the spec: [BKE_libblock_free_us] of library.c, which is not
    part of the sources, releases an object: the use count is decremented and
    an object without users leaves the object table. *)
Definition BKE_libblock_free_us (bmain : Main) (ob : oid) : Main :=
  match objects bmain !! ob with
  | Some o =>
      let us := id_us_min (ob_us o) in
      mkMain (collections bmain)
             (if (us <=? 0)%Z then delete ob (objects bmain)
              else <[ob := mkObject us (dup_group o)]> (objects bmain))
             (sync_requests bmain)
  | None => bmain
  end.

(** Modelled from the spec: [BKE_main_collection_sync] of layer.c, which is
    not part of the sources, is a fire-and-forget request. *)
Definition BKE_main_collection_sync (bmain : Main) : Main :=
  mkMain (collections bmain) (objects bmain) (S (sync_requests bmain)).

Section Embedding.
Context `{K : Constants}.

(** ** Object list cache *)

Definition base_flags (child_restrict : Z) : Z :=
  let f0 := 0%Z in
  let f1 :=
    if (Z.land child_restrict COLLECTION_RESTRICT_VIEW =? 0)%Z then
      let f := Z.lor f0 (Z.lor BASE_VISIBLED BASE_VISIBLE_VIEWPORT) in
      if (Z.land child_restrict COLLECTION_RESTRICT_SELECT =? 0)%Z
      then Z.lor f BASE_SELECTABLED else f
    else f0 in
  if (Z.land child_restrict COLLECTION_RESTRICT_RENDER =? 0)%Z
  then Z.lor f1 BASE_VISIBLE_RENDER else f1.

(** The body of the first loop of [collection_object_cache_fill]. *)
Definition cache_add_object (child_restrict : Z) (lb : list Base) (ob : oid) : list Base :=
  match BLI_findptr object lb ob with
  | Some _ => lb
  | None => BLI_addtail lb (mkBase ob (base_flags child_restrict))
  end.

Fixpoint collection_object_cache_fill (fuel : nat) (st : gmap nat Collection)
    (lb : list Base) (collection : cid) (parent_restrict : Z) : option (list Base) :=
  match fuel with
  | 0 => None
  | S fuel' =>
      col ← st !! collection;
      let child_restrict := Z.lor (flag col) parent_restrict in
      let lb1 := foldl (cache_add_object child_restrict) lb (gobject col) in
      for_each (fun lb' child => collection_object_cache_fill fuel' st lb' child child_restrict)
               (children col) lb1
  end.

Definition has_object_cache (col : Collection) : bool :=
  negb (Z.land (flag col) COLLECTION_HAS_OBJECT_CACHE =? 0)%Z.

(** The mutex only orders concurrent readers; in this sequential embedding the
    second test of the flag sees what the first one saw. *)
Definition BKE_collection_object_cache_get (fuel : nat) (st : gmap nat Collection)
    (collection : cid) : option (gmap nat Collection * list Base) :=
  col ← st !! collection;
  if negb (has_object_cache col) then
    if negb (has_object_cache col) then
      lb ← collection_object_cache_fill fuel st (object_cache col) collection 0;
      let col' := set_flag (set_object_cache col lb)
                           (Z.lor (flag col) COLLECTION_HAS_OBJECT_CACHE) in
      Some (<[collection := col']> st, lb)
    else Some (st, object_cache col)
  else Some (st, object_cache col).

Definition clear_object_cache (col : Collection) : Collection :=
  set_object_cache
    (set_flag col (Z.land (flag col) (Z.lnot COLLECTION_HAS_OBJECT_CACHE))) [].

Fixpoint collection_object_cache_free (fuel : nat) (st : gmap nat Collection)
    (collection : cid) : option (gmap nat Collection) :=
  match fuel with
  | 0 => None
  | S fuel' =>
      col ← st !! collection;
      for_each (fun st' parent => collection_object_cache_free fuel' st' parent)
               (parents col) (<[collection := clear_object_cache col]> st)
  end.

Definition BKE_collection_object_cache_free := collection_object_cache_free.

(** ** Collection children *)

Fixpoint BKE_collection_find_cycle (fuel : nat) (st : gmap nat Collection)
    (new_ancestor collection : cid) : option bool :=
  match fuel with
  | 0 => None
  | S fuel' =>
      if decide (collection = new_ancestor) then Some true
      else
        a ← st !! new_ancestor;
        any_m (fun parent => BKE_collection_find_cycle fuel' st parent collection)
              (parents a)
  end.

Definition collection_find_child (parent : Collection) (collection : cid) : option nat :=
  BLI_findptr id (children parent) collection.

Definition collection_find_parent (child : Collection) (collection : cid) : option nat :=
  BLI_findptr id (parents child) collection.

Fixpoint collection_find_child_recursive (fuel : nat) (st : gmap nat Collection)
    (parent collection : cid) : option bool :=
  match fuel with
  | 0 => None
  | S fuel' =>
      p ← st !! parent;
      any_m (fun child =>
               if decide (child = collection) then Some true
               else collection_find_child_recursive fuel' st child collection)
            (children p)
  end.

Definition collection_child_add (fuel : nat) (st : gmap nat Collection)
    (parent collection : cid) (flag : Z) (add_us : bool)
    : option (bool * gmap nat Collection) :=
  p ← st !! parent;
  match collection_find_child p collection with
  | Some _ => Some (false, st)
  | None =>
      cyc ← BKE_collection_find_cycle fuel st parent collection;
      if cyc : bool then Some (false, st)
      else
        let st1 := <[parent := set_children p (BLI_addtail (children p) collection)]> st in
        st2 ← (if (Z.land flag LIB_ID_CREATE_NO_MAIN =? 0)%Z then
                 c ← st1 !! collection;
                 Some (<[collection := set_parents c (BLI_addtail (parents c) parent)]> st1)
               else Some st1);
        st3 ← (if add_us then
                 c ← st2 !! collection;
                 Some (<[collection := set_id_us c (id_us_plus (id_us c))]> st2)
               else Some st2);
        st4 ← BKE_collection_object_cache_free fuel st3 parent;
        Some (true, st4)
  end.

Definition collection_child_remove (fuel : nat) (st : gmap nat Collection)
    (parent collection : cid) : option (bool * gmap nat Collection) :=
  p ← st !! parent;
  match collection_find_child p collection with
  | None => Some (false, st)
  | Some child =>
      c ← st !! collection;
      let cparent := collection_find_parent c parent in
      let st1 := <[collection := set_parents c (BLI_freelinkN (parents c) cparent)]> st in
      p1 ← st1 !! parent;
      let st2 := <[parent := set_children p1 (BLI_freelinkN (children p1) (Some child))]> st1 in
      c2 ← st2 !! collection;
      let st3 := <[collection := set_id_us c2 (id_us_min (id_us c2))]> st2 in
      st4 ← BKE_collection_object_cache_free fuel st3 parent;
      Some (true, st4)
  end.

(** ** Collection object membership *)

Definition BKE_collection_has_object (st : gmap nat Collection)
    (collection : option cid) (ob : option oid) : option bool :=
  match collection, ob with
  | Some collection, Some ob =>
      col ← st !! collection;
      Some (bool_decide (is_Some (BLI_findptr id (gobject col) ob)))
  | _, _ => Some false
  end.

Definition BKE_collection_has_object_recursive (fuel : nat) (st : gmap nat Collection)
    (collection : option cid) (ob : option oid)
    : option (gmap nat Collection * bool) :=
  match collection, ob with
  | Some collection, Some ob =>
      '(st', objects) ← BKE_collection_object_cache_get fuel st collection;
      Some (st', bool_decide (is_Some (BLI_findptr object objects ob)))
  | _, _ => Some (st, false)
  end.

(** ** Collection objects *)

Definition collection_object_add (fuel : nat) (bmain : Main)
    (collection : cid) (ob : oid) (flag : Z) (add_us : bool) : option (bool * Main) :=
  o ← objects bmain !! ob;
  cyc ← match dup_group o with
        | Some g =>
            (* Cyclic dependency check. *)
            collection_find_child_recursive fuel (collections bmain) collection g
        | None => Some false
        end;
  if cyc : bool then Some (false, bmain)
  else
    col ← collections bmain !! collection;
    match BLI_findptr id (gobject col) ob with
    | Some _ => Some (false, bmain)
    | None =>
        let st1 := <[collection := set_gobject col (BLI_addtail (gobject col) ob)]>
                     (collections bmain) in
        st2 ← BKE_collection_object_cache_free fuel st1 collection;
        let obs :=
          if add_us && (Z.land flag LIB_ID_CREATE_NO_USER_REFCOUNT =? 0)%Z
          then <[ob := mkObject (id_us_plus (ob_us o)) (dup_group o)]> (objects bmain)
          else objects bmain in
        Some (true, mkMain st2 obs (sync_requests bmain))
    end.

Definition collection_object_remove (fuel : nat) (bmain : Main)
    (collection : cid) (ob : oid) (free_us : bool) : option (bool * Main) :=
  col ← collections bmain !! collection;
  match BLI_findptr id (gobject col) ob with
  | None => Some (false, bmain)
  | Some cob =>
      let st1 := <[collection := set_gobject col (BLI_freelinkN (gobject col) (Some cob))]>
                   (collections bmain) in
      st2 ← BKE_collection_object_cache_free fuel st1 collection;
      let bmain2 := mkMain st2 (objects bmain) (sync_requests bmain) in
      if free_us then Some (true, BKE_libblock_free_us bmain2 ob)
      else
        o ← objects bmain2 !! ob;
        Some (true, mkMain st2
                           (<[ob := mkObject (id_us_min (ob_us o)) (dup_group o)]>
                              (objects bmain2))
                           (sync_requests bmain2))
  end.

(** ** Collection scene membership *)

Definition is_master (col : Collection) : bool :=
  negb (Z.land (flag col) COLLECTION_IS_MASTER =? 0)%Z.

Fixpoint BKE_collection_is_in_scene (fuel : nat) (st : gmap nat Collection)
    (collection : cid) : option bool :=
  match fuel with
  | 0 => None
  | S fuel' =>
      col ← st !! collection;
      if is_master col then Some true
      else any_m (fun cparent => BKE_collection_is_in_scene fuel' st cparent) (parents col)
  end.

(** A NULL pointer is [None]. *)
Definition BKE_collection_object_add (fuel : nat) (bmain : Main)
    (collection : option cid) (ob : option oid) : option (bool * Main) :=
  match collection, ob with
  | Some collection, Some ob =>
      '(ok, bmain1) ← collection_object_add fuel bmain collection ob 0 true;
      if ok : bool then
        in_scene ← BKE_collection_is_in_scene fuel (collections bmain1) collection;
        Some (true, if in_scene : bool then BKE_main_collection_sync bmain1 else bmain1)
      else Some (false, bmain1)
  | _, _ => Some (false, bmain)
  end.

Definition BKE_collection_object_remove (fuel : nat) (bmain : Main)
    (collection : option cid) (ob : option oid) (free_us : bool) : option (bool * Main) :=
  match collection, ob with
  | Some collection, Some ob =>
      '(ok, bmain1) ← collection_object_remove fuel bmain collection ob free_us;
      if ok : bool then
        in_scene ← BKE_collection_is_in_scene fuel (collections bmain1) collection;
        Some (true, if in_scene : bool then BKE_main_collection_sync bmain1 else bmain1)
      else Some (false, bmain1)
  | _, _ => Some (false, bmain)
  end.

(** ** Collection index

    [index] and [*index_current] are of type [int].  Incrementing an [int]
    that holds [INT_MAX] is undefined in C: the embedding gives no result
    there. *)
Definition INT_MAX : Z := 2147483647.

Fixpoint collection_from_index_recursive (fuel : nat) (st : gmap nat Collection)
    (collection : cid) (index index_current : Z) : option (option cid * Z) :=
  match fuel with
  | 0 => None
  | S fuel' =>
      if decide (index = index_current) then Some (Some collection, index_current)
      else if decide (index_current = INT_MAX) then None
      else
        col ← st !! collection;
        first_m (fun current child =>
                   collection_from_index_recursive fuel' st child index current)
                (children col) (index_current + 1)%Z
  end.

(** Return Scene Collection for a given index.  The index is calculated from
    top to bottom counting the children before the siblings. *)
Definition BKE_collection_from_index (fuel : nat) (st : gmap nat Collection)
    (scene : Scene) (index : Z) : option (option cid) :=
  '(nested, _) ← collection_from_index_recursive fuel st (master_collection scene) index 0;
  Some nested.

(** ** Iterators *)

(** A callback works on the data it is given and may have no result. *)
Fixpoint scene_collection_callback {D} (fuel : nat) (st : gmap nat Collection)
    (collection : cid) (callback : cid -> D -> option D) (data : D) : option D :=
  match fuel with
  | 0 => None
  | S fuel' =>
      data1 ← callback collection data;
      col ← st !! collection;
      for_each (fun d child => scene_collection_callback fuel' st child callback d)
               (children col) data1
  end.

(** [*tot] is an [int] that counts the visits from 0 on.  Incrementing an
    [int] that holds [INT_MAX] is undefined in C: the embedding gives no
    result there. *)
Definition scene_collections_count (_ : cid) (tot : nat) : option nat :=
  if decide (Z.of_nat tot = INT_MAX) then None else Some (S tot).

(** The data of [scene_collections_build_array] is a write position in the
    array: here the array together with the index of the next slot.  There
    is no result for a write past the end of the array. *)
Definition scene_collections_build_array (collection : cid) (data : list cid * nat)
    : option (list cid * nat) :=
  if decide (data.2 < length data.1)
  then Some (<[data.2 := collection]> data.1, S data.2)
  else None.

(** [MEM_mallocN] returns [tot] slots whose content is not specified; the
    second pass overwrites them.  The count has not passed [INT_MAX], so
    that the size [sizeof(Collection * ) * tot] fits the [size_t] of a
    platform with 64-bit pointers. *)
Definition scene_collections_array (fuel : nat) (st : gmap nat Collection)
    (scene : option Scene) : option (list cid * nat) :=
  match scene with
  | None => Some ([], 0)
  | Some scene =>
      let collection := master_collection scene in
      tot ← scene_collection_callback fuel st collection scene_collections_count 0;
      if decide (tot = 0) then Some ([], tot)
      else
        '(array, _) ← scene_collection_callback fuel st collection
                        scene_collections_build_array (replicate tot 0, 0);
        Some (array, tot)
  end.

Definition BKE_scene_collections_iterator_begin (fuel : nat) (st : gmap nat Collection)
    (scene : option Scene) : option (BLI_Iterator CollectionsIteratorData) :=
  '(array, tot) ← scene_collections_array fuel st scene;
  c ← array !! 0;
  Some (mkIterator c (mkCollectionsIteratorData array tot 0) true).

(** [cur] is an [int]: [++data->cur] has no result at [INT_MAX]. *)
Definition BKE_scene_collections_iterator_next (iter : BLI_Iterator CollectionsIteratorData)
    : option (BLI_Iterator CollectionsIteratorData) :=
  let d := data iter in
  if decide (Z.of_nat (cur d) = INT_MAX) then None
  else
    let cur' := S (cur d) in
    let d' := mkCollectionsIteratorData (array d) (tot d) cur' in
    if decide (cur' < tot d) then
      c ← array d !! cur';
      Some (mkIterator c d' (valid iter))
    else Some (mkIterator (current iter) d' false).

(** The protocol of BLI_iterator.h, which is not part of the sources: the
    caller marks the iterator valid, calls [begin], and while the iterator is
    valid takes [current] and calls [next]. *)
Fixpoint iterate {D} (fuel : nat) (next : BLI_Iterator D -> option (BLI_Iterator D))
    (iter : BLI_Iterator D) : option (list nat) :=
  match fuel with
  | 0 => None
  | S fuel' =>
      if valid iter then
        iter' ← next iter;
        rest ← iterate fuel' next iter';
        Some (current iter :: rest)
      else Some []
  end.

Definition scene_collections (fuel : nat) (st : gmap nat Collection) (scene : Scene)
    : option (list cid) :=
  iter ← BKE_scene_collections_iterator_begin fuel st (Some scene);
  iterate fuel BKE_scene_collections_iterator_next iter.

(** Gets the first unique object in the sequence. *)
Fixpoint object_base_unique (gs : gset nat) (cob : list oid) : gset nat * list oid :=
  match cob with
  | [] => (gs, [])
  | ob :: next =>
      if decide (ob ∈ gs) then object_base_unique gs next
      else ({[ob]} ∪ gs, ob :: next)
  end.

(** The [do ... while] loop of [BKE_scene_objects_iterator_next]. *)
Fixpoint scene_objects_next_collection (fuel : nat) (st : gmap nat Collection)
    (iter : BLI_Iterator SceneObjectsIteratorData)
    : option (BLI_Iterator SceneObjectsIteratorData) :=
  match fuel with
  | 0 => None
  | S fuel' =>
      let d := data iter in
      col ← st !! current (scene_collection_iter d);
      let r := object_base_unique (visited d) (gobject col) in
      match r.2 with
      | ob :: next =>
          Some (mkIterator ob
                  (mkSceneObjectsIteratorData r.1 next (scene_collection_iter d))
                  (valid iter))
      | [] =>
          inner ← BKE_scene_collections_iterator_next (scene_collection_iter d);
          let iter' := mkIterator (current iter)
                         (mkSceneObjectsIteratorData r.1 (cob_next d) inner)
                         (valid iter) in
          if valid inner then scene_objects_next_collection fuel' st iter'
          else Some (mkIterator (current iter') (data iter') false)
      end
  end.

Definition BKE_scene_objects_iterator_next (fuel : nat) (st : gmap nat Collection)
    (iter : BLI_Iterator SceneObjectsIteratorData)
    : option (BLI_Iterator SceneObjectsIteratorData) :=
  let d := data iter in
  let r := match cob_next d with
           | [] => (visited d, [])
           | _ :: _ => object_base_unique (visited d) (cob_next d)
           end in
  match r.2 with
  | ob :: next =>
      Some (mkIterator ob
              (mkSceneObjectsIteratorData r.1 next (scene_collection_iter d))
              (valid iter))
  | [] =>
      (* if this is the last object of this ListBase look at the next Collection *)
      inner ← BKE_scene_collections_iterator_next (scene_collection_iter d);
      scene_objects_next_collection fuel st
        (mkIterator (current iter)
           (mkSceneObjectsIteratorData r.1 (cob_next d) inner) (valid iter))
  end.

(** The caller has set [valid]; [current] is not yet meaningful. *)
Definition BKE_scene_objects_iterator_begin (fuel : nat) (st : gmap nat Collection)
    (scene : Scene) : option (BLI_Iterator SceneObjectsIteratorData) :=
  inner ← BKE_scene_collections_iterator_begin fuel st (Some scene);
  let d := mkSceneObjectsIteratorData ∅ [] inner in
  col ← st !! current inner;
  match gobject col with
  | ob :: _ => Some (mkIterator ob d true)
  | [] => BKE_scene_objects_iterator_next fuel st (mkIterator 0 d true)
  end.

Definition scene_objects (fuel : nat) (st : gmap nat Collection) (scene : Scene)
    : option (list oid) :=
  iter ← BKE_scene_objects_iterator_begin fuel st scene;
  iterate fuel (BKE_scene_objects_iterator_next fuel st) iter.

(** ** Moving objects between collections *)

(** Add object to all scene collections that reference objects is in (used
    to copy objects).  FOREACH_SCENE_COLLECTION builds the array of the
    collections of the scene before the first pass of the loop. *)
Definition BKE_collection_object_add_from (fuel : nat) (bmain : Main) (scene : Scene)
    (ob_src ob_dst : oid) : option Main :=
  cs ← scene_collections fuel (collections bmain) scene;
  bmain1 ←
    for_each (fun (s : Main) collection =>
                has ← BKE_collection_has_object (collections s) (Some collection) (Some ob_src);
                if has : bool then
                  '(_, s') ← collection_object_add fuel s collection ob_dst 0 true;
                  Some s'
                else Some s)
             cs bmain;
  Some (BKE_main_collection_sync bmain1).

(** Remove object from all collections of scene.  The call of
    [BKE_scene_remove_rigidbody_object] touches no collection and is left out. *)
Definition scene_collections_object_remove (fuel : nat) (bmain : Main) (scene : Scene)
    (ob : oid) (free_us : bool) (collection_skip : option cid) : option (bool * Main) :=
  cs ← scene_collections fuel (collections bmain) scene;
  '(removed, bmain1) ←
     for_each (fun (s : bool * Main) collection =>
                 if decide (Some collection = collection_skip) then Some s
                 else
                   '(ok, bmain') ← collection_object_remove fuel s.2 collection ob free_us;
                   Some (s.1 || ok, bmain'))
              cs (false, bmain);
  Some (removed, BKE_main_collection_sync bmain1).

(** Remove object from all collections of scene. *)
Definition BKE_scene_collections_object_remove (fuel : nat) (bmain : Main) (scene : Scene)
    (ob : oid) (free_us : bool) : option (bool * Main) :=
  scene_collections_object_remove fuel bmain scene ob free_us None.

Definition BKE_collection_object_move (fuel : nat) (bmain : Main) (scene : Scene)
    (collection_dst collection_src : option cid) (ob : oid) : option Main :=
  match collection_src with
  | Some _ =>
      '(ok, bmain1) ← BKE_collection_object_add fuel bmain collection_dst (Some ob);
      if ok : bool then
        '(_, bmain2) ← BKE_collection_object_remove fuel bmain1 collection_src (Some ob) false;
        Some bmain2
      else Some bmain1
  | None =>
      '(_, bmain1) ← BKE_collection_object_add fuel bmain collection_dst (Some ob);
      '(_, bmain2) ← scene_collections_object_remove fuel bmain1 scene ob false collection_dst;
      Some bmain2
  end.

(** ** Selecting the objects of a collection

    Modelled from the spec: [BKE_view_layer_base_find] of layer.c, which is
    not part of the sources, is the lookup of the base of an object; a view
    layer is the table of the flags of its bases. *)
Definition BKE_view_layer_base_find (view_layer : gmap nat Z) (ob : oid) : option Z :=
  view_layer !! ob.

(** The body of the first loop of [collection_objects_select]. *)
Definition select_object (deselect : bool) (s : bool * gmap nat Z) (ob : oid)
    : bool * gmap nat Z :=
  match BKE_view_layer_base_find s.2 ob with
  | Some base =>
      if deselect then
        if negb (Z.land base BASE_SELECTED =? 0)%Z
        then (true, <[ob := Z.land base (Z.lnot BASE_SELECTED)]> s.2)
        else s
      else
        if negb (Z.land base BASE_SELECTABLED =? 0)%Z && (Z.land base BASE_SELECTED =? 0)%Z
        then (true, <[ob := Z.lor base BASE_SELECTED]> s.2)
        else s
  | None => s
  end.

Fixpoint collection_objects_select (fuel : nat) (st : gmap nat Collection)
    (view_layer : gmap nat Z) (collection : cid) (deselect : bool)
    : option (bool * gmap nat Z) :=
  match fuel with
  | 0 => None
  | S fuel' =>
      col ← st !! collection;
      if negb (Z.land (flag col) COLLECTION_RESTRICT_SELECT =? 0)%Z
      then Some (false, view_layer)
      else
        let s := foldl (select_object deselect) (false, view_layer) (gobject col) in
        for_each (fun (s' : bool * gmap nat Z) (child : cid) =>
                    '(changed, vl) ← collection_objects_select fuel' st s'.2 collection deselect;
                    Some (if changed : bool then true else s'.1, vl))
                 (children col) s
  end.

End Embedding.

(** * Specification

    ** The graph of collections *)

Definition children_of (st : gmap nat Collection) (p : cid) : list cid :=
  from_option children [] (st !! p).

Definition parents_of (st : gmap nat Collection) (c : cid) : list cid :=
  from_option parents [] (st !! c).

Definition gobject_of (st : gmap nat Collection) (c : cid) : list oid :=
  from_option gobject [] (st !! c).

(** [child_edge st p c]: [p] has a child link to [c]. *)
Definition child_edge (st : gmap nat Collection) (p c : cid) : Prop :=
  c ∈ children_of st p.

(** [parent_ref st c p]: [c] has a parent back-reference to [p]. *)
Definition parent_ref (st : gmap nat Collection) (c p : cid) : Prop :=
  p ∈ parents_of st c.

#[global] Instance child_edge_dec st p c : Decision (child_edge st p c).
Proof. unfold child_edge. apply _. Defined.

#[global] Instance parent_ref_dec st c p : Decision (parent_ref st c p).
Proof. unfold parent_ref. apply _. Defined.

(** The number of links of a list that point to [x]. *)
Definition links_to (x : nat) (l : list nat) : nat := length (filter (eq x) l).

Definition acyclic (st : gmap nat Collection) : Prop :=
  forall c, ~ tc (child_edge st) c c.

Definition parents_acyclic (st : gmap nat Collection) : Prop :=
  forall c, ~ tc (parent_ref st) c c.

(** Links point to collections that exist. *)
Definition parents_closed (st : gmap nat Collection) : Prop :=
  forall c p, parent_ref st c p -> is_Some (st !! p).

Definition children_closed (st : gmap nat Collection) : Prop :=
  forall p c, child_edge st p c -> is_Some (st !! c).

(** The invariants of the data model: the graph is acyclic, every child link
    has exactly one parent back-reference and every parent back-reference has
    exactly one child link. *)
Record graph_invariant (st : gmap nat Collection) : Prop := {
  inv_acyclic : acyclic st;
  inv_back_reference : forall p c,
    child_edge st p c -> links_to p (parents_of st c) = 1;
  inv_child_link : forall c p,
    parent_ref st c p -> links_to c (children_of st p) = 1
}.

(** The two link tables hold the same links, each at most once. *)
Definition symmetric (st : gmap nat Collection) : Prop :=
  forall p c, links_to c (children_of st p) = links_to p (parents_of st c) /\
              links_to c (children_of st p) <= 1.

(** What [collection_object_cache_free] leaves untouched. *)
Definition structure (col : Collection) : Z * list oid * list cid * list cid :=
  (id_us col, gobject col, children col, parents col).

Definition same_structure (st st' : gmap nat Collection) : Prop :=
  forall c, structure <$> st !! c = structure <$> st' !! c.

(** Both link tables and the set of collections agree. *)
Definition same_links (st st' : gmap nat Collection) : Prop :=
  forall c, children_of st c = children_of st' c /\
            parents_of st c = parents_of st' c /\
            (is_Some (st !! c) <-> is_Some (st' !! c)).

(** [link_path st a p c]: [p] lists the positions, in the lists of children,
    of the child links of a path that leads from [a] to [c]. *)
Inductive link_path (st : gmap nat Collection) : cid -> list nat -> cid -> Prop :=
  | link_path_here c : link_path st c [] c
  | link_path_step a i b p c :
      children_of st a !! i = Some b -> link_path st b p c -> link_path st a (i :: p) c.

(** [preorder st c l]: [l] is the depth-first pre-order of the graph below
    [c], where a collection is listed again whenever it is reached again. *)
#[warnings="-register-all"]
Inductive preorder (st : gmap nat Collection) : cid -> list cid -> Prop :=
  | preorder_node c ls :
      Forall2 (preorder st) (children_of st c) ls ->
      preorder st c (c :: concat ls).

(** A path that is entered through the child link at position [i]. *)
Definition enter_link (i : nat) (pe : list nat * cid) : list nat * cid :=
  (i :: pe.1, pe.2).

(** ** Termination

    A function with fuel returns [v] when every large enough fuel gives [v]. *)
Definition terminates {A} (f : nat -> option A) (v : A) : Prop :=
  exists n, forall fuel, n <= fuel -> f fuel = Some v.

(** ** Sequences of link edits *)

Inductive link_op : Type :=
  | add_child (parent collection : cid) (flag : Z) (add_us : bool)
  | remove_child (parent collection : cid).

Section Edits.
Context `{K : Constants}.

Definition run_link_op (fuel : nat) (st : gmap nat Collection) (op : link_op)
    : option (bool * gmap nat Collection) :=
  match op with
  | add_child parent collection flag add_us =>
      collection_child_add fuel st parent collection flag add_us
  | remove_child parent collection =>
      collection_child_remove fuel st parent collection
  end.

(** [succeeded st ops st']: the calls [ops], made one after the other from
    [st], all returned true and left [st']. *)
Inductive succeeded : gmap nat Collection -> list link_op -> gmap nat Collection -> Prop :=
  | succeeded_nil st : succeeded st [] st
  | succeeded_cons fuel st op st1 ops st' :
      run_link_op fuel st op = Some (true, st1) ->
      succeeded st1 ops st' ->
      succeeded st (op :: ops) st'.

(** The call adds the parent back-reference together with the child link. *)
Definition keeps_parent_links (op : link_op) : Prop :=
  match op with
  | add_child _ _ flag _ => Z.land flag LIB_ID_CREATE_NO_MAIN = 0%Z
  | remove_child _ _ => True
  end.

(** The cache of [a] is empty and its validity flag is not set. *)
Definition cache_cleared (st : gmap nat Collection) (a : cid) : Prop :=
  exists col, st !! a = Some col /\ has_object_cache col = false /\ object_cache col = [].

End Edits.

(** ** A checker for concrete graphs

    [check_graph rank st] can be decided by evaluation: every child link
    goes to a collection of smaller rank and has exactly one parent
    back-reference, and every parent back-reference has exactly one child
    link. *)
Definition check_graph (rank : nat -> nat) (st : gmap nat Collection) : Prop :=
  map_Forall (fun p col =>
    Forall (fun c => rank c < rank p /\ links_to p (parents_of st c) = 1) (children col) /\
    Forall (fun q => links_to p (children_of st q) = 1) (parents col)) st.

#[global] Instance check_graph_dec rank st : Decision (check_graph rank st).
Proof. unfold check_graph. apply _. Defined.

(** Decide a closed proposition by evaluation. *)
Ltac by_evaluation := apply (bool_decide_unpack _); vm_compute; exact I.

(** ** Concrete constants and graphs *)

(** The values the constants have in the headers of Blender 2.80. *)
Definition blender_constants : Constants := {|
  COLLECTION_RESTRICT_VIEW := 1;
  COLLECTION_RESTRICT_SELECT := 2;
  COLLECTION_RESTRICT_RENDER := 8;
  COLLECTION_HAS_OBJECT_CACHE := 16;
  COLLECTION_IS_MASTER := 32;
  BASE_SELECTED := 1;
  BASE_VISIBLED := 2;
  BASE_SELECTABLED := 4;
  BASE_VISIBLE_VIEWPORT := 64;
  BASE_VISIBLE_RENDER := 128;
  LIB_ID_CREATE_NO_MAIN := 1;
  LIB_ID_CREATE_NO_USER_REFCOUNT := 2
|}.

(** A collection without links, members or cache. *)
Definition empty_collection : Collection := mkCollection 0 0 [] [] [] [].

(** Two collections without links. *)
Definition two_collections : gmap nat Collection :=
  {[ 0 := empty_collection; 1 := empty_collection ]}.

(** Collection 0 with the single child 1. *)
Definition parent_and_child : gmap nat Collection :=
  {[ 0 := mkCollection 0 0 [] [1] [] []; 1 := mkCollection 1 0 [] [] [0] [] ]}.

(** Collection 0 with a child link to 1 that has no parent back-reference. *)
Definition orphan_link : gmap nat Collection :=
  {[ 0 := mkCollection 0 0 [] [1] [] []; 1 := empty_collection ]}.

(** [orphan_link] after collection 0 has become a child of collection 1. *)
Definition cyclic_links : gmap nat Collection :=
  {[ 0 := mkCollection 1 0 [] [1] [1] [];
     1 := mkCollection 0 0 [] [0] [] [] ]}.

(** Collections 0 and 1 that both have object 5 as a member. *)
Definition shared_object : Main :=
  mkMain {[ 0 := mkCollection 0 32 [5] [] [] []; 1 := mkCollection 0 0 [5] [] [] [] ]}
         {[ 5 := mkObject 2 None ]} 0.

(** Collection 0 and an object 7 that instances collection 0. *)
Definition self_instance : Main :=
  mkMain {[ 0 := empty_collection ]} {[ 7 := mkObject 1 (Some 0) ]} 0.

(** Collection 0 with child 1 and an object 7 that instances collection 1. *)
Definition child_instance : Main :=
  mkMain parent_and_child {[ 7 := mkObject 1 (Some 1) ]} 0.

(** A master collection with the single member 5. *)
Definition master_with_object : gmap nat Collection :=
  {[ 0 := mkCollection 0 32 [5] [] [] [] ]}.

(** Master 0 with children 1 and 2; 3 is a child of 1; object 9 is a member
    of 2 and of 3. *)
Definition scenario : gmap nat Collection :=
  {[ 0 := mkCollection 0 32 [] [1; 2] [] [];
     1 := mkCollection 1 0 [] [3] [0] [];
     2 := mkCollection 1 0 [9] [] [0] [];
     3 := mkCollection 1 0 [9] [] [1] [] ]}.

(** The scenario after [BKE_collection_object_cache_get] has been called on
    each of its collections: every cache is flagged valid and lists
    object 9. *)
Definition cached_scenario : gmap nat Collection :=
  {[ 0 := mkCollection 0 48 [] [1; 2] [] [mkBase 9 198];
     1 := mkCollection 1 16 [] [3] [0] [mkBase 9 198];
     2 := mkCollection 1 16 [9] [] [0] [mkBase 9 198];
     3 := mkCollection 1 16 [9] [] [1] [mkBase 9 198] ]}.

(** The cached scenario together with object 9 and an object 8 that is a
    member of no collection. *)
Definition cached_main : Main :=
  mkMain cached_scenario {[ 8 := mkObject 0 None; 9 := mkObject 2 None ]} 0.

(** The scenario together with its object 9. *)
Definition scenario_main : Main := mkMain scenario {[ 9 := mkObject 2 None ]} 0.

(** Master 0 with children 1 and 2 that share the child 3. *)
Definition diamond : gmap nat Collection :=
  {[ 0 := mkCollection 0 32 [] [1; 2] [] [];
     1 := mkCollection 1 0 [] [3] [0] [];
     2 := mkCollection 1 0 [] [3] [0] [];
     3 := mkCollection 2 0 [] [] [1; 2] [] ]}.

(** ** What the link mutators do to the structure of a collection

    [child_add_structure] and [child_remove_structure] give the structure of
    collection [x] after a successful [collection_child_add] and
    [collection_child_remove] in terms of its structure before; [main] tells
    whether the flag of the call has LIB_ID_CREATE_NO_MAIN clear. *)
Definition child_add_structure (parent collection : cid) (main add_us : bool) (x : cid)
    (s : Z * list oid * list cid * list cid) : Z * list oid * list cid * list cid :=
  let '(us, members, chs, pas) := s in
  (if add_us && bool_decide (x = collection) then id_us_plus us else us,
   members,
   if bool_decide (x = parent) then BLI_addtail chs collection else chs,
   if main && bool_decide (x = collection) then BLI_addtail pas parent else pas).

Definition child_remove_structure (parent collection : cid) (x : cid)
    (s : Z * list oid * list cid * list cid) : Z * list oid * list cid * list cid :=
  let '(us, members, chs, pas) := s in
  (if bool_decide (x = collection) then id_us_min us else us,
   members,
   if bool_decide (x = parent) then BLI_freelinkN chs (BLI_findptr id chs collection) else chs,
   if bool_decide (x = collection) then BLI_freelinkN pas (BLI_findptr id pas parent) else pas).

(** The structure of collection [x] after a successful [collection_object_add]
    and [collection_object_remove] in terms of its structure before. *)
Definition object_add_structure (collection : cid) (ob : oid) (x : cid)
    (s : Z * list oid * list cid * list cid) : Z * list oid * list cid * list cid :=
  let '(us, members, chs, pas) := s in
  (us, if bool_decide (x = collection) then BLI_addtail members ob else members, chs, pas).

Definition object_remove_structure (collection : cid) (ob : oid) (x : cid)
    (s : Z * list oid * list cid * list cid) : Z * list oid * list cid * list cid :=
  let '(us, members, chs, pas) := s in
  (us,
   if bool_decide (x = collection)
   then BLI_freelinkN members (BLI_findptr id members ob) else members,
   chs, pas).

(** ** Coherence of the object caches *)

(** [reachable_member st c o]: [o] is a member of [c] or of a descendant. *)
Definition reachable_member (st : gmap nat Collection) (c : cid) (o : oid) : Prop :=
  exists c', rtc (child_edge st) c c' /\ o ∈ gobject_of st c'.

(** The part of a collection that the cache functions write. *)
Definition cache_part (col : Collection) : Z * list Base := (flag col, object_cache col).

Section Coherence.
Context `{K : Constants}.

(** Every cache that is flagged valid lists exactly the reachable members,
    and every other cache is empty. *)
Definition cache_coherent (st : gmap nat Collection) : Prop :=
  forall c col, st !! c = Some col ->
    if has_object_cache col
    then forall o, o ∈ object <$> object_cache col <-> reachable_member st c o
    else object_cache col = [].

End Coherence.

(** Collection 0, hidden in the viewport, with member 5 and with the child 1
    that has member 6. *)
Definition hidden_parent : gmap nat Collection :=
  {[ 0 := mkCollection 0 1 [5] [1] [] []; 1 := mkCollection 1 0 [6] [] [0] [] ]}.

(** ** Traversals

    What the search by index and the iterator over the objects compute, in
    terms of the pre-order of the collections. *)

(** What a search for [index] returns that enters a subtree with pre-order
    [l] when the counter is [k]: the collection found and the counter. *)
Definition from_index_result (l : list nat) (index k : Z) : option nat * Z :=
  match (if decide (k <= index)%Z then l !! Z.to_nat (index - k) else None) with
  | Some x => (Some x, index)
  | None => (None, (k + Z.of_nat (length l))%Z)
  end.

(** The objects of [l] that are not in [gs], each at its first occurrence. *)
Fixpoint fresh_objects (gs : gset nat) (l : list nat) : list nat :=
  match l with
  | [] => []
  | ob :: l' =>
      if decide (ob ∈ gs) then fresh_objects gs l'
      else ob :: fresh_objects ({[ob]} ∪ gs) l'
  end.

(** The iterator over the collections that stands on position [cur] of the
    array [arr]. *)
Definition collections_iter (arr : list nat) (cur c : nat) (v : bool)
    : BLI_Iterator CollectionsIteratorData :=
  mkIterator c (mkCollectionsIteratorData arr (length arr) cur) v.

(** The iterator over the objects has scanned the members of collection
    [arr !! cur] up to [cobn], and all of them are in [gs]. *)
Definition scanned (st : gmap nat Collection) (arr : list nat) (gs : gset nat)
    (cobn : list nat) (cur c : nat) : Prop :=
  arr !! cur = Some c /\
  exists pre, gobject_of st c = pre ++ cobn /\ forall x, x ∈ pre -> x ∈ gs.

(** The objects that are left to yield. *)
Definition remaining (st : gmap nat Collection) (arr : list nat) (gs : gset nat)
    (cobn : list nat) (cur : nat) : list nat :=
  fresh_objects gs (cobn ++ concat (gobject_of st <$> drop (S cur) arr)).

(** [iter] stands on the first object of [todo] and will yield the others. *)
Definition yields (st : gmap nat Collection) (arr : list nat)
    (iter : BLI_Iterator SceneObjectsIteratorData) (todo : list nat) : Prop :=
  match todo with
  | [] => valid iter = false
  | ob :: todo' =>
      exists gs cobn cur c,
        iter = mkIterator ob (mkSceneObjectsIteratorData gs cobn
                                (collections_iter arr cur c true)) true /\
        scanned st arr gs cobn cur c /\
        todo' = remaining st arr gs cobn cur
  end.

(** The scenario with its object 9 and an object 8 that is in no collection. *)
Definition two_objects : Main :=
  mkMain scenario {[ 8 := mkObject 0 None; 9 := mkObject 2 None ]} 0.

(** * The inputs of a mesh effect

    The embedding of intern/openmesheffect/host/intern/inputs.cpp.  The
    property set and the mesh of an input are classes that inputs.cpp does
    not define and that are not part of the sources: they are the parameters
    [Properties] and [Mesh], together with the state their constructors give
    ([new_properties] has the context PROP_CTX_INPUT) and their
    [deep_copy_from]. *)

Module OfxMeshInputStruct.
Section Input.
Context {Properties Mesh : Type}.

(** [name] is a pointer that the constructor leaves without a value: [None].
    [host] is a weak pointer. *)
Record t := mk {
  name : option string;
  properties : Properties;
  mesh : Mesh;
  host : option nat
}.

Context (new_properties : Properties) (new_mesh : Mesh).
Context (properties_deep_copy_from : Properties -> Properties -> Properties).
Context (mesh_deep_copy_from : Mesh -> Mesh -> Mesh).

(** The constructor. *)
Definition new : t := mk None new_properties new_mesh None.

Definition deep_copy_from (this other : t) : t :=
  mk (name other)
     (properties_deep_copy_from (properties this) (properties other))
     (mesh_deep_copy_from (mesh this) (mesh other))
     (host other).

End Input.
Arguments t : clear implicits.
End OfxMeshInputStruct.

Module OfxMeshInputSetStruct.
Section InputSet.
Context {Properties Mesh : Type}.
Abbreviation input := (OfxMeshInputStruct.t Properties Mesh).

(** [inputs] is the array of [num_inputs] pointers to inputs; [num_inputs] is
    its length. *)
Record t := mk {
  inputs : list input;
  host : option nat
}.

Definition num_inputs (this : t) : Z := Z.of_nat (length (inputs this)).

Context (new_properties : Properties) (new_mesh : Mesh).
Context (properties_deep_copy_from : Properties -> Properties -> Properties).
Context (mesh_deep_copy_from : Mesh -> Mesh -> Mesh).

(** The constructor. *)
Definition new : t := mk [] None.

(** The loop of [find] from index [i] on.  [strcmp] reads the name of every
    input it passes: there is no result when one has no name yet. *)
Fixpoint find_from (l : list input) (i : Z) (input : string) : option Z :=
  match l with
  | [] => Some (-1)%Z
  | x :: l' =>
      n ← OfxMeshInputStruct.name x;
      if decide (n = input) then Some i else find_from l' (i + 1)%Z input
  end.

Definition find (this : t) (input : string) : option Z :=
  find_from (inputs this) 0 input.

(** The new array has [num_inputs + count] slots: the old inputs fill the
    first ones and new inputs, with the host of the set, the others.  There
    is no array of a negative size. *)
Definition append (this : t) (count : Z) : option t :=
  let old_num_input := num_inputs this in
  let num := (old_num_input + count)%Z in
  if decide (num < 0)%Z then None
  else
    Some (mk (take (Z.to_nat num) (inputs this) ++
              replicate (Z.to_nat num - length (inputs this))
                (OfxMeshInputStruct.mk None new_properties new_mesh (host this)))
             (host this)).

Definition set_name (x : input) (n : string) : input :=
  OfxMeshInputStruct.mk (Some n) (OfxMeshInputStruct.properties x)
    (OfxMeshInputStruct.mesh x) (OfxMeshInputStruct.host x).

Definition ensure (this : t) (input : string) : option (Z * t) :=
  i ← find this input;
  if decide (i = -1)%Z then
    this1 ← append this 1;
    let i := (num_inputs this1 - 1)%Z in
    x ← inputs this1 !! Z.to_nat i;
    Some (i, mk (<[Z.to_nat i := set_name x input]> (inputs this1)) (host this1))
  else Some (i, this).

(** The loop of [deep_copy_from]: input [i] of the set copies input [i] of
    [other]; there is no result when [other] has no input [i]. *)
Fixpoint deep_copy_inputs (l other : list input) : option (list input) :=
  match l with
  | [] => Some []
  | x :: l' =>
      match other with
      | [] => None
      | y :: other' =>
          l'' ← deep_copy_inputs l' other';
          Some (OfxMeshInputStruct.deep_copy_from properties_deep_copy_from
                  mesh_deep_copy_from x y :: l'')
      end
  end.

Definition deep_copy_from (this other : t) : option t :=
  this1 ← append this (num_inputs other);
  l ← deep_copy_inputs (inputs this1) (inputs other);
  Some (mk l (host other)).

End InputSet.
Arguments t : clear implicits.
End OfxMeshInputSetStruct.

(** Every input of the list has a name. *)
Definition named {Properties Mesh : Type}
    (l : list (OfxMeshInputStruct.t Properties Mesh)) : Prop :=
  Forall (fun x => is_Some (OfxMeshInputStruct.name x)) l.

(** A set with the inputs [a] and [b], whose property sets and meshes carry
    no data. *)
Definition two_inputs : OfxMeshInputSetStruct.t unit unit :=
  OfxMeshInputSetStruct.mk
    [OfxMeshInputStruct.mk (Some "a"%string) tt tt None;
     OfxMeshInputStruct.mk (Some "b"%string) tt tt None] None.

(** ** Selection *)

Section SelectFlag.
Context `{K : Constants}.

(** The flag that the first loop of [collection_objects_select] leaves in a
    base with flag [base]. *)
Definition select_flag (deselect : bool) (base : Z) : Z :=
  if deselect then
    if negb (Z.land base BASE_SELECTED =? 0)%Z
    then Z.land base (Z.lnot BASE_SELECTED) else base
  else
    if negb (Z.land base BASE_SELECTABLED =? 0)%Z && (Z.land base BASE_SELECTED =? 0)%Z
    then Z.lor base BASE_SELECTED else base.

(** The loop changes the base of [ob]. *)
Definition select_changes (deselect : bool) (view_layer : gmap nat Z) (ob : nat) : Prop :=
  exists base, view_layer !! ob = Some base /\ select_flag deselect base <> base.

End SelectFlag.

(** * Proofs *)

Lemma terminates_bind {A B} (f : nat -> option A) (g : A -> nat -> option B) v w :
  terminates f v -> terminates (g v) w ->
  terminates (fun n => x ← f n; g x n) w.
Proof.
  intros [n Hn] [m Hm]. exists (n `max` m). intros fuel Hfuel.
  rewrite Hn by lia. simpl. apply Hm. lia.
Qed.

Lemma terminates_step {A} (f : nat -> option A) v :
  terminates f v -> terminates (fun n => match n with 0 => None | S k => f k end) v.
Proof.
  intros [n Hn]. exists (S n). intros [|k] Hk; [lia|]. apply Hn. lia.
Qed.

Lemma terminates_ext {A} (f g : nat -> option A) v :
  (forall n, f n = g n) -> terminates f v -> terminates g v.
Proof. intros Hfg [n Hn]. exists n. intros. rewrite <- Hfg. by apply Hn. Qed.

Lemma any_m_terminates {A} (f : nat -> A -> option bool) (l : list A) :
  (forall x, x ∈ l -> exists b, terminates (fun n => f n x) b) ->
  exists b, terminates (fun n => any_m (f n) l) b.
Proof.
  induction l as [|x l IH]; intros Hl.
  - exists false. by exists 0.
  - destruct (Hl x) as [b Hb]; [left|].
    destruct IH as [b' Hb']; [intros; apply Hl; by right|].
    exists (if b then true else b'). simpl.
    apply (terminates_bind (fun n => f n x)
             (fun b n => if b : bool then Some true else any_m (f n) l) b); [done|].
    destruct b; [by exists 0 | done].
Qed.

Lemma any_m_sound {A} (P : A -> Prop) (f : A -> option bool) (l : list A) b :
  any_m f l = Some b ->
  (forall x b', x ∈ l -> f x = Some b' -> (b' = true <-> P x)) ->
  (b = true <-> Exists P l).
Proof.
  revert b. induction l as [|x l IH]; intros b Hb Hf; simpl in Hb.
  - inversion Hb. rewrite Exists_nil. split; [done | tauto].
  - destruct (f x) as [bx|] eqn:Hx; [|done]. simpl in Hb.
    pose proof (Hf x bx (list_elem_of_here _ _) Hx) as Hbx.
    rewrite Exists_cons. destruct bx.
    + inversion Hb. split; [intros _; left; by apply Hbx | done].
    + rewrite (IH b Hb); [|intros; eapply Hf; [by right | done]].
      split; [tauto|]. intros [HP|]; [|done]. apply Hbx in HP. done.
Qed.

Lemma for_each_terminates {A B} (I : B -> Prop) (f : nat -> B -> A -> option B) (l : list A) s :
  (forall s x, x ∈ l -> I s -> exists s', terminates (fun n => f n s x) s' /\ I s') ->
  I s -> exists s', terminates (fun n => for_each (f n) l s) s' /\ I s'.
Proof.
  revert s. induction l as [|x l IH]; intros s Hf Hs.
  - exists s. split; [by exists 0 | done].
  - destruct (Hf s x) as (s1 & Hs1 & HI1); [left | done |].
    destruct (IH s1) as (s2 & Hs2 & HI2); [|done|].
    { intros. apply Hf; [by right | done]. }
    exists s2. split; [|done]. simpl.
    by apply (terminates_bind (fun n => f n s x) (fun s' n => for_each (f n) l s') s1).
Qed.

Lemma for_each_sound {A B} (I : B -> Prop) (f : B -> A -> option B) (l : list A) s s' :
  for_each f l s = Some s' ->
  (forall s x s', x ∈ l -> I s -> f s x = Some s' -> I s') ->
  I s -> I s'.
Proof.
  revert s. induction l as [|x l IH]; intros s Hr Hf Hs; simpl in Hr.
  - by inversion Hr; subst.
  - destruct (f s x) as [s1|] eqn:Hx; [|done]. simpl in Hr.
    eapply IH; [done | | ].
    + intros. eapply Hf; [by right | done..].
    + eapply Hf; [left | done..].
Qed.


(** ** Relations *)

Lemma tc_last {A} (R : relation A) x y : tc R x y -> exists z, R z y.
Proof. induction 1 as [x y HR|x y z _ _ IH]; [by exists x | exact IH]. Qed.

Lemma tc_flip {A} (R : relation A) x y : tc (flip R) x y <-> tc R y x.
Proof.
  split; induction 1 as [x y HR|x y z HR _ IH];
    try (by apply tc_once); by (eapply tc_r; [exact IH | exact HR]).
Qed.

Lemma rtc_flip {A} (R : relation A) x y : rtc (flip R) x y <-> rtc R y x.
Proof.
  split; induction 1 as [|x y z HR _ IH];
    try apply rtc_refl; by (eapply rtc_r; [exact IH | exact HR]).
Qed.

(** ** The cycle check *)

Lemma children_of_lookup st p col : st !! p = Some col -> children_of st p = children col.
Proof. unfold children_of. by intros ->. Qed.

Lemma parents_of_lookup st c col : st !! c = Some col -> parents_of st c = parents col.
Proof. unfold parents_of. by intros ->. Qed.

Lemma gobject_of_lookup st c col : st !! c = Some col -> gobject_of st c = gobject col.
Proof. unfold gobject_of. by intros ->. Qed.

Lemma child_edge_is_Some st p c : child_edge st p c -> is_Some (st !! p).
Proof.
  unfold child_edge, children_of. destruct (st !! p); [eauto|].
  simpl. by intros ?%not_elem_of_nil.
Qed.

Lemma parent_ref_is_Some st c p : parent_ref st c p -> is_Some (st !! c).
Proof.
  unfold parent_ref, parents_of. destruct (st !! c); [eauto|].
  simpl. by intros ?%not_elem_of_nil.
Qed.

Lemma parent_ref_rtc_inv st a c col :
  st !! a = Some col -> c <> a ->
  rtc (parent_ref st) a c <-> Exists (fun p => rtc (parent_ref st) p c) (parents col).
Proof.
  intros Hcol Hne. rewrite Exists_exists, <- (parents_of_lookup st a col Hcol). split.
  - intros Hr. destruct Hr as [|a p c Hp Hr]; [done|]. by exists p.
  - intros (p & Hp & Hr). by eapply rtc_l.
Qed.

Lemma BKE_collection_find_cycle_sound fuel st a c b :
  BKE_collection_find_cycle fuel st a c = Some b ->
  (b = true <-> rtc (parent_ref st) a c).
Proof.
  revert a b. induction fuel as [|fuel IH]; intros a b Hb; simpl in Hb; [done|].
  destruct (decide (c = a)) as [->|Hne].
  - inversion Hb. split; [intros _; apply rtc_refl | done].
  - destruct (st !! a) as [col|] eqn:Hcol; [|done]. simpl in Hb.
    rewrite (parent_ref_rtc_inv st a c col) by done.
    eapply any_m_sound; [done|]. intros p b' _ Hp. by apply IH.
Qed.

Lemma parent_ref_sn st a :
  parents_closed st -> parents_acyclic st -> sn (parent_ref st) a.
Proof.
  intros Hcl Hac. apply tc_finite_sn; [exact Hac|].
  exists (elements (dom st)). intros y Hy.
  apply elem_of_elements, elem_of_dom.
  apply tc_last in Hy as [z Hz]. by eapply Hcl.
Qed.

Lemma BKE_collection_find_cycle_terminates st a c :
  parents_closed st -> sn (parent_ref st) a -> is_Some (st !! a) ->
  exists b, terminates (fun n => BKE_collection_find_cycle n st a c) b.
Proof.
  intros Hcl Hsn. induction Hsn as [a _ IH]. intros [col Hcol].
  destruct (decide (c = a)) as [->|Hne].
  - exists true. exists 1. intros [|k] ?; [lia|]. simpl. by rewrite decide_True.
  - destruct (any_m_terminates
                (fun n p => BKE_collection_find_cycle n st p c) (parents col)) as [b Hb].
    { intros p Hp. rewrite <- (parents_of_lookup st a col Hcol) in Hp.
      apply IH; [done|]. by apply (Hcl a). }
    exists b. apply terminates_step in Hb. eapply terminates_ext; [|exact Hb].
    intros [|k]; simpl; [done|]. by rewrite decide_False, Hcol.
Qed.

(** ** Linked lists *)

Lemma links_to_cons x y l :
  links_to x (y :: l) = (if decide (x = y) then 1 else 0) + links_to x l.
Proof. unfold links_to. rewrite filter_cons. by destruct (decide (x = y)). Qed.

Lemma links_to_app x l1 l2 : links_to x (l1 ++ l2) = links_to x l1 + links_to x l2.
Proof. unfold links_to. by rewrite filter_app, length_app. Qed.

Lemma links_to_pos x l : x ∈ l <-> 0 < links_to x l.
Proof.
  induction l as [|y l IH].
  - split; [by intros ?%not_elem_of_nil | unfold links_to; simpl; lia].
  - rewrite links_to_cons, elem_of_cons, IH. destruct (decide (x = y)); [|lia].
    split; [lia | by left].
Qed.

Lemma links_to_delete x l i y :
  l !! i = Some y ->
  links_to x (delete i l) + (if decide (x = y) then 1 else 0) = links_to x l.
Proof.
  intros Hi. rewrite <- (take_drop_middle l i y Hi) at 2.
  rewrite delete_take_drop, !links_to_app, links_to_cons. lia.
Qed.

Lemma BLI_findptr_Some {A} (field : A -> nat) l x i :
  BLI_findptr field l x = Some i ->
  exists y, l !! i = Some y /\ field y = x /\
            forall j z, l !! j = Some z -> j < i -> field z <> x.
Proof.
  unfold BLI_findptr. destruct (list_find _ l) as [[j y]|] eqn:Hf; [|done].
  intros [= <-]. apply list_find_Some in Hf as (Hy & Hx & Hlt). exists y. eauto.
Qed.

Lemma BLI_findptr_None {A} (field : A -> nat) l x :
  BLI_findptr field l x = None <-> x ∉ field <$> l.
Proof.
  unfold BLI_findptr. rewrite fmap_None, list_find_None, Forall_forall.
  rewrite list_elem_of_fmap. split.
  - intros H (y & -> & Hy). by apply (H y).
  - intros H y Hy Hxy. apply H. by exists y.
Qed.

Lemma BLI_findptr_id_Some l x i : BLI_findptr id l x = Some i -> l !! i = Some x.
Proof. intros (y & Hy & <- & _)%BLI_findptr_Some. done. Qed.

Lemma BLI_findptr_id_None l x : BLI_findptr id l x = None <-> x ∉ l.
Proof. by rewrite BLI_findptr_None, list_fmap_id. Qed.

Lemma BLI_findptr_id_elem_of l x : x ∈ l -> is_Some (BLI_findptr id l x).
Proof.
  intros Hx. destruct (BLI_findptr id l x) eqn:Hf; [eauto|].
  by apply BLI_findptr_id_None in Hf.
Qed.

(** ** The graph invariant *)

Lemma graph_invariant_symmetric st : graph_invariant st -> symmetric st.
Proof.
  intros [_ Hback Hlink] p c.
  destruct (decide (c ∈ children_of st p)) as [Hc|Hc].
  - pose proof (Hback p c Hc) as Hp.
    assert (p ∈ parents_of st c) as Hp' by (apply links_to_pos; lia).
    rewrite Hp. rewrite (Hlink c p Hp'). lia.
  - destruct (decide (p ∈ parents_of st c)) as [Hp|Hp].
    + pose proof (Hlink c p Hp). rewrite links_to_pos in Hc. lia.
    + rewrite links_to_pos in Hc, Hp. lia.
Qed.

Lemma symmetric_graph_invariant st : acyclic st -> symmetric st -> graph_invariant st.
Proof.
  intros Hac Hsym. split; [done|..].
  - intros p c Hc. apply links_to_pos in Hc. destruct (Hsym p c). lia.
  - intros c p Hp. apply links_to_pos in Hp. destruct (Hsym p c). lia.
Qed.

Lemma symmetric_parent_ref st c p : symmetric st -> parent_ref st c p <-> child_edge st p c.
Proof.
  intros Hsym. unfold parent_ref, child_edge. rewrite !links_to_pos.
  destruct (Hsym p c). lia.
Qed.

Lemma symmetric_rtc st x y :
  symmetric st -> rtc (parent_ref st) x y <-> rtc (child_edge st) y x.
Proof.
  intros Hsym. rewrite <- rtc_flip.
  split; intros Ht; (eapply rtc_congruence with (f := id); [|exact Ht]);
    intros a b; unfold flip; simpl; by rewrite symmetric_parent_ref.
Qed.

Lemma symmetric_tc st x y :
  symmetric st -> tc (parent_ref st) x y <-> tc (child_edge st) y x.
Proof.
  intros Hsym. rewrite <- tc_flip.
  split; intros Ht; (eapply tc_congruence with (f := id); [|exact Ht]);
    intros a b; unfold flip; simpl; by rewrite symmetric_parent_ref.
Qed.

Lemma graph_invariant_parents_acyclic st : graph_invariant st -> parents_acyclic st.
Proof.
  intros Hinv c Hc. apply (inv_acyclic st Hinv c).
  by apply symmetric_tc; [apply graph_invariant_symmetric|].
Qed.

Lemma graph_invariant_parents_closed st : graph_invariant st -> parents_closed st.
Proof.
  intros Hinv c p Hp. apply (child_edge_is_Some st p c).
  by apply symmetric_parent_ref; [apply graph_invariant_symmetric|].
Qed.

Lemma graph_invariant_children_closed st : graph_invariant st -> children_closed st.
Proof.
  intros Hinv p c Hp. apply (parent_ref_is_Some st c p).
  by apply symmetric_parent_ref; [apply graph_invariant_symmetric|].
Qed.

(** ** Lookups after a store *)

Lemma children_of_insert st k col x :
  children_of (<[k := col]> st) x = if decide (x = k) then children col else children_of st x.
Proof.
  unfold children_of. destruct (decide (x = k)) as [->|].
  - by rewrite lookup_insert_eq.
  - by rewrite lookup_insert_ne.
Qed.

Lemma parents_of_insert st k col x :
  parents_of (<[k := col]> st) x = if decide (x = k) then parents col else parents_of st x.
Proof.
  unfold parents_of. destruct (decide (x = k)) as [->|].
  - by rewrite lookup_insert_eq.
  - by rewrite lookup_insert_ne.
Qed.

Lemma gobject_of_insert st k col x :
  gobject_of (<[k := col]> st) x = if decide (x = k) then gobject col else gobject_of st x.
Proof.
  unfold gobject_of. destruct (decide (x = k)) as [->|].
  - by rewrite lookup_insert_eq.
  - by rewrite lookup_insert_ne.
Qed.

Lemma same_structure_refl st : same_structure st st.
Proof. done. Qed.

Lemma same_structure_trans st1 st2 st3 :
  same_structure st1 st2 -> same_structure st2 st3 -> same_structure st1 st3.
Proof. intros H1 H2 c. by rewrite H1. Qed.

Lemma same_structure_insert st c col col' :
  st !! c = Some col -> structure col' = structure col ->
  same_structure st (<[c := col']> st).
Proof.
  intros Hc Hs x. destruct (decide (x = c)) as [->|].
  - rewrite lookup_insert_eq, Hc. simpl. by rewrite Hs.
  - by rewrite lookup_insert_ne.
Qed.

Lemma same_structure_is_Some st st' c :
  same_structure st st' -> is_Some (st !! c) <-> is_Some (st' !! c).
Proof. intros H. by rewrite <- !(fmap_is_Some structure), (H c). Qed.

Lemma same_structure_children st st' c :
  same_structure st st' -> children_of st c = children_of st' c.
Proof.
  intros H. specialize (H c). unfold children_of.
  destruct (st !! c) as [col|], (st' !! c) as [col'|]; simpl in *; try done.
  unfold structure in H. congruence.
Qed.

Lemma same_structure_parents st st' c :
  same_structure st st' -> parents_of st c = parents_of st' c.
Proof.
  intros H. specialize (H c). unfold parents_of.
  destruct (st !! c) as [col|], (st' !! c) as [col'|]; simpl in *; try done.
  unfold structure in H. congruence.
Qed.

Lemma same_structure_gobject st st' c :
  same_structure st st' -> gobject_of st c = gobject_of st' c.
Proof.
  intros H. specialize (H c). unfold gobject_of.
  destruct (st !! c) as [col|], (st' !! c) as [col'|]; simpl in *; try done.
  unfold structure in H. congruence.
Qed.

Lemma same_structure_parent_ref st st' c p :
  same_structure st st' -> parent_ref st c p <-> parent_ref st' c p.
Proof. intros H. unfold parent_ref. by rewrite (same_structure_parents st st'). Qed.

Section CacheFree.
Context `{K : Constants}.

Lemma collection_object_cache_free_structure fuel st c st' :
  collection_object_cache_free fuel st c = Some st' -> same_structure st st'.
Proof.
  revert st c st'. induction fuel as [|fuel IH]; intros st c st' Hr; simpl in Hr; [done|].
  destruct (st !! c) as [col|] eqn:Hc; [|done]. simpl in Hr.
  eapply (for_each_sound (same_structure st)); [exact Hr| |].
  - intros s p s' _ Hs Hp. eapply same_structure_trans; [exact Hs|]. by eapply IH.
  - by eapply same_structure_insert.
Qed.

Lemma collection_object_cache_free_terminates st0 c :
  parents_closed st0 -> sn (parent_ref st0) c ->
  forall st, same_structure st0 st -> is_Some (st0 !! c) ->
  exists st', terminates (fun n => collection_object_cache_free n st c) st' /\
              same_structure st0 st'.
Proof.
  intros Hcl Hsn. induction Hsn as [c _ IH]. intros st Hst Hc.
  destruct (proj1 (same_structure_is_Some st0 st c Hst) Hc) as [col Hcol].
  destruct (for_each_terminates (same_structure st0)
              (fun n s p => collection_object_cache_free n s p)
              (parents col) (<[c := clear_object_cache col]> st)) as (st' & Hst' & Hs').
  - intros s p Hp Hs. apply IH; [|done|].
    + unfold flip, parent_ref. rewrite (same_structure_parents st0 st c Hst).
      by rewrite (parents_of_lookup st c col).
    + apply (Hcl c). unfold parent_ref. rewrite (same_structure_parents st0 st c Hst).
      by rewrite (parents_of_lookup st c col).
  - eapply same_structure_trans; [exact Hst|]. by eapply same_structure_insert.
  - exists st'. split; [|done]. apply terminates_step in Hst'.
    eapply terminates_ext; [|exact Hst']. intros [|k]; simpl; [done|]. by rewrite Hcol.
Qed.

End CacheFree.

(** ** Extending a relation by one edge *)

Lemma tc_extend {A} (R R' : relation A) P C :
  (forall a b, R' a b -> R a b \/ (a = P /\ b = C)) ->
  forall x y, tc R' x y -> tc R x y \/ (rtc R x P /\ rtc R C y).
Proof.
  intros HR x y Ht. induction Ht as [x y Hxy|x z y Hxz _ IH].
  - destruct (HR x y Hxy) as [?|[-> ->]]; [left; by apply tc_once | right; split; apply rtc_refl].
  - destruct (HR x z Hxz) as [Hs|[-> ->]].
    + destruct IH as [IH|[IH1 IH2]].
      * left. by eapply tc_l.
      * right. split; [by eapply rtc_l | done].
    + right. split; [apply rtc_refl|]. destruct IH as [IH|[_ IH2]]; [by apply tc_rtc | done].
Qed.

(** ** Adding and removing child links *)

Lemma elem_of_delete_1 (x : nat) (l : list nat) (i : nat) : x ∈ delete i l -> x ∈ l.
Proof. intros Hx. eapply elem_of_sublist; [done | apply sublist_delete]. Qed.

Lemma links_to_delete_eq x l i :
  l !! i = Some x -> S (links_to x (delete i l)) = links_to x l.
Proof. intros Hi. pose proof (links_to_delete x l i x Hi). rewrite decide_True in H by done. lia. Qed.

Lemma links_to_delete_ne x y l i :
  l !! i = Some y -> x <> y -> links_to x (delete i l) = links_to x l.
Proof. intros Hi Hne. pose proof (links_to_delete x l i y Hi). rewrite decide_False in H by done. lia. Qed.

Lemma links_to_nil x : links_to x [] = 0.
Proof. done. Qed.

Section Links.
Context `{K : Constants}.

Lemma collection_child_add_true fuel st parent collection flag add_us st' :
  collection_child_add fuel st parent collection flag add_us = Some (true, st') ->
  Z.land flag LIB_ID_CREATE_NO_MAIN = 0%Z ->
  (collection ∉ children_of st parent) /\
  ~ rtc (parent_ref st) parent collection /\
  (forall x, children_of st' x =
             children_of st x ++ (if decide (x = parent) then [collection] else [])) /\
  (forall x, parents_of st' x =
             parents_of st x ++ (if decide (x = collection) then [parent] else [])).
Proof.
  unfold collection_child_add. intros Hr Hflag.
  destruct (st !! parent) as [p|] eqn:Hp; [|done]. simpl in Hr.
  destruct (collection_find_child p collection) eqn:Hfc; [done|].
  destruct (BKE_collection_find_cycle fuel st parent collection) as [[]|] eqn:Hcyc; try done.
  simpl in Hr. rewrite Hflag in Hr. simpl in Hr.
  apply BKE_collection_find_cycle_sound in Hcyc.
  assert (~ rtc (parent_ref st) parent collection) as Hnr by (intros ?%Hcyc; done).
  assert (collection <> parent) as Hne by (intros ->; apply Hnr, rtc_refl).
  rewrite lookup_insert_ne in Hr by done.
  destruct (st !! collection) as [c|] eqn:Hc; [|done]. simpl in Hr.
  assert (children_of st parent = children p) as Hcp by by apply children_of_lookup.
  assert (parents_of st collection = parents c) as Hpc by by apply parents_of_lookup.
  destruct add_us; simpl in Hr; [rewrite lookup_insert_eq in Hr; simpl in Hr|];
    (destruct (BKE_collection_object_cache_free _ _ _) as [st4|] eqn:Hfree; [|done]);
    simpl in Hr; injection Hr as <-;
    apply collection_object_cache_free_structure in Hfree;
    ((split; [|split; [done|split]]);
     [ rewrite Hcp; by apply BLI_findptr_id_None
     | intros x; rewrite <- (same_structure_children _ _ x Hfree)
     | intros x; rewrite <- (same_structure_parents _ _ x Hfree) ]);
    rewrite ?children_of_insert, ?parents_of_insert; simpl; unfold BLI_addtail;
    destruct (decide (x = collection)) as [Hxc|Hxc];
    destruct (decide (x = parent)) as [Hxp|Hxp];
    simplify_eq; simpl; rewrite ?Hcp, ?Hpc, ?app_nil_r; try done;
    symmetry; by (apply children_of_lookup || apply parents_of_lookup).
Qed.

Lemma collection_child_remove_true fuel st parent collection st' :
  collection_child_remove fuel st parent collection = Some (true, st') ->
  parent <> collection ->
  exists i,
    children_of st parent !! i = Some collection /\
    (forall x, children_of st' x =
               if decide (x = parent) then delete i (children_of st x) else children_of st x) /\
    (forall x, parents_of st' x =
               if decide (x = collection)
               then BLI_freelinkN (parents_of st x) (BLI_findptr id (parents_of st x) parent)
               else parents_of st x).
Proof.
  unfold collection_child_remove. intros Hr Hne.
  destruct (st !! parent) as [p|] eqn:Hp; [|done]. simpl in Hr.
  destruct (collection_find_child p collection) as [i|] eqn:Hfc; [|done].
  destruct (st !! collection) as [c|] eqn:Hc; [|done]. simpl in Hr.
  rewrite lookup_insert_ne in Hr by done. rewrite Hp in Hr. simpl in Hr.
  rewrite lookup_insert_ne in Hr by done. rewrite lookup_insert_eq in Hr. simpl in Hr.
  destruct (BKE_collection_object_cache_free _ _ _) as [st4|] eqn:Hfree; [|done].
  simpl in Hr. injection Hr as <-.
  apply collection_object_cache_free_structure in Hfree.
  assert (children_of st parent = children p) as Hcp by by apply children_of_lookup.
  assert (parents_of st collection = parents c) as Hpc by by apply parents_of_lookup.
  exists i. split; [|split].
  - rewrite Hcp. by apply BLI_findptr_id_Some.
  - intros x. rewrite <- (same_structure_children _ _ x Hfree).
    rewrite !children_of_insert. simpl.
    destruct (decide (x = collection)) as [Hxc|Hxc];
    destruct (decide (x = parent)) as [Hxp|Hxp];
    simplify_eq; simpl; rewrite ?Hcp, ?Hpc; try done;
    symmetry; by (apply children_of_lookup || apply parents_of_lookup).
  - intros x. rewrite <- (same_structure_parents _ _ x Hfree).
    rewrite !parents_of_insert. simpl. unfold collection_find_parent.
    destruct (decide (x = collection)) as [Hxc|Hxc];
    destruct (decide (x = parent)) as [Hxp|Hxp];
    simplify_eq; simpl; rewrite ?Hcp, ?Hpc; try done;
    symmetry; by (apply children_of_lookup || apply parents_of_lookup).
Qed.

Lemma collection_child_add_invariant fuel st parent collection flag add_us st' :
  graph_invariant st ->
  Z.land flag LIB_ID_CREATE_NO_MAIN = 0%Z ->
  collection_child_add fuel st parent collection flag add_us = Some (true, st') ->
  graph_invariant st'.
Proof.
  intros Hinv Hflag Hr.
  pose proof (graph_invariant_symmetric st Hinv) as Hsym.
  destruct (collection_child_add_true _ _ _ _ _ _ _ Hr Hflag) as (Hnc & Hnr & Hch & Hpa).
  apply symmetric_graph_invariant.
  - intros x Hx.
    destruct (tc_extend (child_edge st) (child_edge st') parent collection) with (x := x) (y := x)
      as [Ht|[H1 H2]]; [|done|..].
    + intros a b. unfold child_edge. rewrite Hch, elem_of_app.
      destruct (decide (a = parent)) as [->|]; [|rewrite elem_of_nil; tauto].
      rewrite list_elem_of_singleton. tauto.
    + by apply (inv_acyclic st Hinv x).
    + apply Hnr. apply symmetric_rtc; [done|]. by etrans.
  - intros p c. rewrite Hch, Hpa, !links_to_app. destruct (Hsym p c) as [Heq Hle].
    rewrite links_to_pos in Hnc.
    destruct (decide (p = parent)) as [->|]; destruct (decide (c = collection)) as [->|];
      rewrite ?links_to_cons, ?links_to_nil, ?decide_True, ?decide_False by done; lia.
Qed.

Lemma collection_child_remove_invariant fuel st parent collection st' :
  graph_invariant st ->
  collection_child_remove fuel st parent collection = Some (true, st') ->
  graph_invariant st'.
Proof.
  intros Hinv Hr.
  pose proof (graph_invariant_symmetric st Hinv) as Hsym.
  assert (child_edge st parent collection) as Hedge.
  { unfold collection_child_remove in Hr.
    destruct (st !! parent) as [p|] eqn:Hp; [|done]. simpl in Hr.
    destruct (collection_find_child p collection) as [i|] eqn:Hfc; [|done].
    unfold child_edge. rewrite (children_of_lookup st parent p Hp).
    eapply list_elem_of_lookup_2. by apply BLI_findptr_id_Some. }
  assert (parent <> collection) as Hne.
  { intros ->. apply (inv_acyclic st Hinv collection). by apply tc_once. }
  destruct (collection_child_remove_true _ _ _ _ _ Hr Hne) as (i & Hi & Hch & Hpa).
  assert (parent ∈ parents_of st collection) as Hback by by apply symmetric_parent_ref.
  destruct (BLI_findptr_id_elem_of _ _ Hback) as [j Hj].
  apply symmetric_graph_invariant.
  - intros x Hx. apply (inv_acyclic st Hinv x).
    eapply tc_congruence with (f := id); [|exact Hx].
    intros a b. unfold child_edge. simpl. rewrite Hch.
    destruct (decide (a = parent)); [apply elem_of_delete_1 | done].
  - intros p c. rewrite Hch, Hpa. destruct (Hsym p c) as [Heq Hle].
    destruct (decide (p = parent)) as [->|]; destruct (decide (c = collection)) as [->|].
    + rewrite Hj. simpl. apply BLI_findptr_id_Some in Hj.
      pose proof (links_to_delete_eq collection _ _ Hi).
      pose proof (links_to_delete_eq parent _ _ Hj). lia.
    + by rewrite (links_to_delete_ne c collection _ _ Hi).
    + rewrite Hj. simpl. apply BLI_findptr_id_Some in Hj.
      by rewrite (links_to_delete_ne p parent _ _ Hj).
    + done.
Qed.

(** C1 (amended): from a graph that satisfies the invariants of the data
    model, every sequence of successful [collection_child_add] calls whose
    [flag] has the LIB_ID_CREATE_NO_MAIN bit clear and of successful
    [collection_child_remove] calls leaves a graph that is acyclic and in
    which every child link has exactly one parent back-reference and every
    parent back-reference exactly one child link. *)
Theorem link_edits_preserve_invariant st ops st' :
  graph_invariant st ->
  Forall keeps_parent_links ops ->
  succeeded st ops st' ->
  graph_invariant st'.
Proof.
  intros Hinv Hops Hrun. induction Hrun as [|fuel st op st1 ops st' Hop _ IH]; [done|].
  apply Forall_cons in Hops as [Hop1 Hops]. apply IH; [|done].
  destruct op as [parent collection flag add_us|parent collection]; simpl in *.
  - by eapply collection_child_add_invariant.
  - by eapply collection_child_remove_invariant.
Qed.
End Links.

(** ** Checking concrete graphs *)

Lemma acyclic_of_rank (rank : nat -> nat) st :
  (forall p c, child_edge st p c -> rank c < rank p) -> acyclic st.
Proof.
  intros Hrank c Hc.
  assert (forall x y, tc (child_edge st) x y -> rank y < rank x) as Ht.
  { induction 1 as [x y Hxy|x y z Hxy _ IH]; [by apply Hrank|].
    apply Hrank in Hxy. lia. }
  apply Ht in Hc. lia.
Qed.

Lemma check_graph_invariant rank st : check_graph rank st -> graph_invariant st.
Proof.
  intros Hck. split.
  - apply (acyclic_of_rank rank). intros p c Hc.
    destruct (child_edge_is_Some st p c Hc) as [col Hcol].
    unfold child_edge in Hc. rewrite (children_of_lookup st p col Hcol) in Hc.
    destruct (Hck p col Hcol) as [Hch _]. rewrite Forall_forall in Hch.
    by destruct (Hch c Hc).
  - intros p c Hc.
    destruct (child_edge_is_Some st p c Hc) as [col Hcol].
    unfold child_edge in Hc. rewrite (children_of_lookup st p col Hcol) in Hc.
    destruct (Hck p col Hcol) as [Hch _]. rewrite Forall_forall in Hch.
    by destruct (Hch c Hc).
  - intros c p Hp.
    destruct (parent_ref_is_Some st c p Hp) as [col Hcol].
    unfold parent_ref in Hp. rewrite (parents_of_lookup st c col Hcol) in Hp.
    destruct (Hck c col Hcol) as [_ Hpa]. rewrite Forall_forall in Hpa.
    by apply Hpa.
Qed.

Lemma two_collections_invariant : graph_invariant two_collections.
Proof. apply (check_graph_invariant id). by_evaluation. Qed.

Lemma parent_and_child_invariant : graph_invariant parent_and_child.
Proof. apply (check_graph_invariant (fun c => 1 - c)). by_evaluation. Qed.

Lemma rtc_tc_eq {A} (R : relation A) x y : rtc R x y <-> y = x \/ tc R x y.
Proof.
  split.
  - intros H. apply rtc_tc in H as [->|?]; [by left | by right].
  - intros [->|H]; [apply rtc_refl | by apply tc_rtc].
Qed.

(** ** Claims about the cycle check and the link mutators *)

(** C3 (amended): where the parent back-references are acyclic and point to
    collections that exist, [BKE_collection_find_cycle new_ancestor collection]
    returns, and it returns true if and only if [collection] equals
    [new_ancestor] or [collection] is reachable from [new_ancestor] by walking
    parent back-references transitively. *)
Theorem BKE_collection_find_cycle_iff st new_ancestor collection :
  parents_closed st -> parents_acyclic st -> is_Some (st !! new_ancestor) ->
  exists b,
    terminates (fun fuel => BKE_collection_find_cycle fuel st new_ancestor collection) b /\
    (b = true <->
     collection = new_ancestor \/ tc (parent_ref st) new_ancestor collection).
Proof.
  intros Hcl Hac Ha.
  destruct (BKE_collection_find_cycle_terminates st new_ancestor collection)
    as [b Hb]; [done | by apply parent_ref_sn | done |].
  exists b. split; [done|]. rewrite <- rtc_tc_eq.
  destruct Hb as [n Hn]. apply (BKE_collection_find_cycle_sound n). by apply Hn.
Qed.

Lemma BKE_collection_find_cycle_iff_witness :
  exists b,
    terminates (fun fuel => BKE_collection_find_cycle fuel parent_and_child 1 0) b /\
    (b = true <-> 0 = 1 \/ tc (parent_ref parent_and_child) 1 0).
Proof.
  apply BKE_collection_find_cycle_iff.
  - apply graph_invariant_parents_closed, parent_and_child_invariant.
  - apply graph_invariant_parents_acyclic, parent_and_child_invariant.
  - eexists. by vm_compute.
Defined.

(** C3 as stated fails: with the single link 0 -> 1, the candidate ancestor 0
    is reachable from collection 1 through the parent back-reference of 1,
    and [BKE_collection_find_cycle 0 1] returns false. *)
Lemma BKE_collection_find_cycle_direction_counterexample :
  BKE_collection_find_cycle 2 parent_and_child 0 1 = Some false /\
  tc (parent_ref parent_and_child) 1 0.
Proof. split; [by vm_compute|]. apply tc_once. by_evaluation. Qed.

Section Rejects.
Context `{K : Constants}.

(** C5 (amended): in a graph that satisfies the invariants,
    [collection_child_add parent collection] returns false and leaves the whole memory as it was (links,
    use counts, flags and caches) when the link from [parent] to [collection]
    already exists or when [collection] is an ancestor of [parent] or
    [parent] itself. *)
Theorem collection_child_add_rejects st parent collection flag add_us :
  graph_invariant st -> is_Some (st !! parent) ->
  child_edge st parent collection \/ rtc (child_edge st) collection parent ->
  terminates (fun fuel => collection_child_add fuel st parent collection flag add_us)
             (false, st).
Proof.
  intros Hinv [p Hp] Hrej. unfold collection_child_add.
  destruct (collection_find_child p collection) as [i|] eqn:Hfc.
  { exists 0. intros fuel _. by rewrite Hp; simpl; rewrite Hfc. }
  destruct Hrej as [Hedge|Hanc].
  { unfold child_edge in Hedge. rewrite (children_of_lookup st parent p Hp) in Hedge.
    by apply BLI_findptr_id_None in Hfc. }
  destruct (BKE_collection_find_cycle_terminates st parent collection) as [b [n Hn]].
  { by apply graph_invariant_parents_closed. }
  { by apply parent_ref_sn;
      [apply graph_invariant_parents_closed | apply graph_invariant_parents_acyclic]. }
  { done. }
  assert (b = true) as ->.
  { apply (BKE_collection_find_cycle_sound n st parent collection); [by apply Hn|].
    by apply symmetric_rtc; [apply graph_invariant_symmetric|]. }
  exists n. intros fuel Hfuel. rewrite Hp. simpl. rewrite Hfc, (Hn fuel Hfuel). done.
Qed.
End Rejects.

Lemma collection_child_add_rejects_witness :
  terminates (fun fuel => collection_child_add (K := blender_constants) fuel
                            parent_and_child 1 0 0 true)
             (false, parent_and_child).
Proof.
  apply collection_child_add_rejects.
  - apply parent_and_child_invariant.
  - eexists. by vm_compute.
  - right. apply rtc_once. by_evaluation.
Defined.

(** C5 as stated fails: the ancestor check of [collection_child_add] walks
    the parent back-references.  In [orphan_link], the state that a
    successful [collection_child_add] with LIB_ID_CREATE_NO_MAIN leaves,
    collection 0 is an ancestor of collection 1 by a child link without
    back-reference: adding 0 as a child of 1 returns true, changes the
    memory and closes the cycle 0 -> 1 -> 0. *)
Lemma collection_child_add_orphan_counterexample :
  succeeded (K := blender_constants) two_collections [add_child 0 1 1 false] orphan_link /\
  is_Some (orphan_link !! 1) /\
  rtc (child_edge orphan_link) 0 1 /\
  terminates (fun fuel => collection_child_add (K := blender_constants) fuel
                            orphan_link 1 0 0 true) (true, cyclic_links) /\
  cyclic_links <> orphan_link /\
  tc (child_edge cyclic_links) 0 0.
Proof.
  split; [eapply (succeeded_cons 2); [by vm_compute | constructor]|].
  split; [eexists; by vm_compute|].
  split; [apply rtc_once; by_evaluation|].
  split; [|split].
  - exists 2. intros fuel Hfuel. do 2 (destruct fuel as [|fuel]; [lia|]).
    vm_compute. reflexivity.
  - intros H. apply (f_equal (fun st => children_of st 1)) in H. by vm_compute in H.
  - apply (tc_l _ 0 1 0); [by_evaluation|]. apply tc_once. by_evaluation.
Qed.

Lemma link_edits_preserve_invariant_witness : graph_invariant parent_and_child.
Proof.
  apply (link_edits_preserve_invariant (K := blender_constants)
           two_collections [add_child 0 1 0 true] parent_and_child).
  - apply two_collections_invariant.
  - repeat constructor.
  - eapply (succeeded_cons 2); [by vm_compute | constructor].
Defined.

(** C1 as stated fails: a successful [collection_child_add] whose flag has
    LIB_ID_CREATE_NO_MAIN set appends the child link without the parent
    back-reference. *)
Lemma link_edits_no_main_counterexample :
  graph_invariant two_collections /\
  succeeded (K := blender_constants) two_collections [add_child 0 1 1 false] orphan_link /\
  ~ graph_invariant orphan_link.
Proof.
  split; [apply two_collections_invariant|]. split.
  - eapply (succeeded_cons 2); [by vm_compute | constructor].
  - intros Hinv. pose proof (inv_back_reference _ Hinv 0 1) as H.
    assert (links_to 0 (parents_of orphan_link 1) = 0) as H0 by by vm_compute.
    rewrite H in H0; [done|]. by_evaluation.
Qed.

Lemma for_each_ext {S A} (f g : S -> A -> option S) l s :
  (forall s x, f s x = g s x) -> for_each f l s = for_each g l s.
Proof.
  intros Hfg. revert s. induction l as [|x l IH]; intros s; simpl; [done|].
  rewrite Hfg. destruct (g s x); simpl; [apply IH | done].
Qed.

(** ** Selecting the objects of a collection *)

Section Select.
Context `{K : Constants}.

Lemma collection_objects_select_local fuel st st' view_layer collection deselect :
  st' !! collection = st !! collection ->
  collection_objects_select fuel st' view_layer collection deselect =
  collection_objects_select fuel st view_layer collection deselect.
Proof.
  intros Heq. revert view_layer. induction fuel as [|fuel IH]; intros view_layer; simpl; [done|].
  rewrite Heq. destruct (st !! collection) as [col|]; simpl; [|done].
  destruct (negb _); [done|]. apply for_each_ext. intros s _. by rewrite IH.
Qed.

Lemma collection_objects_select_diverges fuel st view_layer collection deselect col :
  st !! collection = Some col ->
  Z.land (flag col) COLLECTION_RESTRICT_SELECT = 0%Z ->
  children col <> [] ->
  collection_objects_select fuel st view_layer collection deselect = None.
Proof.
  intros Hcol Hflag Hch. revert view_layer.
  induction fuel as [|fuel IH]; intros view_layer; simpl; [done|].
  rewrite Hcol. simpl. rewrite Hflag. simpl.
  destruct (children col) as [|child rest]; [done|]. simpl. by rewrite IH.
Qed.

(** C9: the loop over the children of [collection_objects_select] calls the
    function on [collection] itself.  The result therefore depends on no
    other collection than [collection], whose children's members are never
    visited, and for a collection that is not restricted from selection and
    has at least one child the recursion never returns: it exhausts every
    fuel. *)
Theorem collection_objects_select_recurses_on_itself fuel st view_layer collection deselect :
  (forall st', st' !! collection = st !! collection ->
     collection_objects_select fuel st' view_layer collection deselect =
     collection_objects_select fuel st view_layer collection deselect) /\
  (forall col, st !! collection = Some col ->
     Z.land (flag col) COLLECTION_RESTRICT_SELECT = 0%Z ->
     children col <> [] ->
     collection_objects_select fuel st view_layer collection deselect = None).
Proof.
  split.
  - intros st'. apply collection_objects_select_local.
  - intros col. apply collection_objects_select_diverges.
Qed.
End Select.


(** ** Moving an object between collections *)

Lemma child_edge_sn st c :
  children_closed st -> acyclic st -> sn (child_edge st) c.
Proof.
  intros Hcl Hac. apply tc_finite_sn; [exact Hac|].
  exists (elements (dom st)). intros y Hy.
  apply elem_of_elements, elem_of_dom.
  apply tc_last in Hy as [z Hz]. by eapply Hcl.
Qed.

Lemma collection_find_child_recursive_terminates st p c :
  children_closed st -> sn (child_edge st) p -> is_Some (st !! p) ->
  exists b, terminates (fun n => collection_find_child_recursive n st p c) b.
Proof.
  intros Hcl Hsn. induction Hsn as [p _ IH]. intros [col Hcol].
  destruct (any_m_terminates
              (fun n child => if decide (child = c) then Some true
                              else collection_find_child_recursive n st child c)
              (children col)) as [b Hb].
  { intros child Hchild. rewrite <- (children_of_lookup st p col Hcol) in Hchild.
    destruct (decide (child = c)); [exists true; by exists 0|].
    apply IH; [done|]. by apply (Hcl p). }
  exists b. apply terminates_step in Hb. eapply terminates_ext; [|exact Hb].
  intros [|k]; simpl; [done|]. by rewrite Hcol.
Qed.

Section Move.
Context `{K : Constants}.

Lemma collection_object_add_false fuel bmain collection ob flag add_us bmain1 :
  collection_object_add fuel bmain collection ob flag add_us = Some (false, bmain1) ->
  bmain1 = bmain.
Proof.
  unfold collection_object_add. intros Hr.
  destruct (objects bmain !! ob) as [o|]; [|done]. simpl in Hr.
  destruct (match dup_group o with Some _ => _ | None => _ end) as [[]|]; simpl in Hr;
    [by injection Hr | | done].
  destruct (collections bmain !! collection) as [col|]; [|done]. simpl in Hr.
  destruct (BLI_findptr id (gobject col) ob); [by injection Hr|].
  destruct (BKE_collection_object_cache_free _ _ _); simpl in Hr; done.
Qed.

Lemma collection_object_add_member bmain collection ob flag add_us :
  children_closed (collections bmain) -> acyclic (collections bmain) ->
  is_Some (objects bmain !! ob) ->
  ob ∈ gobject_of (collections bmain) collection ->
  terminates (fun fuel => collection_object_add fuel bmain collection ob flag add_us)
             (false, bmain).
Proof.
  intros Hcl Hac [o Ho] Hmem. unfold collection_object_add.
  assert (is_Some (collections bmain !! collection)) as [col Hcol].
  { unfold gobject_of in Hmem. destruct (collections bmain !! collection); [eauto|].
    by apply not_elem_of_nil in Hmem. }
  rewrite (gobject_of_lookup _ _ _ Hcol) in Hmem.
  destruct (BLI_findptr_id_elem_of _ _ Hmem) as [i Hi].
  assert (exists b, terminates (fun fuel =>
            match dup_group o with
            | Some g => collection_find_child_recursive fuel (collections bmain) collection g
            | None => Some false
            end) b) as [b [n Hn]].
  { destruct (dup_group o) as [g|]; [|exists false; by exists 0].
    apply collection_find_child_recursive_terminates; [done | by apply child_edge_sn | eauto]. }
  exists n. intros fuel Hfuel. rewrite Ho. simpl. rewrite (Hn fuel Hfuel). simpl.
  destruct b; [done|]. rewrite Hcol. simpl. by rewrite Hi.
Qed.

(** C10: with a source collection, [BKE_collection_object_move] removes the
    object from the source only if adding it to the destination succeeded:
    when the add fails the memory is left as it was.  In particular, when the
    object is already a direct member of the destination the call returns
    with the memory unchanged, so the object is still a member of the source. *)
Theorem BKE_collection_object_move_keeps_source bmain scene collection_dst collection_src ob :
  (forall fuel bmain',
     BKE_collection_object_move fuel bmain scene collection_dst (Some collection_src) ob
       = Some bmain' ->
     exists ok bmain1,
       BKE_collection_object_add fuel bmain collection_dst (Some ob) = Some (ok, bmain1) /\
       (ok = false -> bmain' = bmain)) /\
  (forall dst,
     collection_dst = Some dst ->
     children_closed (collections bmain) -> acyclic (collections bmain) ->
     is_Some (objects bmain !! ob) ->
     ob ∈ gobject_of (collections bmain) dst ->
     terminates (fun fuel => BKE_collection_object_move fuel bmain scene
                               collection_dst (Some collection_src) ob) bmain).
Proof.
  split.
  - intros fuel bmain' Hr. unfold BKE_collection_object_move in Hr.
    destruct (BKE_collection_object_add fuel bmain collection_dst (Some ob))
      as [[ok bmain1]|] eqn:Hadd; [|done].
    exists ok, bmain1. split; [done|]. intros ->. simpl in Hr. injection Hr as <-.
    unfold BKE_collection_object_add in Hadd.
    destruct collection_dst as [dst|]; [|by injection Hadd].
    destruct (collection_object_add fuel bmain dst ob 0 true) as [[ok b1]|] eqn:Hcoa; [|done].
    simpl in Hadd. destruct ok.
    + destruct (BKE_collection_is_in_scene _ _ _); simpl in Hadd; done.
    + injection Hadd as <-. by eapply collection_object_add_false.
  - intros dst -> Hcl Hac Hob Hmem.
    destruct (collection_object_add_member bmain dst ob 0 true Hcl Hac Hob Hmem) as [n Hn].
    exists n. intros fuel Hfuel. unfold BKE_collection_object_move, BKE_collection_object_add.
    rewrite (Hn fuel Hfuel). done.
Qed.
End Move.


Lemma collection_objects_select_recurses_on_itself_witness :
  collection_objects_select (K := blender_constants) 7 parent_and_child ∅ 0 false = None.
Proof.
  apply (proj2 (collection_objects_select_recurses_on_itself
                  (K := blender_constants) 7 parent_and_child ∅ 0 false)
               (mkCollection 0 0 [] [1] [] [])); by vm_compute.
Defined.

Lemma shared_object_invariant : graph_invariant (collections shared_object).
Proof. apply (check_graph_invariant id). by_evaluation. Qed.

Lemma BKE_collection_object_move_keeps_source_witness :
  terminates (fun fuel => BKE_collection_object_move (K := blender_constants) fuel
                            shared_object (mkScene 0) (Some 0) (Some 1) 5)
             shared_object.
Proof.
  apply (proj2 (BKE_collection_object_move_keeps_source (K := blender_constants)
                  shared_object (mkScene 0) (Some 0) 1 5) 0 eq_refl).
  - apply graph_invariant_children_closed, shared_object_invariant.
  - apply inv_acyclic, shared_object_invariant.
  - eexists. by vm_compute.
  - by_evaluation.
Defined.

(** ** Cyclic instancing *)


(** C4 (the code departs from the claim): an object that instances
    collection 0 is added to collection 0 itself.  The cyclic dependency
    check looks for the instanced collection among the descendants of the
    target, where the claim looks among its ancestors and the target itself. *)
Theorem collection_object_add_accepts_self_instance :
  collection_object_add (K := blender_constants) 2 self_instance 0 7 0 true =
  Some (true, mkMain {[ 0 := mkCollection 0 0 [7] [] [] [] ]}
                     {[ 7 := mkObject 2 (Some 0) ]} 0).
Proof. by vm_compute. Qed.

(** The same check refuses an object that instances a child of the target,
    where no cycle would arise. *)
Lemma collection_object_add_rejects_child_instance :
  collection_object_add (K := blender_constants) 3 child_instance 0 7 0 true =
  Some (false, child_instance).
Proof. by vm_compute. Qed.

(** ** The iterator over the objects of a scene *)

(** C8 (the code departs from the claim): for a scene whose master collection
    has the single member 5, the iterator yields 5 twice.  [begin] yields the
    first member of the master collection without recording it in [visited]
    or in [cob_next]; [next] then scans the master collection again. *)
Theorem scene_objects_yields_master_member_twice :
  scene_objects 10 master_with_object (mkScene 0) = Some [5; 5].
Proof. by vm_compute. Qed.

(** The scenario of the specification: master 0 with children 1 and 2, child 3
    of 1, and object 9 a member of 2 and 3.  The master collection has no
    member of its own and object 9 is yielded once. *)
Lemma scene_objects_scenario : scene_objects 10 scenario (mkScene 0) = Some [9].
Proof. by vm_compute. Qed.

(** ** The object list cache *)

Lemma same_structure_links st st' : same_structure st st' -> same_links st st'.
Proof.
  intros H c. split; [by apply same_structure_children|].
  split; [by apply same_structure_parents | by apply same_structure_is_Some].
Qed.

Lemma same_links_invariant st st' :
  same_links st st' -> graph_invariant st -> graph_invariant st'.
Proof.
  intros H [Hac Hback Hlink]. split.
  - intros c Hc. apply (Hac c). eapply tc_congruence with (f := id); [|exact Hc].
    intros a b. unfold child_edge. simpl. by destruct (H a) as (-> & _).
  - intros p c. unfold child_edge. destruct (H p) as (<- & _), (H c) as (_ & <- & _).
    apply Hback.
  - intros c p. unfold parent_ref. destruct (H p) as (<- & _), (H c) as (_ & <- & _).
    apply Hlink.
Qed.

Lemma same_links_insert st c col col' :
  st !! c = Some col -> children col' = children col -> parents col' = parents col ->
  same_links st (<[c := col']> st).
Proof.
  intros Hc Hch Hpa x. rewrite children_of_insert, parents_of_insert.
  destruct (decide (x = c)) as [->|].
  - rewrite lookup_insert_eq, Hc, Hch, Hpa.
    rewrite (children_of_lookup st c col Hc), (parents_of_lookup st c col Hc).
    split; [done|]. split; [done|]. split; eauto.
  - by rewrite lookup_insert_ne.
Qed.

Lemma land_lor_same a b : Z.land (Z.lor a b) b = b.
Proof.
  apply Z.bits_inj'. intros n _. rewrite Z.land_spec, Z.lor_spec.
  by destruct (Z.testbit a n), (Z.testbit b n).
Qed.

Lemma land_lnot_same a b : Z.land (Z.land a (Z.lnot b)) b = 0%Z.
Proof.
  apply Z.bits_inj'. intros n Hn.
  rewrite !Z.land_spec, Z.lnot_spec, Z.bits_0 by done.
  by destruct (Z.testbit a n), (Z.testbit b n).
Qed.

Section Cache.
Context `{K : Constants}.

Lemma collection_object_cache_fill_terminates st c :
  children_closed st -> sn (child_edge st) c -> is_Some (st !! c) ->
  forall lb r, exists lb', terminates (fun n => collection_object_cache_fill n st lb c r) lb'.
Proof.
  intros Hcl Hsn. induction Hsn as [c _ IH]. intros [col Hcol] lb r.
  destruct (for_each_terminates (fun _ => True)
              (fun n lb' child => collection_object_cache_fill n st lb' child
                                    (Z.lor (flag col) r))
              (children col)
              (foldl (cache_add_object (Z.lor (flag col) r)) lb (gobject col)))
    as (lb' & Hlb' & _); [|done|].
  - intros s child Hchild _. rewrite <- (children_of_lookup st c col Hcol) in Hchild.
    destruct (IH child Hchild (Hcl c child Hchild) s (Z.lor (flag col) r)) as [s' Hs'].
    by exists s'.
  - exists lb'. apply terminates_step in Hlb'. eapply terminates_ext; [|exact Hlb'].
    intros [|k]; simpl; [done|]. by rewrite Hcol.
Qed.

Lemma has_object_cache_set col lb :
  COLLECTION_HAS_OBJECT_CACHE <> 0%Z ->
  has_object_cache (set_flag (set_object_cache col lb)
                             (Z.lor (flag col) COLLECTION_HAS_OBJECT_CACHE)) = true.
Proof.
  intros Hne. unfold has_object_cache. simpl. rewrite land_lor_same.
  by apply negb_true_iff, Z.eqb_neq.
Qed.

Lemma has_object_cache_clear col : has_object_cache (clear_object_cache col) = false.
Proof. unfold has_object_cache. simpl. by rewrite land_lnot_same. Qed.

(** C7: on an acyclic graph whose child links point to collections that
    exist, [BKE_collection_object_cache_get] returns, and every further call
    that follows without a mutation in between returns the very same list
    (the same objects with the same flags in the same order) and leaves the
    memory as it is.  The validity flag is a non-zero bit mask. *)
Theorem BKE_collection_object_cache_get_idempotent st collection :
  COLLECTION_HAS_OBJECT_CACHE <> 0%Z ->
  children_closed st -> acyclic st -> is_Some (st !! collection) ->
  exists st1 lb,
    terminates (fun fuel => BKE_collection_object_cache_get fuel st collection) (st1, lb) /\
    forall fuel, BKE_collection_object_cache_get fuel st1 collection = Some (st1, lb).
Proof.
  intros Hne Hcl Hac [col Hcol]. unfold BKE_collection_object_cache_get.
  destruct (has_object_cache col) eqn:Hhas.
  - exists st, (object_cache col). split.
    + exists 0. intros fuel _. rewrite Hcol. simpl. by rewrite Hhas.
    + intros fuel. rewrite Hcol. simpl. by rewrite Hhas.
  - destruct (collection_object_cache_fill_terminates st collection Hcl
                (child_edge_sn st collection Hcl Hac) (ex_intro _ col Hcol)
                (object_cache col) 0%Z) as [lb [n Hn]].
    eexists _, lb. split.
    + exists n. intros fuel Hfuel. rewrite Hcol. simpl. rewrite Hhas. simpl.
      rewrite (Hn fuel Hfuel). simpl. done.
    + intros fuel. rewrite lookup_insert_eq. simpl.
      by rewrite has_object_cache_set.
Qed.


Lemma cache_add_object_objects r lb ob o :
  o ∈ object <$> cache_add_object r lb ob <-> o ∈ object <$> lb \/ o = ob.
Proof.
  unfold cache_add_object. destruct (BLI_findptr object lb ob) as [i|] eqn:Hf.
  - split; [by left|]. intros [?| ->]; [done|].
    apply BLI_findptr_Some in Hf as (y & Hy & <- & _).
    apply list_elem_of_fmap. exists y. split; [done|]. by eapply list_elem_of_lookup_2.
  - unfold BLI_addtail. rewrite fmap_app, elem_of_app. simpl.
    by rewrite list_elem_of_singleton.
Qed.

Lemma foldl_cache_add_object_objects r l lb o :
  o ∈ object <$> foldl (cache_add_object r) lb l <-> o ∈ object <$> lb \/ o ∈ l.
Proof.
  revert lb. induction l as [|x l IH]; intros lb; simpl.
  - rewrite elem_of_nil. tauto.
  - rewrite IH, cache_add_object_objects, elem_of_cons. tauto.
Qed.

Lemma child_edge_rtc_inv st c col (P : nat -> Prop) :
  st !! c = Some col ->
  (exists c', rtc (child_edge st) c c' /\ P c') <->
  P c \/ Exists (fun child => exists c', rtc (child_edge st) child c' /\ P c') (children col).
Proof.
  intros Hcol. rewrite Exists_exists, <- (children_of_lookup st c col Hcol). split.
  - intros (c' & Hr & HP). destruct Hr as [|c child c' Hchild Hr]; [by left|].
    right. exists child. split; [done|]. by exists c'.
  - intros [HP|(child & Hchild & c' & Hr & HP)].
    + exists c. split; [apply rtc_refl | done].
    + exists c'. split; [|done]. by eapply rtc_l.
Qed.

Lemma collection_object_cache_fill_objects fuel st lb c r lb' o :
  collection_object_cache_fill fuel st lb c r = Some lb' ->
  o ∈ object <$> lb' <->
  o ∈ object <$> lb \/ exists c', rtc (child_edge st) c c' /\ o ∈ gobject_of st c'.
Proof.
  revert lb c r lb'. induction fuel as [|fuel IH]; intros lb c r lb' Hr; simpl in Hr; [done|].
  destruct (st !! c) as [col|] eqn:Hcol; [|done]. simpl in Hr.
  rewrite (child_edge_rtc_inv st c col (fun c' => o ∈ gobject_of st c') Hcol).
  rewrite (gobject_of_lookup st c col Hcol).
  assert (forall l r' lb1,
            for_each (fun lb' child => collection_object_cache_fill fuel st lb' child r')
                     l lb1 = Some lb' ->
            o ∈ object <$> lb' <->
            o ∈ object <$> lb1 \/
            Exists (fun child => exists c', rtc (child_edge st) child c' /\ o ∈ gobject_of st c') l)
    as Hloop.
  { clear Hr. induction l as [|child l IHl]; intros r' lb1 Hr; simpl in Hr.
    - injection Hr as ->. rewrite Exists_nil. tauto.
    - destruct (collection_object_cache_fill fuel st lb1 child r') as [lb2|] eqn:Hfill; [|done].
      simpl in Hr. rewrite (IHl _ _ Hr), (IH _ _ _ _ Hfill), Exists_cons. tauto. }
  rewrite (Hloop _ _ _ Hr), foldl_cache_add_object_objects. tauto.
Qed.

Lemma cache_cleared_insert st c col :
  cache_cleared (<[c := clear_object_cache col]> st) c.
Proof.
  exists (clear_object_cache col). rewrite lookup_insert_eq.
  split; [done|]. split; [apply has_object_cache_clear | done].
Qed.

Lemma collection_object_cache_free_mono fuel st c st' a :
  collection_object_cache_free fuel st c = Some st' ->
  cache_cleared st a -> cache_cleared st' a.
Proof.
  revert st c st'. induction fuel as [|fuel IH]; intros st c st' Hr Ha; simpl in Hr; [done|].
  destruct (st !! c) as [col|] eqn:Hc; [|done]. simpl in Hr.
  eapply (for_each_sound (fun s => cache_cleared s a)); [exact Hr| |].
  - intros s p s' _ Hs Hp. by eapply IH.
  - destruct (decide (a = c)) as [->|Hne]; [apply cache_cleared_insert|].
    destruct Ha as (cola & Hcola & Hflag & Hcache). exists cola.
    by rewrite lookup_insert_ne.
Qed.

Lemma same_structure_parent_ref_rtc st st' c a :
  same_structure st st' -> rtc (parent_ref st) c a -> rtc (parent_ref st') c a.
Proof.
  intros H Hr. eapply rtc_congruence with (f := id); [|exact Hr].
  intros x y. simpl. by rewrite (same_structure_parent_ref st st').
Qed.

Lemma collection_object_cache_free_cleared fuel st c st' a :
  collection_object_cache_free fuel st c = Some st' ->
  rtc (parent_ref st) c a -> cache_cleared st' a.
Proof.
  revert st c st' a. induction fuel as [|fuel IH]; intros st c st' a Hr Ha; simpl in Hr; [done|].
  destruct (st !! c) as [col|] eqn:Hc; [|done]. simpl in Hr.
  assert (same_structure st (<[c := clear_object_cache col]> st)) as Hst
    by by eapply same_structure_insert.
  assert (a = c \/ Exists (fun p => rtc (parent_ref st) p a) (parents col)) as [->|Hex].
  { destruct (decide (a = c)) as [|Hne]; [by left|]. right.
    by apply (parent_ref_rtc_inv st c a col). }
  { eapply (for_each_sound (fun s => cache_cleared s c)); [exact Hr| |].
    - intros s p s' _ Hs Hp. by eapply collection_object_cache_free_mono.
    - apply cache_cleared_insert. }
  revert Hr Hst Hex. generalize (<[c := clear_object_cache col]> st). clear Hc.
  induction (parents col) as [|p l IHl]; intros s Hr Hst Hex; simpl in Hr.
  - by apply Exists_nil in Hex.
  - destruct (collection_object_cache_free fuel s p) as [s1|] eqn:Hfree; [|done].
    simpl in Hr. apply Exists_cons in Hex as [Hp|Hl].
    + eapply (for_each_sound (fun s => cache_cleared s a)); [exact Hr| |].
      * intros s2 q s3 _ Hs Hq. by eapply collection_object_cache_free_mono.
      * eapply IH; [done|]. by eapply same_structure_parent_ref_rtc.
    + eapply IHl; [done| |done]. eapply same_structure_trans; [done|].
      by eapply collection_object_cache_free_structure.
Qed.


Lemma same_links_trans st1 st2 st3 :
  same_links st1 st2 -> same_links st2 st3 -> same_links st1 st3.
Proof.
  intros H1 H2 c. destruct (H1 c) as (-> & -> & ->). apply H2.
Qed.

Lemma same_links_child_rtc st st' x y :
  same_links st st' -> rtc (child_edge st) x y <-> rtc (child_edge st') x y.
Proof.
  intros H. split; intros Hr; (eapply rtc_congruence with (f := id); [|exact Hr]);
    intros a b; unfold child_edge; simpl; by destruct (H a) as (-> & _).
Qed.

Lemma same_links_parent_rtc st st' x y :
  same_links st st' -> rtc (parent_ref st) x y <-> rtc (parent_ref st') x y.
Proof.
  intros H. split; intros Hr; (eapply rtc_congruence with (f := id); [|exact Hr]);
    intros a b; unfold parent_ref; simpl; by destruct (H a) as (_ & -> & _).
Qed.

Lemma BKE_libblock_free_us_collections bmain ob :
  collections (BKE_libblock_free_us bmain ob) = collections bmain.
Proof. unfold BKE_libblock_free_us. by destruct (objects bmain !! ob). Qed.

(** C6: in a graph that satisfies the invariants, removing a member [ob] of
    [collection] succeeds and clears the cache and the validity flag of
    [collection] and of every ancestor.  The following
    [BKE_collection_object_cache_get collection] returns a list that contains
    [ob] if and only if [ob] is still reachable: through another member link
    of [collection] or as a member of a descendant of [collection]. *)
Theorem collection_object_remove_invalidates bmain collection ob free_us :
  graph_invariant (collections bmain) ->
  (free_us = false -> is_Some (objects bmain !! ob)) ->
  ob ∈ gobject_of (collections bmain) collection ->
  exists bmain1 cob st2 lb,
    terminates (fun fuel => collection_object_remove fuel bmain collection ob free_us)
               (true, bmain1) /\
    gobject_of (collections bmain) collection !! cob = Some ob /\
    (forall a, rtc (parent_ref (collections bmain)) collection a ->
               cache_cleared (collections bmain1) a) /\
    terminates (fun fuel => BKE_collection_object_cache_get fuel (collections bmain1) collection)
               (st2, lb) /\
    (ob ∈ object <$> lb <->
     ob ∈ delete cob (gobject_of (collections bmain) collection) \/
     exists c, tc (child_edge (collections bmain)) collection c /\
               ob ∈ gobject_of (collections bmain) c).
Proof.
  intros Hinv Hob Hmem. set (st := collections bmain) in *.
  assert (is_Some (st !! collection)) as [col Hcol].
  { unfold gobject_of in Hmem. destruct (st !! collection); [eauto|].
    by apply not_elem_of_nil in Hmem. }
  rewrite (gobject_of_lookup _ _ _ Hcol) in *.
  destruct (BLI_findptr_id_elem_of _ _ Hmem) as [cob Hcob].
  set (st1 := <[collection := set_gobject col (delete cob (gobject col))]> st).
  assert (same_links st st1) as H01 by by eapply same_links_insert.
  assert (graph_invariant st1) as Hinv1 by by eapply same_links_invariant.
  destruct (collection_object_cache_free_terminates st1 collection) with (st := st1)
    as (st2 & [n Hn] & H12).
  { by apply graph_invariant_parents_closed. }
  { by apply parent_ref_sn;
      [apply graph_invariant_parents_closed | apply graph_invariant_parents_acyclic]. }
  { apply same_structure_refl. }
  { unfold st1. rewrite lookup_insert_eq. eauto. }
  assert (same_links st st2) as H02
    by (eapply same_links_trans; [done | by apply same_structure_links]).
  assert (graph_invariant st2) as Hinv2 by by eapply same_links_invariant.
  assert (exists bmain1, collections bmain1 = st2 /\
            forall fuel, n <= fuel ->
              collection_object_remove fuel bmain collection ob free_us = Some (true, bmain1))
    as (bmain1 & Hcolls & Hrem).
  { assert (forall fuel, n <= fuel ->
              collection_object_remove fuel bmain collection ob free_us =
              (let bmain2 := mkMain st2 (objects bmain) (sync_requests bmain) in
               if free_us then Some (true, BKE_libblock_free_us bmain2 ob)
               else o ← objects bmain2 !! ob;
                    Some (true, mkMain st2
                            (<[ob := mkObject (id_us_min (ob_us o)) (dup_group o)]>
                               (objects bmain2))
                            (sync_requests bmain2)))) as Heq.
    { intros fuel Hfuel. unfold collection_object_remove. fold st. rewrite Hcol. simpl.
      rewrite Hcob. simpl. fold st1. unfold BKE_collection_object_cache_free.
      by rewrite (Hn fuel Hfuel). }
    destruct free_us.
    - eexists. split; [|intros fuel Hfuel; by rewrite (Heq fuel Hfuel)].
      by rewrite BKE_libblock_free_us_collections.
    - destruct (Hob eq_refl) as [o Ho].
      eexists. split; [|intros fuel Hfuel; rewrite (Heq fuel Hfuel); simpl; by rewrite Ho].
      done. }
  assert (cache_cleared st2 collection) as (col2 & Hcol2 & Hhas2 & Hcache2).
  { eapply collection_object_cache_free_cleared; [by apply (Hn n)|apply rtc_refl]. }
  destruct (collection_object_cache_fill_terminates st2 collection) with (lb := @nil Base) (r := 0%Z)
    as [lb [m Hm]].
  { by apply graph_invariant_children_closed. }
  { by apply child_edge_sn; [apply graph_invariant_children_closed | apply inv_acyclic]. }
  { eauto. }
  exists bmain1, cob. eexists _, lb. rewrite Hcolls.
  split; [by exists n|]. split; [by apply BLI_findptr_id_Some|]. split.
  { intros a Ha. eapply collection_object_cache_free_cleared; [by apply (Hn n)|].
    by apply (same_links_parent_rtc st st1). }
  split.
  { exists m. intros fuel Hfuel. unfold BKE_collection_object_cache_get.
    rewrite Hcol2. simpl. rewrite Hhas2. simpl. rewrite Hcache2, (Hm fuel Hfuel). done. }
  rewrite (collection_object_cache_fill_objects m st2 [] collection 0 lb ob) by by apply Hm.
  simpl. rewrite elem_of_nil.
  assert (forall c, gobject_of st2 c =
            if decide (c = collection) then delete cob (gobject col) else gobject_of st c)
    as Hgob.
  { intros c. rewrite <- (same_structure_gobject st1 st2 c H12). unfold st1.
    by rewrite gobject_of_insert. }
  split.
  - intros [[]|(c & Hr & Hc)]. rewrite Hgob in Hc.
    apply (same_links_child_rtc st st2) in Hr; [|done].
    destruct (decide (c = collection)) as [->|Hne]; [by left|]. right.
    exists c. split; [|done]. apply rtc_tc in Hr as [?|?]; [congruence | done].
  - intros [Hc|(c & Hr & Hc)]; right.
    + exists collection. split; [apply rtc_refl|]. by rewrite Hgob, decide_True.
    + exists c. split; [apply (same_links_child_rtc st st2); [done | by apply tc_rtc]|].
      rewrite Hgob, decide_False; [done|]. intros ->. by apply (inv_acyclic st Hinv collection).
Qed.

End Cache.

Lemma scenario_invariant : graph_invariant scenario.
Proof. apply (check_graph_invariant (fun c => 4 - c)). by_evaluation. Qed.

Lemma BKE_collection_object_cache_get_idempotent_witness :
  exists st1 lb,
    terminates (fun fuel => BKE_collection_object_cache_get (K := blender_constants)
                              fuel scenario 0) (st1, lb) /\
    forall fuel, BKE_collection_object_cache_get (K := blender_constants) fuel st1 0
                 = Some (st1, lb).
Proof.
  apply (BKE_collection_object_cache_get_idempotent (K := blender_constants)).
  - done.
  - apply graph_invariant_children_closed, scenario_invariant.
  - apply inv_acyclic, scenario_invariant.
  - eexists. by vm_compute.
Defined.

Lemma collection_object_remove_invalidates_witness :
  exists bmain1 cob st2 lb,
    terminates (fun fuel => collection_object_remove (K := blender_constants)
                              fuel scenario_main 2 9 false) (true, bmain1) /\
    gobject_of (collections scenario_main) 2 !! cob = Some 9 /\
    (forall a, rtc (parent_ref (collections scenario_main)) 2 a ->
               cache_cleared (K := blender_constants) (collections bmain1) a) /\
    terminates (fun fuel => BKE_collection_object_cache_get (K := blender_constants)
                              fuel (collections bmain1) 2) (st2, lb) /\
    (9 ∈ object <$> lb <->
     9 ∈ delete cob (gobject_of (collections scenario_main) 2) \/
     exists c, tc (child_edge (collections scenario_main)) 2 c /\
               9 ∈ gobject_of (collections scenario_main) c).
Proof.
  apply (collection_object_remove_invalidates (K := blender_constants) scenario_main 2 9 false).
  - apply scenario_invariant.
  - intros _. eexists. by vm_compute.
  - by_evaluation.
Defined.

(** ** What the guard against cyclic instancing decides *)

Lemma child_edge_tc_inv st p c col :
  st !! p = Some col ->
  tc (child_edge st) p c <->
  Exists (fun child => child = c \/ tc (child_edge st) child c) (children col).
Proof.
  intros Hcol. rewrite Exists_exists, <- (children_of_lookup st p col Hcol). split.
  - intros Ht. destruct Ht as [p c Hc|p child c Hchild Ht].
    + exists c. split; [done | by left].
    + exists child. split; [done | by right].
  - intros (child & Hchild & [->|Ht]); [by apply tc_once | by eapply tc_l].
Qed.

Lemma collection_find_child_recursive_sound fuel st p c b :
  collection_find_child_recursive fuel st p c = Some b ->
  (b = true <-> tc (child_edge st) p c).
Proof.
  revert p b. induction fuel as [|fuel IH]; intros p b Hb; simpl in Hb; [done|].
  destruct (st !! p) as [col|] eqn:Hcol; [|done]. simpl in Hb.
  rewrite (child_edge_tc_inv st p c col Hcol).
  eapply any_m_sound; [done|]. intros child b' _ Hchild. simpl in Hchild.
  destruct (decide (child = c)) as [->|Hne].
  - injection Hchild as <-. split; [by left | done].
  - rewrite (IH _ _ Hchild). split; [by right | by intros [?|?]].
Qed.

Section Instancing.
Context `{K : Constants}.

(** X6: what the guard of [collection_object_add] decides.  In a graph that
    satisfies the invariants the call returns; it is refused exactly when the
    object instances a strict descendant of the target or is already a member
    of the target, and a refused call leaves the memory as it was. *)
Lemma collection_object_add_refuses bmain collection ob flag add_us o :
  graph_invariant (collections bmain) ->
  objects bmain !! ob = Some o ->
  is_Some (collections bmain !! collection) ->
  exists ok bmain1,
    terminates (fun fuel => collection_object_add fuel bmain collection ob flag add_us)
               (ok, bmain1) /\
    (ok = false <->
     (exists g, dup_group o = Some g /\ tc (child_edge (collections bmain)) collection g) \/
     ob ∈ gobject_of (collections bmain) collection) /\
    (ok = false -> bmain1 = bmain).
Proof.
  intros Hinv Ho [col Hcol]. set (st := collections bmain) in *.
  pose proof (graph_invariant_children_closed st Hinv) as Hcl.
  rewrite (gobject_of_lookup st collection col Hcol).
  assert (exists b, terminates (fun fuel =>
            match dup_group o with
            | Some g => collection_find_child_recursive fuel st collection g
            | None => Some false
            end) b /\
            (b = true <-> exists g, dup_group o = Some g /\ tc (child_edge st) collection g))
    as (b & [n Hn] & Hb).
  { destruct (dup_group o) as [g|].
    - destruct (collection_find_child_recursive_terminates st collection g Hcl)
        as [b [n Hn]]; [by apply child_edge_sn, inv_acyclic | eauto |].
      exists b. split; [by exists n|].
      rewrite (collection_find_child_recursive_sound n st collection g b) by by apply Hn.
      split; [intros ?; by exists g | by intros (g' & [= <-] & ?)].
    - exists false. split; [by exists 0|]. split; [done | by intros (g & ? & _)]. }
  destruct b.
  { exists false, bmain. split; [|split; [|done]].
    - exists n. intros fuel Hfuel. unfold collection_object_add. fold st.
      rewrite Ho. simpl. by rewrite (Hn fuel Hfuel).
    - split; [intros _; left; by apply Hb | done]. }
  destruct (BLI_findptr id (gobject col) ob) as [i|] eqn:Hfind.
  { exists false, bmain. split; [|split; [|done]].
    - exists n. intros fuel Hfuel. unfold collection_object_add. fold st.
      rewrite Ho. simpl. rewrite (Hn fuel Hfuel). simpl. rewrite Hcol. simpl.
      by rewrite Hfind.
    - split; [intros _; right|done].
      eapply list_elem_of_lookup_2. by apply BLI_findptr_id_Some. }
  set (st1 := <[collection := set_gobject col (BLI_addtail (gobject col) ob)]> st).
  assert (same_links st st1) as H01 by by eapply same_links_insert.
  assert (graph_invariant st1) as Hinv1 by by eapply same_links_invariant.
  destruct (collection_object_cache_free_terminates st1 collection) with (st := st1)
    as (st2 & [m Hm] & _).
  { by apply graph_invariant_parents_closed. }
  { by apply parent_ref_sn;
      [apply graph_invariant_parents_closed | apply graph_invariant_parents_acyclic]. }
  { apply same_structure_refl. }
  { unfold st1. rewrite lookup_insert_eq. eauto. }
  exists true,
    (mkMain st2
       (if add_us && (Z.land flag LIB_ID_CREATE_NO_USER_REFCOUNT =? 0)%Z
        then <[ob := mkObject (id_us_plus (ob_us o)) (dup_group o)]> (objects bmain)
        else objects bmain)
       (sync_requests bmain)).
  split; [|split; [|done]].
  - exists (n `max` m). intros fuel Hfuel. unfold collection_object_add. fold st.
    rewrite Ho. simpl. rewrite (Hn fuel) by lia. simpl. rewrite Hcol. simpl.
    rewrite Hfind. fold st1. unfold BKE_collection_object_cache_free.
    rewrite (Hm fuel) by lia. simpl. done.
  - split; [done|]. intros [Hg|Hmem]; [by apply Hb in Hg|].
    by apply BLI_findptr_id_None in Hfind.
Qed.

End Instancing.

(** ** The iterator over the collections of a scene *)

Lemma links_to_NoDup (l : list nat) : (forall x, links_to x l <= 1) -> NoDup l.
Proof.
  induction l as [|y l IH]; intros Hl; [constructor|]. apply NoDup_cons. split.
  - intros Hy. apply links_to_pos in Hy. specialize (Hl y).
    rewrite links_to_cons, decide_True in Hl by done. lia.
  - apply IH. intros x. specialize (Hl x). rewrite links_to_cons in Hl. lia.
Qed.

Lemma graph_invariant_NoDup_children st c : graph_invariant st -> NoDup (children_of st c).
Proof.
  intros Hinv. apply links_to_NoDup. intros x.
  by destruct (graph_invariant_symmetric st Hinv c x).
Qed.

Lemma for_each_app {S A} (f : S -> A -> option S) (l1 l2 : list A) s :
  for_each f (l1 ++ l2) s = s' ← for_each f l1 s; for_each f l2 s'.
Proof.
  revert s. induction l1 as [|x l1 IH]; intros s; simpl; [done|].
  destruct (f s x); simpl; [apply IH | done].
Qed.

Lemma preorder_inv st c l :
  preorder st c l -> exists ls, l = c :: concat ls /\ Forall2 (preorder st) (children_of st c) ls.
Proof. intros H. inversion H as [c' ls Hls]; subst. by exists ls. Qed.

(** The walk hands the collections to the callback in pre-order. *)
Lemma scene_collection_callback_preorder {D} st c (callback : nat -> D -> option D) :
  children_closed st -> sn (child_edge st) c -> is_Some (st !! c) ->
  forall l d d', preorder st c l ->
    for_each (fun d x => callback x d) l d = Some d' ->
    terminates (fun n => scene_collection_callback n st c callback d) d'.
Proof.
  intros Hcl Hsn. induction Hsn as [c _ IH]. intros [col Hcol] l d d' Hpre Hd'.
  apply preorder_inv in Hpre as (ls & -> & Hls).
  rewrite (children_of_lookup st c col Hcol) in Hls.
  assert (forall chs ls d1 d2,
            Forall2 (preorder st) chs ls -> (forall b, b ∈ chs -> child_edge st c b) ->
            for_each (fun d x => callback x d) (concat ls) d1 = Some d2 ->
            terminates (fun n => for_each (fun d child =>
                          scene_collection_callback n st child callback d) chs d1) d2)
    as Hloop.
  { clear Hls Hd' ls. intros chs ls d1 d2 Hls. revert d1.
    induction Hls as [|b lb chs ls Hb Hls IHl]; intros d1 Hchs Hd; simpl in *.
    - injection Hd as <-. by exists 0.
    - rewrite for_each_app in Hd.
      destruct (for_each (fun d x => callback x d) lb d1) as [d3|] eqn:Hlb; [|done].
      simpl in Hd.
      apply (terminates_bind (fun n => scene_collection_callback n st b callback d1)
               (fun s n => for_each (fun d child =>
                             scene_collection_callback n st child callback d) chs s) d3).
      + apply (IH b) with (l := lb); [apply Hchs; left | apply (Hcl c b), Hchs; left | done | done].
      + apply IHl; [|done]. intros; apply Hchs; by right. }
  simpl in Hd'. destruct (callback c d) as [d1|] eqn:Hc; [|done]. simpl in Hd'.
  destruct (Hloop (children col) ls d1 d' Hls) as [n Hn]; [|done|].
  { intros b Hb. unfold child_edge. by rewrite (children_of_lookup st c col Hcol). }
  exists (S n). intros [|fuel] Hfuel; [lia|]. simpl. rewrite Hc. simpl. rewrite Hcol. simpl.
  apply Hn. lia.
Qed.

Lemma scene_collections_count_for_each (l : list nat) n :
  (Z.of_nat (n + length l) <= INT_MAX)%Z ->
  for_each (fun d x => scene_collections_count x d) l n = Some (n + length l).
Proof.
  revert n. induction l as [|x l IH]; intros n Hn; simpl length in *; [simpl; f_equal; lia|].
  cbn [for_each].
  assert (scene_collections_count x n = Some (S n)) as ->
    by (unfold scene_collections_count; by rewrite decide_False by lia).
  cbn [mbind option_bind]. rewrite IH by lia. f_equal. lia.
Qed.

Lemma scene_collections_build_array_for_each (l pre junk : list nat) :
  length junk = length l ->
  for_each (fun d c => scene_collections_build_array c d) l (pre ++ junk, length pre) =
  Some (pre ++ l, length pre + length l).
Proof.
  revert pre junk. induction l as [|x l IH]; intros pre junk Hlen.
  - destruct junk; [|done]. simpl. rewrite app_nil_r. do 2 f_equal. lia.
  - destruct junk as [|j junk]; [done|]. cbn [for_each].
    assert (scene_collections_build_array x (pre ++ j :: junk, length pre) =
            Some (<[length pre := x]> (pre ++ j :: junk), S (length pre))) as ->.
    { unfold scene_collections_build_array. cbn [fst snd].
      by rewrite decide_True by (rewrite length_app; simpl; lia). }
    cbn [mbind option_bind].
    replace (length pre) with (length pre + 0) at 1 by lia.
    rewrite insert_app_r. simpl.
    replace (S (length pre)) with (length (pre ++ [x])) by (rewrite length_app; simpl; lia).
    rewrite (cons_middle x pre junk), app_assoc, IH by (simpl in Hlen; lia).
    rewrite <- app_assoc, length_app. simpl. do 2 f_equal. lia.
Qed.

Lemma iterate_collections (arr : list nat) fuel cur c :
  (Z.of_nat (length arr) <= INT_MAX)%Z ->
  arr !! cur = Some c -> length arr - cur < fuel ->
  iterate fuel BKE_scene_collections_iterator_next
          (mkIterator c (mkCollectionsIteratorData arr (length arr) cur) true)
  = Some (drop cur arr).
Proof.
  intros Hmax. revert cur c. induction fuel as [|fuel IH]; intros cur c Hc Hfuel; [lia|].
  pose proof (lookup_lt_Some _ _ _ Hc) as Hlt.
  rewrite (drop_S _ _ _ Hc).
  destruct (decide (S cur < length arr)) as [Hnext|Hlast].
  - destruct (lookup_lt_is_Some_2 arr (S cur) Hnext) as [c' Hc'].
    assert (BKE_scene_collections_iterator_next
              (mkIterator c (mkCollectionsIteratorData arr (length arr) cur) true) =
            Some (mkIterator c' (mkCollectionsIteratorData arr (length arr) (S cur)) true))
      as Hstep.
    { unfold BKE_scene_collections_iterator_next. simpl. rewrite decide_False by lia.
      rewrite decide_True by done. by rewrite Hc'. }
    simpl. rewrite Hstep. simpl. by rewrite (IH (S cur) c' Hc') by lia.
  - assert (BKE_scene_collections_iterator_next
              (mkIterator c (mkCollectionsIteratorData arr (length arr) cur) true) =
            Some (mkIterator c (mkCollectionsIteratorData arr (length arr) (S cur)) false))
      as Hstep.
    { unfold BKE_scene_collections_iterator_next. simpl. rewrite decide_False by lia.
      by rewrite decide_False by done. }
    simpl. rewrite Hstep. simpl. destruct fuel as [|fuel]; [lia|]. simpl.
    by rewrite drop_ge by lia.
Qed.

Lemma scene_collections_array_preorder st scene l :
  children_closed st -> acyclic st -> is_Some (st !! master_collection scene) ->
  preorder st (master_collection scene) l -> (Z.of_nat (length l) <= INT_MAX)%Z ->
  terminates (fun fuel => scene_collections_array fuel st (Some scene)) (l, length l).
Proof.
  intros Hcl Hac Hm Hpre Hmax.
  pose proof (child_edge_sn st (master_collection scene) Hcl Hac) as Hsn.
  destruct (scene_collection_callback_preorder st _ scene_collections_count Hcl Hsn Hm l 0
              (length l) Hpre) as [n1 H1].
  { by apply (scene_collections_count_for_each l 0). }
  destruct (scene_collection_callback_preorder st _ scene_collections_build_array Hcl Hsn Hm l
              (replicate (length l) 0, 0) (l, length l) Hpre) as [n2 H2].
  { apply (scene_collections_build_array_for_each l [] (replicate (length l) 0)).
    by rewrite length_replicate. }
  exists (n1 `max` n2). intros fuel Hfuel. unfold scene_collections_array.
  rewrite H1 by lia. simpl.
  destruct (preorder_inv _ _ _ Hpre) as (ls & -> & _).
  rewrite decide_False by done. rewrite H2 by lia. done.
Qed.

Lemma scene_collections_preorder st scene l :
  children_closed st -> acyclic st -> is_Some (st !! master_collection scene) ->
  preorder st (master_collection scene) l -> (Z.of_nat (length l) <= INT_MAX)%Z ->
  terminates (fun fuel => scene_collections fuel st scene) l.
Proof.
  intros Hcl Hac Hm Hpre Hmax.
  destruct (scene_collections_array_preorder st scene l Hcl Hac Hm Hpre Hmax) as [n Hn].
  destruct (preorder_inv _ _ _ Hpre) as (ls & Hl & _).
  assert (l !! 0 = Some (master_collection scene)) as Hl0 by by rewrite Hl.
  exists (n `max` S (length l)). intros fuel Hfuel.
  unfold scene_collections, BKE_scene_collections_iterator_begin.
  rewrite (Hn fuel) by lia. simpl. rewrite Hl0. simpl.
  rewrite (iterate_collections l fuel 0 _ Hmax Hl0) by lia. done.
Qed.

(** ** The paths of the pre-order *)

#[global] Instance enter_link_inj i : Inj (=) (=) (enter_link i).
Proof. intros [p e] [p' e']. unfold enter_link. simpl. congruence. Qed.

Lemma link_path_inv st a p c :
  link_path st a p c <->
  (p = [] /\ c = a) \/
  exists i b p', p = i :: p' /\ children_of st a !! i = Some b /\ link_path st b p' c.
Proof.
  split.
  - intros H. inversion H as [|a' i b p' c' Hi Hp]; subst; [by left|].
    right. by exists i, b, p'.
  - intros [[-> ->]|(i & b & p' & -> & Hi & Hp)]; [constructor|]. by econstructor.
Qed.

(** The pre-order lists one collection for every path of child links. *)
Lemma preorder_paths st c l :
  preorder st c l ->
  exists ps, ps.*2 = l /\ NoDup ps /\ forall p e, (p, e) ∈ ps <-> link_path st c p e.
Proof.
  remember (length l) as n eqn:Hn. revert c l Hn.
  induction (lt_wf n) as [n _ IH]. intros c l -> Hpre.
  apply preorder_inv in Hpre as (ls & -> & Hls).
  assert (forall chs ls' k, Forall2 (preorder st) chs ls' ->
            length (concat ls') <= length (concat ls) ->
            exists qs, qs.*2 = concat ls' /\ NoDup qs /\
              forall p e, (p, e) ∈ qs <->
                exists i b p', p = (k + i) :: p' /\ chs !! i = Some b /\ link_path st b p' e)
    as Hloop.
  { intros chs ls' k H. revert k.
    induction H as [|b lb chs ls' Hb Hls' IHl]; intros k Hlen; simpl in *.
    - exists []. split; [done|]. split; [constructor|]. intros p e.
      split; [by intros ?%elem_of_nil | by intros (i & b & p' & _ & ? & _)].
    - rewrite length_app in Hlen.
      destruct (IH (length lb) ltac:(simpl; lia) b lb eq_refl Hb) as (ps & Hps & Hnd & Hmem).
      destruct (IHl (S k)) as (qs & Hqs & Hndq & Hmemq); [lia|].
      exists ((enter_link k <$> ps) ++ qs). split; [|split].
      + rewrite fmap_app, <- list_fmap_compose, Hqs. f_equal. by rewrite <- Hps.
      + apply NoDup_app. split; [by apply NoDup_fmap_2; [apply _|]|]. split; [|done].
        intros [p e] ([p0 e0] & Heq & _)%list_elem_of_fmap
                     (i & b' & p' & Hp & _)%Hmemq.
        unfold enter_link in Heq. simpl in Heq. injection Heq as -> _.
        injection Hp as Hk _. lia.
      + intros p e. rewrite elem_of_app, list_elem_of_fmap, Hmemq. split.
        * intros [([p0 e0] & Heq & Hin%Hmem)|(i & b' & p' & -> & Hi & Hp)].
          -- unfold enter_link in Heq. simpl in Heq. injection Heq as -> ->.
             exists 0, b, p0. split; [f_equal; lia | done].
          -- exists (S i), b', p'. split; [f_equal; lia | done].
        * intros ([|i] & b' & p' & -> & Hi & Hp); simpl in Hi.
          -- injection Hi as <-. left. exists (p', e). split; [|by apply Hmem].
             unfold enter_link. simpl. do 2 f_equal. lia.
          -- right. exists i, b', p'. split; [f_equal; lia | done]. }
  destruct (Hloop _ ls 0 Hls) as (qs & Hqs & Hnd & Hmem); [done|].
  exists (([], c) :: qs). split; [by rewrite fmap_cons, Hqs|]. split.
  - constructor; [|done]. by intros (i & b & p' & ? & _)%Hmem.
  - intros p e. rewrite elem_of_cons, Hmem, link_path_inv. split.
    + intros [[= -> ->]|?]; [by left | by right].
    + intros [[-> ->]|?]; [by left | by right].
Qed.

(** C2 (amended): on an acyclic graph whose child links point to collections
    that exist, the iterator over the collections of a scene returns, and it
    yields the collections in depth-first pre-order from the master
    collection [l], one for every path of child links that starts at the
    master collection: [ps] lists these paths without repetition, each with
    the collection it ends in.  A collection with a single path is yielded
    once, a collection reachable through several parents once for every
    path.  The counter of the visits is an [int]: the pre-order has at most
    [INT_MAX] entries. *)
Theorem scene_collections_once_per_path st scene l :
  children_closed st -> acyclic st -> is_Some (st !! master_collection scene) ->
  preorder st (master_collection scene) l -> (Z.of_nat (length l) <= INT_MAX)%Z ->
  terminates (fun fuel => scene_collections fuel st scene) l /\
  exists ps,
    ps.*2 = l /\ NoDup ps /\
    forall p c, (p, c) ∈ ps <-> link_path st (master_collection scene) p c.
Proof.
  intros Hcl Hac Hm Hpre Hmax. split.
  - by apply scene_collections_preorder.
  - by apply preorder_paths.
Qed.

Lemma diamond_invariant : graph_invariant diamond.
Proof. apply (check_graph_invariant (fun c => 4 - c)). by_evaluation. Qed.

Lemma diamond_preorder : preorder diamond 0 [0; 1; 3; 2; 3].
Proof.
  apply (preorder_node diamond 0 [[1; 3]; [2; 3]]).
  change (children_of diamond 0) with [1; 2].
  repeat constructor.
  - apply (preorder_node diamond 1 [[3]]). change (children_of diamond 1) with [3].
    repeat constructor. apply (preorder_node diamond 3 []).
    change (children_of diamond 3) with (@nil nat). constructor.
  - apply (preorder_node diamond 2 [[3]]). change (children_of diamond 2) with [3].
    repeat constructor. apply (preorder_node diamond 3 []).
    change (children_of diamond 3) with (@nil nat). constructor.
Qed.

Lemma scene_collections_once_per_path_witness :
  terminates (fun fuel => scene_collections fuel diamond (mkScene 0)) [0; 1; 3; 2; 3] /\
  exists ps,
    ps.*2 = [0; 1; 3; 2; 3] /\ NoDup ps /\
    forall p c, (p, c) ∈ ps <-> link_path diamond 0 p c.
Proof.
  apply (scene_collections_once_per_path diamond (mkScene 0)).
  - apply graph_invariant_children_closed, diamond_invariant.
  - apply inv_acyclic, diamond_invariant.
  - eexists. by vm_compute.
  - apply diamond_preorder.
  - by vm_compute.
Defined.

(** C2 as stated fails: in the acyclic graph where the children 1 and 2 of the
    master collection share the child 3, collection 3 is yielded twice. *)
Lemma scene_collections_diamond_counterexample :
  acyclic diamond /\
  scene_collections 10 diamond (mkScene 0) = Some [0; 1; 3; 2; 3] /\
  ~ NoDup [0; 1; 3; 2; 3].
Proof.
  split; [apply inv_acyclic, diamond_invariant|]. split; [by vm_compute|].
  intros Hnd. by apply (bool_decide_pack _) in Hnd.
Qed.

(** * Further properties

    ** The link mutators decide *)

Lemma lookup_insert_is_Some_same {A} (m : gmap nat A) k v x :
  is_Some (m !! k) -> is_Some (<[k := v]> m !! x) <-> is_Some (m !! x).
Proof.
  intros Hk. destruct (decide (x = k)) as [->|].
  - rewrite lookup_insert_eq. split; eauto.
  - by rewrite lookup_insert_ne.
Qed.

Lemma BLI_findptr_id_app_last (l : list nat) x :
  x ∉ l -> BLI_findptr id (l ++ [x]) x = Some (length l).
Proof.
  unfold BLI_findptr. induction l as [|y l IH]; intros Hx; simpl.
  - by rewrite decide_True.
  - apply not_elem_of_cons in Hx as [Hxy Hx]. rewrite decide_False by done.
    specialize (IH Hx). destruct (list_find _ (l ++ [x])) as [[j z]|]; simpl in *; [|done].
    by injection IH as ->.
Qed.

Lemma delete_app_last {A} (l : list A) x : delete (length l) (l ++ [x]) = l.
Proof. induction l as [|y l IH]; simpl; [done | by rewrite IH]. Qed.

Section MoreLinks.
Context `{K : Constants}.

(** The memory that [collection_child_add] hands to the cache invalidation. *)
Lemma collection_child_add_store st parent collection flag add_us p c n :
  st !! parent = Some p -> st !! collection = Some c ->
  collection_find_child p collection = None ->
  (forall fuel, n <= fuel ->
     BKE_collection_find_cycle fuel st parent collection = Some false) ->
  exists st3,
    (forall fuel, n <= fuel ->
       collection_child_add fuel st parent collection flag add_us =
       st4 ← collection_object_cache_free fuel st3 parent; Some (true, st4)) /\
    (forall x y, parent_ref st3 x y ->
                 parent_ref st x y \/ (x = collection /\ y = parent)) /\
    (forall x, is_Some (st3 !! x) <-> is_Some (st !! x)).
Proof.
  intros Hp Hc Hfc Hn.
  assert (collection <> parent) as Hne.
  { intros ->. specialize (Hn n (le_n _)). destruct n; simpl in Hn; [done|].
    by rewrite decide_True in Hn. }
  assert (parent <> collection) as Hne' by done.
  assert (forall st3,
    (forall x, parents_of st3 x = parents_of st x \/
               (x = collection /\ parents_of st3 x = parents_of st x ++ [parent])) ->
    forall x y, parent_ref st3 x y ->
                parent_ref st x y \/ (x = collection /\ y = parent)) as Hpar.
  { intros st3 H x y. unfold parent_ref. destruct (H x) as [->|[-> ->]]; [by left|].
    rewrite elem_of_app, list_elem_of_singleton. intros [?| ->]; [by left | by right]. }
  assert (parents_of st collection = parents c) as Hpc by by apply parents_of_lookup.
  assert (parents_of st parent = parents p) as Hpp by by apply parents_of_lookup.
  destruct (Z.land flag LIB_ID_CREATE_NO_MAIN =? 0)%Z eqn:Hflag; destruct add_us;
    eexists;
    ((split; [|split]);
     [ intros fuel Hfuel; unfold collection_child_add;
       rewrite Hp; simpl; rewrite Hfc, (Hn fuel Hfuel); simpl; rewrite Hflag; simpl;
       rewrite ?lookup_insert_eq, ?(lookup_insert_ne _ parent collection) by done;
       rewrite ?Hc; simpl; rewrite ?lookup_insert_eq; simpl;
       rewrite ?(lookup_insert_ne _ parent collection) by done; rewrite ?Hc; simpl;
       reflexivity
     | apply Hpar; intros x; rewrite ?parents_of_insert; simpl; unfold BLI_addtail;
       destruct (decide (x = collection)) as [->|]; [|destruct (decide (x = parent)) as [->|]];
       rewrite ?decide_False by done; rewrite ?Hpc, ?Hpp; auto
     | intros x; rewrite ?lookup_insert_is_Some_same; [done|..];
       rewrite ?lookup_insert_is_Some_same; eauto;
       rewrite ?lookup_insert_eq, ?lookup_insert_ne by done; eauto ]).
Qed.


Lemma collection_child_add_structure fuel st parent collection flag add_us st' x :
  collection_child_add fuel st parent collection flag add_us = Some (true, st') ->
  structure <$> st' !! x =
  child_add_structure parent collection (Z.land flag LIB_ID_CREATE_NO_MAIN =? 0)%Z add_us x
    <$> (structure <$> st !! x).
Proof.
  unfold collection_child_add. intros Hr.
  destruct (st !! parent) as [p|] eqn:Hp; [|done]. simpl in Hr.
  destruct (collection_find_child p collection) eqn:Hfc; [done|].
  destruct (BKE_collection_find_cycle fuel st parent collection) as [[]|] eqn:Hcyc; try done.
  simpl in Hr.
  assert (collection <> parent) as Hne.
  { intros ->. destruct fuel; simpl in Hcyc; [done|]. by rewrite decide_True in Hcyc. }
  assert (parent <> collection) as Hne' by done.
  destruct (st !! collection) as [c|] eqn:Hc;
    destruct (Z.land flag LIB_ID_CREATE_NO_MAIN =? 0)%Z eqn:Hflag;
    destruct add_us; simpl in Hr;
    rewrite ?lookup_insert_eq, ?lookup_insert_ne in Hr by done;
    rewrite ?Hc in Hr; simpl in Hr;
    rewrite ?lookup_insert_eq, ?lookup_insert_ne in Hr by done;
    rewrite ?Hc in Hr; simpl in Hr; try done;
    (destruct (BKE_collection_object_cache_free _ _ _) as [st4|] eqn:Hfree; [|done]);
    simpl in Hr; injection Hr as <-;
    apply collection_object_cache_free_structure in Hfree; rewrite <- (Hfree x);
    rewrite ?lookup_insert;
    destruct (decide (collection = x)) as [Hcx|Hcx];
    destruct (decide (parent = x)) as [Hpx|Hpx];
    try congruence; try subst x; rewrite ?Hp, ?Hc; simpl;
    rewrite ?bool_decide_eq_true_2, ?bool_decide_eq_false_2 by done; try done.
  all: unfold child_add_structure, structure;
    try (destruct (st !! x) as [[]|]; simpl);
    repeat case_bool_decide; try congruence; simpl; rewrite ?andb_false_r; done.
Qed.


Lemma collection_child_remove_structure fuel st parent collection st' x :
  collection_child_remove fuel st parent collection = Some (true, st') ->
  structure <$> st' !! x =
  child_remove_structure parent collection x <$> (structure <$> st !! x).
Proof.
  unfold collection_child_remove. intros Hr.
  destruct (st !! parent) as [p|] eqn:Hp; [|done]. simpl in Hr.
  destruct (collection_find_child p collection) as [i|] eqn:Hfc; [|done].
  destruct (st !! collection) as [c|] eqn:Hc; [|done]. simpl in Hr.
  unfold collection_find_child, collection_find_parent in *.
  destruct (decide (parent = collection)) as [Heq|Hne].
  - subst collection. rewrite lookup_insert_eq in Hr. simpl in Hr.
    rewrite lookup_insert_eq in Hr. simpl in Hr.
    destruct (BKE_collection_object_cache_free _ _ _) as [st4|] eqn:Hfree; [|done].
    simpl in Hr. injection Hr as <-.
    apply collection_object_cache_free_structure in Hfree. rewrite <- (Hfree x).
    rewrite !lookup_insert. assert (c = p) as -> by congruence.
    destruct (decide (parent = x)) as [<-|Hpx].
    + rewrite Hp. simpl. rewrite !bool_decide_eq_true_2 by done. by rewrite Hfc.
    + destruct (st !! x) as [col|]; simpl; [|done].
      by rewrite !bool_decide_eq_false_2 by done.
  - rewrite lookup_insert_ne in Hr by done. rewrite Hp in Hr. simpl in Hr.
    rewrite lookup_insert_ne in Hr by done. rewrite lookup_insert_eq in Hr. simpl in Hr.
    destruct (BKE_collection_object_cache_free _ _ _) as [st4|] eqn:Hfree; [|done].
    simpl in Hr. injection Hr as <-.
    apply collection_object_cache_free_structure in Hfree. rewrite <- (Hfree x).
    rewrite !lookup_insert.
    destruct (decide (collection = x)) as [Hcx|Hcx];
      destruct (decide (parent = x)) as [Hpx|Hpx]; try congruence; try subst x;
      rewrite ?Hp, ?Hc; simpl.
    + repeat case_bool_decide; try congruence. done.
    + repeat case_bool_decide; try congruence. by rewrite Hfc.
    + destruct (st !! x) as [col|]; simpl; [|done].
      repeat case_bool_decide; try congruence. done.
Qed.


Lemma collection_child_remove_store st parent collection p i c :
  st !! parent = Some p -> st !! collection = Some c ->
  collection_find_child p collection = Some i ->
  parent <> collection ->
  exists st3,
    (forall fuel,
       collection_child_remove fuel st parent collection =
       st4 ← collection_object_cache_free fuel st3 parent; Some (true, st4)) /\
    (forall x y, parent_ref st3 x y -> parent_ref st x y) /\
    (forall x, is_Some (st3 !! x) <-> is_Some (st !! x)).
Proof.
  intros Hp Hc Hfc Hne. assert (collection <> parent) as Hne' by done.
  eexists. split; [|split].
  - intros fuel. unfold collection_child_remove. rewrite Hp. simpl. rewrite Hfc, Hc. simpl.
    rewrite lookup_insert_ne by done. rewrite Hp. simpl.
    rewrite lookup_insert_ne by done. rewrite lookup_insert_eq. simpl. reflexivity.
  - intros x y. unfold parent_ref. rewrite !parents_of_insert. simpl.
    destruct (decide (x = collection)) as [->|]; [|by destruct (decide (x = parent)) as [->|];
      rewrite ?(parents_of_lookup _ _ _ Hp)].
    rewrite (parents_of_lookup _ _ _ Hc). unfold BLI_freelinkN.
    destruct (collection_find_parent c parent); [apply elem_of_delete_1 | done].
  - intros x. rewrite !lookup_insert_is_Some_same; [done|..];
      rewrite ?lookup_insert_is_Some_same; eauto;
      rewrite ?lookup_insert_eq, ?lookup_insert_ne by done; eauto.
Qed.

Lemma collection_child_remove_terminates st parent collection :
  graph_invariant st -> child_edge st parent collection ->
  exists st', terminates (fun fuel => collection_child_remove fuel st parent collection)
                         (true, st').
Proof.
  intros Hinv Hedge.
  destruct (child_edge_is_Some st parent collection Hedge) as [p Hp].
  destruct (graph_invariant_children_closed st Hinv parent collection Hedge) as [c Hc].
  assert (parent <> collection) as Hne.
  { intros ->. apply (inv_acyclic st Hinv collection). by apply tc_once. }
  unfold child_edge in Hedge. rewrite (children_of_lookup st parent p Hp) in Hedge.
  destruct (BLI_findptr_id_elem_of _ _ Hedge) as [i Hi].
  destruct (collection_child_remove_store st parent collection p i c Hp Hc Hi Hne)
    as (st3 & Heq & Hpar & Hdom).
  destruct (collection_object_cache_free_terminates st3 parent) with (st := st3)
    as (st4 & [n Hn] & _).
  - intros x y Hxy. apply Hdom. apply (graph_invariant_parents_closed st Hinv x y).
    by apply Hpar.
  - apply parent_ref_sn.
    + intros x y Hxy. apply Hdom. apply (graph_invariant_parents_closed st Hinv x y).
      by apply Hpar.
    + intros x Hx. apply (graph_invariant_parents_acyclic st Hinv x).
      eapply tc_congruence with (f := id); [|exact Hx]. intros a b. apply Hpar.
  - apply same_structure_refl.
  - apply Hdom. eauto.
  - exists st4, n. intros fuel Hfuel. by rewrite Heq, (Hn fuel Hfuel).
Qed.

(** X2: in a graph that satisfies the invariants, [collection_child_remove]
    returns; it returns true exactly when the child link exists, and when it
    returns false the memory is left as it was. *)
Theorem collection_child_remove_decides st parent collection :
  graph_invariant st -> is_Some (st !! parent) ->
  exists ok st',
    terminates (fun fuel => collection_child_remove fuel st parent collection) (ok, st') /\
    (ok = true <-> child_edge st parent collection) /\
    (ok = false -> st' = st).
Proof.
  intros Hinv [p Hp].
  destruct (decide (child_edge st parent collection)) as [Hedge|Hedge].
  - destruct (collection_child_remove_terminates st parent collection Hinv Hedge)
      as [st' Hst'].
    exists true, st'. split; [done|]. split; [done | done].
  - exists false, st. split; [|split; [|done]].
    + exists 0. intros fuel _. unfold collection_child_remove. rewrite Hp. simpl.
      unfold child_edge in Hedge. rewrite (children_of_lookup st parent p Hp) in Hedge.
      apply BLI_findptr_id_None in Hedge. unfold collection_find_child. by rewrite Hedge.
    + split; [done | by intros ?].
Qed.

(** X1: in a graph that satisfies the invariants, [collection_child_add]
    returns for every flag; it returns true exactly when the child link does
    not exist yet and [collection] is neither [parent] nor one of its
    ancestors, and when it returns false the memory is left as it was. *)
Theorem collection_child_add_decides st parent collection flag add_us :
  graph_invariant st -> is_Some (st !! parent) -> is_Some (st !! collection) ->
  exists ok st',
    terminates (fun fuel => collection_child_add fuel st parent collection flag add_us)
               (ok, st') /\
    (ok = true <->
     ~ child_edge st parent collection /\ ~ rtc (child_edge st) collection parent) /\
    (ok = false -> st' = st).
Proof.
  intros Hinv [p Hp] [c Hc].
  pose proof (graph_invariant_symmetric st Hinv) as Hsym.
  pose proof (graph_invariant_parents_closed st Hinv) as Hcl.
  pose proof (graph_invariant_parents_acyclic st Hinv) as Hac.
  destruct (collection_find_child p collection) as [i|] eqn:Hfc.
  { exists false, st. split; [|split; [|done]].
    - exists 0. intros fuel _. unfold collection_child_add. rewrite Hp. simpl.
      by rewrite Hfc.
    - split; [done|]. intros [Hedge _]. exfalso. apply Hedge. unfold child_edge.
      rewrite (children_of_lookup st parent p Hp).
      eapply list_elem_of_lookup_2. by apply BLI_findptr_id_Some. }
  assert (~ child_edge st parent collection) as Hedge.
  { unfold child_edge. rewrite (children_of_lookup st parent p Hp).
    by apply BLI_findptr_id_None. }
  destruct (BKE_collection_find_cycle_terminates st parent collection Hcl)
    as [b [n Hn]]; [by apply parent_ref_sn | eauto |].
  pose proof (BKE_collection_find_cycle_sound n st parent collection b (Hn n (le_n _))) as Hb.
  rewrite (symmetric_rtc st parent collection Hsym) in Hb.
  destruct b.
  { exists false, st. split; [|split; [|done]].
    - exists n. intros fuel Hfuel. unfold collection_child_add. rewrite Hp. simpl.
      by rewrite Hfc, (Hn fuel Hfuel).
    - split; [done|]. intros [_ Hanc]. exfalso. by apply Hanc, Hb. }
  assert (~ rtc (child_edge st) collection parent) as Hanc by (intros ?%Hb; done).
  destruct (collection_child_add_store st parent collection flag add_us p c n Hp Hc Hfc Hn)
    as (st3 & Heq & Hpar & Hdom).
  assert (parents_closed st3) as Hcl3.
  { intros x y [Hxy|[-> ->]]%Hpar; apply Hdom; [by apply (Hcl x y) | eauto]. }
  destruct (collection_object_cache_free_terminates st3 parent) with (st := st3)
    as (st4 & [m Hm] & _).
  - done.
  - apply parent_ref_sn; [done|]. intros x Hx.
    destruct (tc_extend (parent_ref st) (parent_ref st3) collection parent Hpar x x Hx)
      as [Ht|[H1 H2]]; [by apply (Hac x)|].
    apply Hanc. apply symmetric_rtc; [done|]. by etrans.
  - apply same_structure_refl.
  - apply Hdom. eauto.
  - exists true, st4. split; [|done].
    exists (n `max` m). intros fuel Hfuel. rewrite Heq by lia. by rewrite (Hm fuel) by lia.
Qed.

(** X3: a [collection_child_remove] that follows a successful
    [collection_child_add] of the same link (with the parent back-reference
    and the user count) succeeds and restores the user count, the members,
    the child links and the parent back-references of every collection. *)
Theorem collection_child_add_remove st parent collection flag st' fuel :
  graph_invariant st ->
  Z.land flag LIB_ID_CREATE_NO_MAIN = 0%Z ->
  collection_child_add fuel st parent collection flag true = Some (true, st') ->
  exists st'',
    terminates (fun fuel' => collection_child_remove fuel' st' parent collection)
               (true, st'') /\
    same_structure st st''.
Proof.
  intros Hinv Hflag Hadd.
  pose proof (graph_invariant_symmetric st Hinv) as Hsym.
  destruct (collection_child_add_true _ _ _ _ _ _ _ Hadd Hflag) as (Hnc & Hnr & Hch & Hpa).
  assert (graph_invariant st') as Hinv' by by eapply collection_child_add_invariant.
  assert (child_edge st' parent collection) as Hedge.
  { unfold child_edge. rewrite Hch, decide_True by done. apply elem_of_app. right. by left. }
  destruct (collection_child_remove_terminates st' parent collection Hinv' Hedge)
    as [st'' [n Hn]].
  exists st''. split; [by exists n|]. intros x.
  rewrite (collection_child_remove_structure n st' parent collection st'' x) by by apply Hn.
  rewrite (collection_child_add_structure fuel st parent collection flag true st' x Hadd).
  apply Z.eqb_eq in Hflag. rewrite Hflag.
  destruct (st !! x) as [col|] eqn:Hx; simpl; [|done]. f_equal.
  assert (parent ∉ parents_of st collection) as Hnp.
  { intros Hp. apply Hnc. by apply symmetric_parent_ref. }
  unfold structure, child_add_structure, child_remove_structure, BLI_addtail, id_us_plus, id_us_min.
  repeat case_bool_decide; simpl; subst;
    rewrite ?(children_of_lookup _ _ _ Hx) in Hnc;
    rewrite ?(parents_of_lookup _ _ _ Hx) in Hnp;
    rewrite ?BLI_findptr_id_app_last by done; simpl; rewrite ?delete_app_last;
    repeat f_equal; lia.
Qed.

End MoreLinks.

(** X4: on an acyclic graph whose child links point to collections that
    exist, [collection_find_child_recursive parent collection] returns, and
    it returns true exactly when [collection] is reachable from [parent]
    through at least one child link. *)
Theorem collection_find_child_recursive_iff st parent collection :
  children_closed st -> acyclic st -> is_Some (st !! parent) ->
  exists b,
    terminates (fun fuel => collection_find_child_recursive fuel st parent collection) b /\
    (b = true <-> tc (child_edge st) parent collection).
Proof.
  intros Hcl Hac Hp.
  destruct (collection_find_child_recursive_terminates st parent collection Hcl)
    as [b [n Hn]]; [by apply child_edge_sn | done |].
  exists b. split; [by exists n|].
  apply (collection_find_child_recursive_sound n). by apply Hn.
Qed.

Section InScene.
Context `{K : Constants}.

Lemma BKE_collection_is_in_scene_sound fuel st c b :
  BKE_collection_is_in_scene fuel st c = Some b ->
  (b = true <->
   exists a col, rtc (parent_ref st) c a /\ st !! a = Some col /\ is_master col = true).
Proof.
  revert c b. induction fuel as [|fuel IH]; intros c b Hb; simpl in Hb; [done|].
  destruct (st !! c) as [col|] eqn:Hcol; [|done]. simpl in Hb.
  destruct (is_master col) eqn:Hm.
  - injection Hb as <-. split; [|done]. intros _. exists c, col.
    split; [apply rtc_refl | done].
  - rewrite (any_m_sound
               (fun p => exists a col', rtc (parent_ref st) p a /\
                                        st !! a = Some col' /\ is_master col' = true)
               _ _ _ Hb); [|intros p b' _ Hp; by apply IH].
    rewrite Exists_exists, <- (parents_of_lookup st c col Hcol). split.
    + intros (p & Hp & a & col' & Hr & Ha & Hma). exists a, col'.
      split; [by eapply rtc_l | done].
    + intros (a & col' & Hr & Ha & Hma).
      destruct Hr as [|c p a Hp Hr]; [congruence|].
      exists p. split; [done|]. by exists a, col'.
Qed.

Lemma BKE_collection_is_in_scene_terminates st c :
  parents_closed st -> sn (parent_ref st) c -> is_Some (st !! c) ->
  exists b, terminates (fun n => BKE_collection_is_in_scene n st c) b.
Proof.
  intros Hcl Hsn. induction Hsn as [c _ IH]. intros [col Hcol].
  destruct (is_master col) eqn:Hm.
  - exists true, 1. intros [|k] ?; [lia|]. simpl. rewrite Hcol. simpl. by rewrite Hm.
  - destruct (any_m_terminates (fun n p => BKE_collection_is_in_scene n st p) (parents col))
      as [b Hb].
    { intros p Hp. rewrite <- (parents_of_lookup st c col Hcol) in Hp.
      apply IH; [done|]. by apply (Hcl c). }
    exists b. apply terminates_step in Hb. eapply terminates_ext; [|exact Hb].
    intros [|k]; simpl; [done|]. rewrite Hcol. simpl. by rewrite Hm.
Qed.

(** X5: where the parent back-references are acyclic and point to
    collections that exist, [BKE_collection_is_in_scene] returns, and it
    returns true exactly when the collection or one of its ancestors is
    flagged as a master collection. *)
Theorem BKE_collection_is_in_scene_iff st collection :
  parents_closed st -> parents_acyclic st -> is_Some (st !! collection) ->
  exists b,
    terminates (fun fuel => BKE_collection_is_in_scene fuel st collection) b /\
    (b = true <->
     exists a col, rtc (parent_ref st) collection a /\ st !! a = Some col /\
                   is_master col = true).
Proof.
  intros Hcl Hac Hc.
  destruct (BKE_collection_is_in_scene_terminates st collection Hcl)
    as [b [n Hn]]; [by apply parent_ref_sn | done |].
  exists b. split; [by exists n|].
  apply (BKE_collection_is_in_scene_sound n). by apply Hn.
Qed.

End InScene.

Lemma collection_child_add_decides_witness :
  exists ok st',
    terminates (fun fuel => collection_child_add (K := blender_constants) fuel
                              two_collections 0 1 0 true) (ok, st') /\
    (ok = true <->
     ~ child_edge two_collections 0 1 /\ ~ rtc (child_edge two_collections) 1 0) /\
    (ok = false -> st' = two_collections).
Proof.
  apply (collection_child_add_decides (K := blender_constants)).
  - apply two_collections_invariant.
  - eexists. by vm_compute.
  - eexists. by vm_compute.
Defined.

Lemma collection_child_remove_decides_witness :
  exists ok st',
    terminates (fun fuel => collection_child_remove (K := blender_constants) fuel
                              parent_and_child 0 1) (ok, st') /\
    (ok = true <-> child_edge parent_and_child 0 1) /\
    (ok = false -> st' = parent_and_child).
Proof.
  apply (collection_child_remove_decides (K := blender_constants)).
  - apply parent_and_child_invariant.
  - eexists. by vm_compute.
Defined.

Lemma collection_child_add_remove_witness :
  exists st'',
    terminates (fun fuel' => collection_child_remove (K := blender_constants) fuel'
                               parent_and_child 0 1) (true, st'') /\
    same_structure two_collections st''.
Proof.
  apply (collection_child_add_remove (K := blender_constants) two_collections 0 1 0
           parent_and_child 2).
  - apply two_collections_invariant.
  - done.
  - by vm_compute.
Defined.

Lemma collection_find_child_recursive_iff_witness :
  exists b,
    terminates (fun fuel => collection_find_child_recursive fuel scenario 0 3) b /\
    (b = true <-> tc (child_edge scenario) 0 3).
Proof.
  apply collection_find_child_recursive_iff.
  - apply graph_invariant_children_closed, scenario_invariant.
  - apply inv_acyclic, scenario_invariant.
  - eexists. by vm_compute.
Defined.

Lemma BKE_collection_is_in_scene_iff_witness :
  exists b,
    terminates (fun fuel => BKE_collection_is_in_scene (K := blender_constants) fuel
                              scenario 3) b /\
    (b = true <->
     exists a col, rtc (parent_ref scenario) 3 a /\ scenario !! a = Some col /\
                   is_master (K := blender_constants) col = true).
Proof.
  apply (BKE_collection_is_in_scene_iff (K := blender_constants)).
  - apply graph_invariant_parents_closed, scenario_invariant.
  - apply graph_invariant_parents_acyclic, scenario_invariant.
  - eexists. by vm_compute.
Defined.

Lemma collection_object_add_refuses_witness :
  exists ok bmain1,
    terminates (fun fuel => collection_object_add (K := blender_constants) fuel
                              child_instance 0 7 0 true) (ok, bmain1) /\
    (ok = false <->
     (exists g, dup_group (mkObject 1 (Some 1)) = Some g /\
                tc (child_edge (collections child_instance)) 0 g) \/
     7 ∈ gobject_of (collections child_instance) 0) /\
    (ok = false -> bmain1 = child_instance).
Proof.
  apply (collection_object_add_refuses (K := blender_constants) child_instance 0 7 0 true).
  - apply parent_and_child_invariant.
  - by vm_compute.
  - eexists. by vm_compute.
Defined.

(** ** Members of a collection *)

Lemma same_structure_lookup (st st' : gmap nat Collection) x col :
  same_structure st st' -> st !! x = Some col ->
  exists col', st' !! x = Some col' /\ structure col' = structure col.
Proof.
  intros H Hx. specialize (H x). rewrite Hx in H. simpl in H.
  destruct (st' !! x) as [col'|]; [|done]. exists col'. split; [done|].
  simpl in H. congruence.
Qed.

Lemma structure_gobject_of (st st' : gmap nat Collection) x f :
  structure <$> st' !! x = f <$> (structure <$> st !! x) ->
  gobject_of st' x = from_option (fun s => (f s).1.1.2) [] (structure <$> st !! x).
Proof.
  unfold gobject_of. intros H.
  destruct (st !! x) as [col|], (st' !! x) as [col'|]; simpl in *; try done.
  injection H as H. by rewrite <- H.
Qed.

Section Members.
Context `{K : Constants}.

Lemma collection_object_add_structure fuel bmain collection ob flag add_us bmain' x :
  collection_object_add fuel bmain collection ob flag add_us = Some (true, bmain') ->
  structure <$> collections bmain' !! x =
  object_add_structure collection ob x <$> (structure <$> collections bmain !! x).
Proof.
  unfold collection_object_add. intros Hr.
  destruct (objects bmain !! ob) as [o|]; [|done]. simpl in Hr.
  destruct (match dup_group o with Some _ => _ | None => _ end) as [[]|]; simpl in Hr;
    try done.
  destruct (collections bmain !! collection) as [col|] eqn:Hcol; [|done]. simpl in Hr.
  destruct (BLI_findptr id (gobject col) ob); [done|].
  destruct (BKE_collection_object_cache_free _ _ _) as [st2|] eqn:Hfree; [|done].
  simpl in Hr. injection Hr as <-. simpl.
  apply collection_object_cache_free_structure in Hfree. rewrite <- (Hfree x).
  rewrite lookup_insert. destruct (decide (collection = x)) as [<-|Hne].
  - rewrite Hcol. simpl. by rewrite bool_decide_eq_true_2.
  - destruct (collections bmain !! x) as [colx|]; simpl; [|done].
    by rewrite bool_decide_eq_false_2.
Qed.

Lemma collection_object_add_not_member fuel bmain collection ob flag add_us bmain' :
  collection_object_add fuel bmain collection ob flag add_us = Some (true, bmain') ->
  ob ∉ gobject_of (collections bmain) collection.
Proof.
  unfold collection_object_add. intros Hr.
  destruct (objects bmain !! ob) as [o|]; [|done]. simpl in Hr.
  destruct (match dup_group o with Some _ => _ | None => _ end) as [[]|]; simpl in Hr;
    try done.
  destruct (collections bmain !! collection) as [col|] eqn:Hcol; [|done]. simpl in Hr.
  rewrite (gobject_of_lookup _ _ _ Hcol).
  destruct (BLI_findptr id (gobject col) ob) eqn:Hf; [done|].
  by apply BLI_findptr_id_None.
Qed.

Lemma collection_object_remove_structure fuel bmain collection ob free_us bmain' x :
  collection_object_remove fuel bmain collection ob free_us = Some (true, bmain') ->
  structure <$> collections bmain' !! x =
  object_remove_structure collection ob x <$> (structure <$> collections bmain !! x).
Proof.
  unfold collection_object_remove. intros Hr.
  destruct (collections bmain !! collection) as [col|] eqn:Hcol; [|done]. simpl in Hr.
  destruct (BLI_findptr id (gobject col) ob) as [i|] eqn:Hf; [|done].
  destruct (BKE_collection_object_cache_free _ _ _) as [st2|] eqn:Hfree; [|done].
  simpl in Hr.
  assert (collections bmain' = st2) as ->.
  { destruct free_us.
    - injection Hr as <-. by rewrite BKE_libblock_free_us_collections.
    - destruct (objects bmain !! ob); simpl in Hr; [|done]. by injection Hr as <-. }
  apply collection_object_cache_free_structure in Hfree. rewrite <- (Hfree x).
  rewrite lookup_insert. destruct (decide (collection = x)) as [<-|Hne].
  - rewrite Hcol. simpl. rewrite bool_decide_eq_true_2 by done. by rewrite Hf.
  - destruct (collections bmain !! x) as [colx|]; simpl; [|done].
    by rewrite bool_decide_eq_false_2.
Qed.

Lemma collection_object_add_gobject fuel bmain collection ob flag add_us bmain' x :
  collection_object_add fuel bmain collection ob flag add_us = Some (true, bmain') ->
  gobject_of (collections bmain') x =
  gobject_of (collections bmain) x ++ (if decide (x = collection) then [ob] else []).
Proof.
  intros Hr. rewrite (structure_gobject_of _ _ _ _ (collection_object_add_structure _ _ _ _ _ _ _ x Hr)).
  unfold gobject_of. destruct (collections bmain !! x) as [col|] eqn:Hx; simpl.
  - destruct col; simpl. unfold BLI_addtail.
    destruct (decide (x = collection));
      [by rewrite bool_decide_eq_true_2 | by rewrite bool_decide_eq_false_2, app_nil_r].
  - case_decide; [|done]. subst x.
    unfold collection_object_add in Hr.
    destruct (objects bmain !! ob) as [o|]; [|done]. simpl in Hr.
    destruct (match dup_group o with Some _ => _ | None => _ end) as [[]|]; simpl in Hr;
      try done.
    by rewrite Hx in Hr.
Qed.

(** X7: [collection_object_add] never creates a second member link for an
    object: where every collection lists each member once, it still does
    after the call, whether the call succeeded or not. *)
Theorem collection_object_add_NoDup fuel bmain collection ob flag add_us ok bmain' :
  (forall x, NoDup (gobject_of (collections bmain) x)) ->
  collection_object_add fuel bmain collection ob flag add_us = Some (ok, bmain') ->
  forall x, NoDup (gobject_of (collections bmain') x).
Proof.
  intros Hnd Hr x. destruct ok.
  - rewrite (collection_object_add_gobject _ _ _ _ _ _ _ x Hr).
    case_decide; [|by rewrite app_nil_r]. subst x.
    apply NoDup_app. split; [done|]. split; [|apply NoDup_singleton].
    intros y Hy ->%list_elem_of_singleton.
    by apply (collection_object_add_not_member _ _ _ _ _ _ _ Hr).
  - by rewrite (collection_object_add_false _ _ _ _ _ _ _ Hr).
Qed.


Lemma collection_object_remove_gobject fuel bmain collection ob free_us bmain' x :
  collection_object_remove fuel bmain collection ob free_us = Some (true, bmain') ->
  gobject_of (collections bmain') x =
  if decide (x = collection)
  then BLI_freelinkN (gobject_of (collections bmain) x)
                     (BLI_findptr id (gobject_of (collections bmain) x) ob)
  else gobject_of (collections bmain) x.
Proof.
  intros Hr.
  rewrite (structure_gobject_of _ _ _ _ (collection_object_remove_structure _ _ _ _ _ _ x Hr)).
  unfold gobject_of. destruct (collections bmain !! x) as [col|] eqn:Hx; simpl.
  - destruct col; simpl.
    destruct (decide (x = collection));
      [by rewrite bool_decide_eq_true_2 | by rewrite bool_decide_eq_false_2].
  - by case_decide.
Qed.

Lemma collection_object_remove_member fuel bmain collection ob free_us bmain' :
  collection_object_remove fuel bmain collection ob free_us = Some (true, bmain') ->
  ob ∈ gobject_of (collections bmain) collection.
Proof.
  unfold collection_object_remove. intros Hr.
  destruct (collections bmain !! collection) as [col|] eqn:Hcol; [|done]. simpl in Hr.
  rewrite (gobject_of_lookup _ _ _ Hcol).
  destruct (BLI_findptr id (gobject col) ob) as [i|] eqn:Hf; [|done].
  eapply list_elem_of_lookup_2. by apply BLI_findptr_id_Some.
Qed.

End Members.

Lemma BKE_collection_has_object_spec st collection ob col :
  st !! collection = Some col ->
  BKE_collection_has_object st (Some collection) (Some ob) =
  Some (bool_decide (ob ∈ gobject_of st collection)).
Proof.
  intros Hcol. unfold BKE_collection_has_object. rewrite Hcol. simpl. f_equal.
  rewrite (gobject_of_lookup _ _ _ Hcol). apply bool_decide_ext. split.
  - intros [i Hi]. eapply list_elem_of_lookup_2. by apply BLI_findptr_id_Some.
  - apply BLI_findptr_id_elem_of.
Qed.

Lemma BKE_collection_has_object_ext st st' collection ob :
  (is_Some (st !! collection) <-> is_Some (st' !! collection)) ->
  (ob ∈ gobject_of st collection <-> ob ∈ gobject_of st' collection) ->
  BKE_collection_has_object st (Some collection) (Some ob) =
  BKE_collection_has_object st' (Some collection) (Some ob).
Proof.
  intros Hdom Hmem.
  destruct (st !! collection) as [col|] eqn:Hc.
  - destruct (proj1 Hdom (ex_intro _ col eq_refl)) as [col' Hc'].
    rewrite (BKE_collection_has_object_spec st collection ob col Hc).
    rewrite (BKE_collection_has_object_spec st' collection ob col' Hc').
    f_equal. by apply bool_decide_ext.
  - destruct (st' !! collection) as [col'|] eqn:Hc'.
    + destruct (proj2 Hdom (ex_intro _ col' eq_refl)) as [? ?]. done.
    + unfold BKE_collection_has_object. by rewrite Hc, Hc'.
Qed.

Lemma structure_is_Some (st st' : gmap nat Collection) x f :
  structure <$> st' !! x = f <$> (structure <$> st !! x) ->
  is_Some (st !! x) <-> is_Some (st' !! x).
Proof.
  intros H. destruct (st !! x), (st' !! x); simpl in *; try done.
  all: split; intros [? ?]; done.
Qed.

Lemma delete_first_NoDup (l : list nat) x i :
  NoDup l -> l !! i = Some x -> x ∉ delete i l.
Proof.
  intros Hnd Hi Hx. apply links_to_pos in Hx.
  pose proof (links_to_delete_eq x l i Hi).
  assert (links_to x l <= 1); [|lia].
  clear -Hnd. induction Hnd as [|y l Hy _ IH]; [rewrite links_to_nil; lia|].
  rewrite links_to_cons. case_decide; [|lia]. subst y.
  rewrite links_to_pos in Hy. lia.
Qed.

Lemma elem_of_delete_ne (l : list nat) x y i :
  l !! i = Some y -> x <> y -> x ∈ delete i l <-> x ∈ l.
Proof.
  intros Hi Hne. rewrite !links_to_pos. by rewrite (links_to_delete_ne x y l i Hi Hne).
Qed.

Section Membership.
Context `{K : Constants}.

(** X8: a successful [collection_object_add] turns the answer of
    [BKE_collection_has_object] for that collection and object from false to
    true and changes the answer for no other collection or object. *)
Theorem collection_object_add_has_object fuel bmain collection ob flag add_us bmain' :
  collection_object_add fuel bmain collection ob flag add_us = Some (true, bmain') ->
  BKE_collection_has_object (collections bmain) (Some collection) (Some ob) = Some false /\
  BKE_collection_has_object (collections bmain') (Some collection) (Some ob) = Some true /\
  forall c ob', (c, ob') <> (collection, ob) ->
    BKE_collection_has_object (collections bmain') (Some c) (Some ob') =
    BKE_collection_has_object (collections bmain) (Some c) (Some ob').
Proof.
  intros Hr.
  pose proof (collection_object_add_not_member _ _ _ _ _ _ _ Hr) as Hnot.
  pose proof (fun x => collection_object_add_gobject _ _ _ _ _ _ _ x Hr) as Hgob.
  pose proof (fun x => structure_is_Some _ _ x _
                         (collection_object_add_structure _ _ _ _ _ _ _ x Hr)) as Hdom.
  assert (is_Some (collections bmain' !! collection)) as [col' Hcol'].
  { destruct (collections bmain' !! collection) as [col'|] eqn:Hc'; [eauto|].
    pose proof (Hgob collection) as Hg. unfold gobject_of in Hg at 1.
    rewrite Hc', decide_True in Hg by done. simpl in Hg. by destruct (gobject_of _ _). }
  destruct (proj2 (Hdom collection) (ex_intro _ col' Hcol')) as [col Hcol].
  split; [|split].
  - rewrite (BKE_collection_has_object_spec _ _ _ col Hcol). by rewrite bool_decide_eq_false_2.
  - rewrite (BKE_collection_has_object_spec _ _ _ col' Hcol'). rewrite bool_decide_eq_true_2; [done|].
    rewrite Hgob, decide_True by done. apply elem_of_app. right. by left.
  - intros c ob' Hne. apply BKE_collection_has_object_ext; [symmetry; apply Hdom|].
    rewrite Hgob. case_decide; [|by rewrite app_nil_r]. subst c.
    rewrite elem_of_app, list_elem_of_singleton. split; [|by left].
    intros [?| ->]; [done | congruence].
Qed.

(** X9: where the collection lists each member once, a successful
    [collection_object_remove] turns the answer of [BKE_collection_has_object]
    for that collection and object from true to false and changes the answer
    for no other collection or object. *)
Theorem collection_object_remove_has_object fuel bmain collection ob free_us bmain' :
  NoDup (gobject_of (collections bmain) collection) ->
  collection_object_remove fuel bmain collection ob free_us = Some (true, bmain') ->
  BKE_collection_has_object (collections bmain) (Some collection) (Some ob) = Some true /\
  BKE_collection_has_object (collections bmain') (Some collection) (Some ob) = Some false /\
  forall c ob', (c, ob') <> (collection, ob) ->
    BKE_collection_has_object (collections bmain') (Some c) (Some ob') =
    BKE_collection_has_object (collections bmain) (Some c) (Some ob').
Proof.
  intros Hnd Hr.
  pose proof (collection_object_remove_member _ _ _ _ _ _ Hr) as Hmem.
  pose proof (fun x => collection_object_remove_gobject _ _ _ _ _ _ x Hr) as Hgob.
  pose proof (fun x => structure_is_Some _ _ x _
                         (collection_object_remove_structure _ _ _ _ _ _ x Hr)) as Hdom.
  assert (is_Some (collections bmain !! collection)) as [col Hcol].
  { unfold gobject_of in Hmem. destruct (collections bmain !! collection); [eauto|].
    by apply not_elem_of_nil in Hmem. }
  destruct (proj1 (Hdom collection) (ex_intro _ col Hcol)) as [col' Hcol'].
  destruct (BLI_findptr_id_elem_of _ _ Hmem) as [i Hi].
  pose proof (BLI_findptr_id_Some _ _ _ Hi) as Hi'.
  split; [|split].
  - rewrite (BKE_collection_has_object_spec _ _ _ col Hcol). by rewrite bool_decide_eq_true_2.
  - rewrite (BKE_collection_has_object_spec _ _ _ col' Hcol').
    rewrite bool_decide_eq_false_2; [done|].
    rewrite Hgob, decide_True, Hi by done. simpl. by apply delete_first_NoDup.
  - intros c ob' Hne. apply BKE_collection_has_object_ext; [symmetry; apply Hdom|].
    rewrite Hgob. case_decide; [|done]. subst c. rewrite Hi. simpl.
    apply (elem_of_delete_ne _ _ ob i Hi'). congruence.
Qed.

End Membership.

Section MemberRoundTrip.
Context `{K : Constants}.

Lemma collection_object_add_objects fuel bmain collection ob flag add_us bmain' :
  collection_object_add fuel bmain collection ob flag add_us = Some (true, bmain') ->
  exists o,
    objects bmain !! ob = Some o /\
    objects bmain' =
      (if add_us && (Z.land flag LIB_ID_CREATE_NO_USER_REFCOUNT =? 0)%Z
       then <[ob := mkObject (id_us_plus (ob_us o)) (dup_group o)]> (objects bmain)
       else objects bmain) /\
    sync_requests bmain' = sync_requests bmain.
Proof.
  unfold collection_object_add. intros Hr.
  destruct (objects bmain !! ob) as [o|]; [|done]. simpl in Hr. exists o. split; [done|].
  destruct (match dup_group o with Some _ => _ | None => _ end) as [[]|]; simpl in Hr;
    try done.
  destruct (collections bmain !! collection) as [col|] eqn:Hcol; [|done]. simpl in Hr.
  destruct (BLI_findptr id (gobject col) ob); [done|].
  destruct (BKE_collection_object_cache_free _ _ _) as [st2|] eqn:Hfree; [|done].
  simpl in Hr. by injection Hr as <-.
Qed.

Lemma collection_object_remove_terminates bmain collection ob o :
  graph_invariant (collections bmain) ->
  objects bmain !! ob = Some o ->
  ob ∈ gobject_of (collections bmain) collection ->
  exists st2,
    terminates (fun fuel => collection_object_remove fuel bmain collection ob false)
      (true, mkMain st2 (<[ob := mkObject (id_us_min (ob_us o)) (dup_group o)]> (objects bmain))
                    (sync_requests bmain)).
Proof.
  intros Hinv Ho Hmem. set (st := collections bmain) in *.
  assert (is_Some (st !! collection)) as [col Hcol].
  { unfold gobject_of in Hmem. destruct (st !! collection); [eauto|].
    by apply not_elem_of_nil in Hmem. }
  rewrite (gobject_of_lookup _ _ _ Hcol) in *.
  destruct (BLI_findptr_id_elem_of _ _ Hmem) as [cob Hcob].
  set (st1 := <[collection := set_gobject col (delete cob (gobject col))]> st).
  assert (same_links st st1) as H01 by by eapply same_links_insert.
  assert (graph_invariant st1) as Hinv1 by by eapply same_links_invariant.
  destruct (collection_object_cache_free_terminates st1 collection) with (st := st1)
    as (st2 & [n Hn] & H12).
  { by apply graph_invariant_parents_closed. }
  { by apply parent_ref_sn;
      [apply graph_invariant_parents_closed | apply graph_invariant_parents_acyclic]. }
  { apply same_structure_refl. }
  { unfold st1. rewrite lookup_insert_eq. eauto. }
  exists st2, n. intros fuel Hfuel. unfold collection_object_remove. fold st.
  rewrite Hcol. simpl. rewrite Hcob. simpl. fold st1.
  unfold BKE_collection_object_cache_free. rewrite (Hn fuel Hfuel). simpl. by rewrite Ho.
Qed.

(** X10: a [collection_object_remove] (without release) that follows a
    successful [collection_object_add] (which counted the user) of the same
    object succeeds and restores the structure of every collection, the
    object table with its user counts, and the count of sync requests. *)
Theorem collection_object_add_remove fuel bmain collection ob flag bmain' :
  graph_invariant (collections bmain) ->
  Z.land flag LIB_ID_CREATE_NO_USER_REFCOUNT = 0%Z ->
  collection_object_add fuel bmain collection ob flag true = Some (true, bmain') ->
  exists bmain'',
    terminates (fun fuel' => collection_object_remove fuel' bmain' collection ob false)
               (true, bmain'') /\
    same_structure (collections bmain) (collections bmain'') /\
    objects bmain'' = objects bmain /\
    sync_requests bmain'' = sync_requests bmain.
Proof.
  intros Hinv Hflag Hadd.
  destruct (collection_object_add_objects _ _ _ _ _ _ _ Hadd) as (o & Ho & Hobs & Hsync).
  apply Z.eqb_eq in Hflag. rewrite Hflag in Hobs. simpl in Hobs.
  pose proof (fun x => collection_object_add_structure _ _ _ _ _ _ _ x Hadd) as Hstr.
  pose proof (collection_object_add_not_member _ _ _ _ _ _ _ Hadd) as Hnot.
  assert (same_links (collections bmain) (collections bmain')) as Hlinks.
  { intros x. specialize (Hstr x). unfold children_of, parents_of.
    destruct (collections bmain !! x) as [[]|], (collections bmain' !! x) as [[]|];
      simpl in *; try done.
    unfold structure in Hstr. simpl in Hstr. injection Hstr as -> _ -> ->.
    split; [done|]. split; [done|]. split; eauto. }
  assert (graph_invariant (collections bmain')) as Hinv' by by eapply same_links_invariant.
  destruct (collection_object_remove_terminates bmain' collection ob
              (mkObject (id_us_plus (ob_us o)) (dup_group o)) Hinv') as [st2 Hrem].
  { by rewrite Hobs, lookup_insert_eq. }
  { rewrite (collection_object_add_gobject _ _ _ _ _ _ _ collection Hadd), decide_True by done.
    apply elem_of_app. right. by left. }
  eexists. split; [exact Hrem|]. simpl. destruct Hrem as [n Hn].
  pose proof (fun x => collection_object_remove_structure _ _ _ _ _ _ x (Hn n (le_n _)))
    as Hstr'. simpl in Hstr'.
  split; [|split; [|done]].
  - intros x. rewrite Hstr', Hstr.
    destruct (collections bmain !! x) as [col|] eqn:Hx; simpl; [|done]. f_equal.
    unfold structure, object_add_structure, object_remove_structure, BLI_addtail.
    case_bool_decide; [|done]. subst x.
    rewrite (gobject_of_lookup _ _ _ Hx) in Hnot.
    rewrite BLI_findptr_id_app_last by done. simpl. by rewrite delete_app_last.
  - rewrite Hobs, insert_insert_eq. apply insert_id. rewrite Ho. f_equal.
    destruct o as [us dg]. simpl. unfold id_us_min, id_us_plus. f_equal. lia.
Qed.

End MemberRoundTrip.

Lemma gobject_of_NoDup_check st :
  map_Forall (fun _ col => NoDup (gobject col)) st -> forall x, NoDup (gobject_of st x).
Proof.
  intros H x. unfold gobject_of. destruct (st !! x) as [col|] eqn:Hx; simpl.
  - by apply (H x col).
  - constructor.
Qed.

Lemma collection_object_add_NoDup_witness :
  NoDup (gobject_of {[ 0 := mkCollection 0 0 [7] [] [] [] ]} 0).
Proof.
  refine (collection_object_add_NoDup (K := blender_constants) 2 self_instance 0 7 0 true true
           (mkMain {[ 0 := mkCollection 0 0 [7] [] [] [] ]} {[ 7 := mkObject 2 (Some 0) ]} 0)
           _ _ 0).
  - apply gobject_of_NoDup_check. by_evaluation.
  - by vm_compute.
Defined.

Lemma collection_object_add_has_object_witness :
  BKE_collection_has_object (collections self_instance) (Some 0) (Some 7) = Some false /\
  BKE_collection_has_object {[ 0 := mkCollection 0 0 [7] [] [] [] ]} (Some 0) (Some 7)
    = Some true /\
  forall c ob', (c, ob') <> (0, 7) ->
    BKE_collection_has_object {[ 0 := mkCollection 0 0 [7] [] [] [] ]} (Some c) (Some ob') =
    BKE_collection_has_object (collections self_instance) (Some c) (Some ob').
Proof.
  refine (collection_object_add_has_object (K := blender_constants) 2 self_instance 0 7 0 true
           (mkMain {[ 0 := mkCollection 0 0 [7] [] [] [] ]} {[ 7 := mkObject 2 (Some 0) ]} 0)
           _).
  by vm_compute.
Defined.

Lemma collection_object_remove_has_object_witness :
  exists bmain',
    collection_object_remove (K := blender_constants) 2 shared_object 1 5 false
      = Some (true, bmain') /\
    BKE_collection_has_object (collections shared_object) (Some 1) (Some 5) = Some true /\
    BKE_collection_has_object (collections bmain') (Some 1) (Some 5) = Some false /\
    forall c ob', (c, ob') <> (1, 5) ->
      BKE_collection_has_object (collections bmain') (Some c) (Some ob') =
      BKE_collection_has_object (collections shared_object) (Some c) (Some ob').
Proof.
  eexists. split; [vm_compute; reflexivity|].
  apply (collection_object_remove_has_object (K := blender_constants) 2 shared_object 1 5 false).
  - apply gobject_of_NoDup_check. by_evaluation.
  - by vm_compute.
Defined.

Lemma collection_object_add_remove_witness :
  exists bmain'',
    terminates (fun fuel' => collection_object_remove (K := blender_constants) fuel'
                  (mkMain {[ 0 := mkCollection 0 0 [7] [] [] [] ]}
                          {[ 7 := mkObject 2 (Some 0) ]} 0) 0 7 false)
               (true, bmain'') /\
    same_structure (collections self_instance) (collections bmain'') /\
    objects bmain'' = objects self_instance /\
    sync_requests bmain'' = sync_requests self_instance.
Proof.
  apply (collection_object_add_remove (K := blender_constants) 2 self_instance 0 7 0).
  - apply (check_graph_invariant id). by_evaluation.
  - done.
  - by vm_compute.
Defined.

(** ** The object caches *)

(** ** Filling a cache *)

Lemma lor_land_nonzero a b m : Z.land a m <> 0%Z -> Z.land (Z.lor b a) m <> 0%Z.
Proof.
  intros Ha. rewrite Z.land_lor_distr_l. intros [_ H]%Z.lor_eq_0_iff. done.
Qed.

Section Fill.
Context `{K : Constants}.

Lemma cache_add_object_NoDup r lb ob :
  NoDup (object <$> lb) -> NoDup (object <$> cache_add_object r lb ob).
Proof.
  intros Hnd. unfold cache_add_object.
  destruct (BLI_findptr object lb ob) eqn:Hf; [done|].
  unfold BLI_addtail. rewrite fmap_app. apply NoDup_app. split; [done|].
  split; [|apply NoDup_singleton]. intros o Ho ->%list_elem_of_singleton.
  by apply BLI_findptr_None in Hf.
Qed.

Lemma collection_object_cache_fill_NoDup fuel st lb c r lb' :
  collection_object_cache_fill fuel st lb c r = Some lb' ->
  NoDup (object <$> lb) -> NoDup (object <$> lb').
Proof.
  revert lb c r lb'. induction fuel as [|fuel IH]; intros lb c r lb' Hr Hnd; simpl in Hr; [done|].
  destruct (st !! c) as [col|]; [|done]. simpl in Hr.
  eapply (for_each_sound (fun l => NoDup (object <$> l))); [exact Hr| |].
  - intros s child s' _ Hs Hfill. simpl in *. eapply IH; [exact Hfill | exact Hs].
  - clear Hr. revert lb Hnd.
    induction (gobject col) as [|ob l IHl]; intros lb Hnd; simpl; [done|].
    apply IHl. by apply cache_add_object_NoDup.
Qed.

(** Bases are only appended, and with the flags of a restriction that
    contains the restriction handed down. *)
Lemma collection_object_cache_fill_flags (P : Z -> Prop) fuel st lb c r lb' :
  (forall r1 r2, P r1 -> P (Z.lor r2 r1)) ->
  collection_object_cache_fill fuel st lb c r = Some lb' ->
  (forall col, st !! c = Some col -> P (Z.lor (flag col) r)) ->
  exists new, lb' = lb ++ new /\
              Forall (fun b => exists r', P r' /\ base_flag b = base_flags r') new.
Proof.
  intros HP. revert lb c r lb'.
  induction fuel as [|fuel IH]; intros lb c r lb' Hr Hr0; simpl in Hr; [done|].
  destruct (st !! c) as [col|]; [|done]. simpl in Hr.
  specialize (Hr0 col eq_refl).
  revert Hr. generalize (Z.lor (flag col) r) Hr0. clear Hr0. intros r1 Hr1 Hr.
  assert (exists new1, foldl (cache_add_object r1) lb (gobject col) = lb ++ new1 /\
            Forall (fun b => exists r', P r' /\ base_flag b = base_flags r') new1)
    as (new1 & Heq1 & Hnew1).
  { clear Hr. revert lb.
    induction (gobject col) as [|ob l IHl]; intros lb; simpl.
    - exists []. by rewrite app_nil_r.
    - destruct (IHl (cache_add_object r1 lb ob)) as (new & -> & Hnew).
      unfold cache_add_object. destruct (BLI_findptr object lb ob); [by exists new|].
      unfold BLI_addtail. exists (mkBase ob (base_flags r1) :: new).
      rewrite <- app_assoc. split; [done|]. constructor; [|done]. by exists r1. }
  rewrite Heq1 in Hr. clear Heq1. revert Hr. generalize (children col). intros l.
  revert new1 Hnew1. induction l as [|child l IHl]; intros new1 Hnew1 Hr; simpl in Hr.
  - injection Hr as <-. by exists new1.
  - destruct (collection_object_cache_fill fuel st (lb ++ new1) child r1) as [lb2|] eqn:Hfill;
      [|done]. simpl in Hr.
    destruct (IH _ _ _ _ Hfill) as (new2 & -> & Hnew2); [intros; by apply HP|].
    rewrite <- app_assoc in Hr. apply (IHl (new1 ++ new2)); [|done].
    by apply Forall_app.
Qed.

(** X11: on an acyclic graph whose child links point to collections that
    exist, [BKE_collection_object_cache_get] on a collection whose cache is
    cleared returns a list that holds every object that is a member of the
    collection or of one of its descendants, each exactly once, and no other
    object. *)
Theorem BKE_collection_object_cache_get_fresh st collection :
  children_closed st -> acyclic st -> cache_cleared st collection ->
  exists st1 lb,
    terminates (fun fuel => BKE_collection_object_cache_get fuel st collection) (st1, lb) /\
    NoDup (object <$> lb) /\
    forall o, o ∈ object <$> lb <-> reachable_member st collection o.
Proof.
  intros Hcl Hac (col & Hcol & Hhas & Hcache).
  destruct (collection_object_cache_fill_terminates st collection Hcl
              (child_edge_sn st collection Hcl Hac) (ex_intro _ col Hcol)
              [] 0%Z) as [lb [n Hn]].
  eexists _, lb. split; [|split].
  - exists n. intros fuel Hfuel. unfold BKE_collection_object_cache_get.
    rewrite Hcol. simpl. rewrite Hhas. simpl. rewrite Hcache, (Hn fuel Hfuel). done.
  - eapply collection_object_cache_fill_NoDup; [by apply (Hn n)|]. constructor.
  - intros o. rewrite (collection_object_cache_fill_objects n st [] collection 0 lb o)
      by by apply Hn.
    simpl. rewrite elem_of_nil. unfold reachable_member. tauto.
Qed.

(** X12: a collection that is hidden in the viewport hides what is below
    it: when [BKE_collection_object_cache_get] builds the cache of a
    collection whose flag has COLLECTION_RESTRICT_VIEW set, every base of the
    list, also those of the members of descendants, has no flag at all or
    the single flag BASE_VISIBLE_RENDER. *)
Theorem BKE_collection_object_cache_get_restrict_view st collection col fuel st1 lb :
  st !! collection = Some col ->
  has_object_cache col = false -> object_cache col = [] ->
  Z.land (flag col) COLLECTION_RESTRICT_VIEW <> 0%Z ->
  BKE_collection_object_cache_get fuel st collection = Some (st1, lb) ->
  Forall (fun b => base_flag b = 0%Z \/ base_flag b = BASE_VISIBLE_RENDER) lb.
Proof.
  intros Hcol Hhas Hcache Hview Hget. unfold BKE_collection_object_cache_get in Hget.
  rewrite Hcol in Hget. simpl in Hget. rewrite Hhas, Hcache in Hget. simpl in Hget.
  destruct (collection_object_cache_fill fuel st [] collection 0) as [lb'|] eqn:Hfill; [|done].
  simpl in Hget. injection Hget as _ <-.
  destruct (collection_object_cache_fill_flags
              (fun r => Z.land r COLLECTION_RESTRICT_VIEW <> 0%Z) _ _ _ _ _ _
              (fun r1 r2 => lor_land_nonzero r1 r2 _) Hfill) as (new & -> & Hnew).
  { intros col' Hcol'. rewrite Hcol in Hcol'. injection Hcol' as <-. simpl. by rewrite Z.lor_0_r. }
  simpl. eapply Forall_impl; [exact Hnew|]. intros b (r' & Hr' & ->). unfold base_flags.
  apply Z.eqb_neq in Hr'. rewrite Hr'.
  destruct (Z.land r' COLLECTION_RESTRICT_RENDER =? 0)%Z; [right; apply Z.lor_0_l | by left].
Qed.

End Fill.

(** ** Coherence of the caches *)

Lemma same_structure_sym st st' : same_structure st st' -> same_structure st' st.
Proof. intros H c. symmetry. apply H. Qed.

(** Reachability below [c] only reads the collections below [c]. *)
Lemma reachable_member_agree st st' c :
  (forall x, rtc (child_edge st) c x ->
             children_of st' x = children_of st x /\ gobject_of st' x = gobject_of st x) ->
  forall o, reachable_member st c o <-> reachable_member st' c o.
Proof.
  intros H.
  assert (forall x, rtc (child_edge st) c x <-> rtc (child_edge st') c x) as Hrtc.
  { intros x. split; revert x.
    - apply (rtc_ind_r (fun x => rtc (child_edge st') c x)); [apply rtc_refl|].
      intros x y Hr Hxy IH. eapply rtc_r; [exact IH|].
      unfold child_edge. by rewrite (proj1 (H x Hr)).
    - apply (rtc_ind_r (fun x => rtc (child_edge st) c x)); [apply rtc_refl|].
      intros x y Hr Hxy IH. eapply rtc_r; [exact IH|].
      unfold child_edge. by rewrite <- (proj1 (H x IH)). }
  intros o. unfold reachable_member. split; intros (c' & Hr & Ho).
  - exists c'. split; [by apply Hrtc|]. by rewrite (proj2 (H c' Hr)).
  - apply Hrtc in Hr. exists c'. split; [done|]. by rewrite <- (proj2 (H c' Hr)).
Qed.

Lemma same_structure_reachable_member st st' c o :
  same_structure st st' -> reachable_member st c o <-> reachable_member st' c o.
Proof.
  intros H. apply reachable_member_agree. intros x _.
  by rewrite (same_structure_children st st' x H), (same_structure_gobject st st' x H).
Qed.

Section CacheFrame.
Context `{K : Constants}.

Lemma cache_part_has_object_cache col col' :
  cache_part col = cache_part col' ->
  has_object_cache col = has_object_cache col' /\ object_cache col = object_cache col'.
Proof. unfold cache_part, has_object_cache. intros [= -> ->]. done. Qed.

(** [collection_object_cache_free] clears a collection or leaves it as it is. *)
Lemma collection_object_cache_free_frame fuel st c st' x :
  collection_object_cache_free fuel st c = Some st' ->
  st' !! x = st !! x \/ cache_cleared st' x.
Proof.
  revert st c st'. induction fuel as [|fuel IH]; intros st c st' Hr; simpl in Hr; [done|].
  destruct (st !! c) as [col|] eqn:Hc; [|done]. simpl in Hr.
  eapply (for_each_sound (fun s => s !! x = st !! x \/ cache_cleared s x)); [exact Hr| |].
  - intros s p s' _ Hs Hp. simpl in *. destruct (IH _ _ _ Hp) as [Heq|Hcl]; [|by right].
    destruct Hs as [Hs|Hs]; [left; congruence|]. right.
    destruct Hs as (colx & Hcolx & Hrest). exists colx. split; [congruence | done].
  - simpl. destruct (decide (x = c)) as [->|Hne]; [right; apply cache_cleared_insert|].
    left. by rewrite lookup_insert_ne.
Qed.

(** An edit that changes the links and members of [m] alone and then frees
    the cache of [m] keeps the caches coherent. *)
Lemma cache_coherent_free st st3 fuel m st' :
  cache_coherent st -> symmetric st' ->
  (forall x, cache_part <$> st3 !! x = cache_part <$> st !! x) ->
  (forall x, x <> m ->
             children_of st' x = children_of st x /\ gobject_of st' x = gobject_of st x) ->
  collection_object_cache_free fuel st3 m = Some st' ->
  cache_coherent st'.
Proof.
  intros Hcoh Hsym Hpart Hdiff Hfree c col' Hc.
  assert (cache_cleared st' c \/
          exists col, st !! c = Some col /\ cache_part col' = cache_part col) as [Hcl|Hsame].
  { destruct (collection_object_cache_free_frame _ _ _ _ c Hfree) as [Heq|]; [|by left].
    right. specialize (Hpart c). rewrite <- Heq, Hc in Hpart. simpl in Hpart.
    destruct (st !! c) as [col|]; [|done]. exists col. split; [done|].
    simpl in Hpart. congruence. }
  { destruct Hcl as (col2 & Hcol2 & Hhas & Hcache). assert (col2 = col') as -> by congruence.
    by rewrite Hhas. }
  destruct Hsame as (col & Hcol & Hcp).
  apply cache_part_has_object_cache in Hcp as [Hhas Hcache].
  specialize (Hcoh c col Hcol). rewrite <- Hhas, <- Hcache in Hcoh.
  destruct (has_object_cache col') eqn:Hvalid; [|done].
  intros o. rewrite Hcoh. symmetry. apply reachable_member_agree.
  intros x Hx. cut (x <> m); [intros Hne; by destruct (Hdiff x Hne) as [-> ->]|]. intros ->.
  apply (symmetric_rtc st' m c Hsym) in Hx.
  assert (cache_cleared st' c) as (col2 & Hcol2 & Hhas2 & _).
  { eapply collection_object_cache_free_cleared; [exact Hfree|].
    eapply same_structure_parent_ref_rtc; [|exact Hx].
    apply same_structure_sym. by eapply collection_object_cache_free_structure. }
  congruence.
Qed.

End CacheFrame.

Lemma rtc_avoid {A} (R R' : relation A) m c :
  (forall x y, x <> c -> (R x y <-> R' x y)) -> ~ rtc R m c ->
  forall a, rtc R m a <-> rtc R' m a.
Proof.
  intros Hag Hn.
  assert (forall a, rtc R' m a -> rtc R m a) as Hback.
  { apply (rtc_ind_r (fun a => rtc R m a)); [apply rtc_refl|].
    intros x y _ Hxy IH. eapply rtc_r; [exact IH|]. apply Hag; [|done].
    intros ->. by apply Hn. }
  intros a. split; [|apply Hback]. revert a.
  apply (rtc_ind_r (fun a => rtc R' m a)); [apply rtc_refl|].
  intros x y Hmx Hxy IH. eapply rtc_r; [exact IH|]. apply Hag; [|done].
  intros ->. by apply Hn.
Qed.

Section CacheEffect.
Context `{K : Constants}.

(** [collection_object_cache_free] leaves every collection that is not an
    ancestor as it is. *)
Lemma collection_object_cache_free_untouched fuel st c st' x :
  collection_object_cache_free fuel st c = Some st' ->
  ~ rtc (parent_ref st) c x -> st' !! x = st !! x.
Proof.
  revert st c st'. induction fuel as [|fuel IH]; intros st c st' Hr Hx; simpl in Hr; [done|].
  destruct (st !! c) as [col|] eqn:Hc; [|done]. simpl in Hr.
  assert (same_structure st (<[c := clear_object_cache col]> st)) as Hst
    by by eapply same_structure_insert.
  assert (x <> c) as Hne by (intros ->; apply Hx, rtc_refl).
  cut (st' !! x = st !! x /\ same_structure st st'); [by intros []|].
  eapply (for_each_sound (fun s => s !! x = st !! x /\ same_structure st s)); [exact Hr| |].
  - intros s p s' Hp [Hs Hss] Hfree. simpl in Hfree. split.
    + rewrite <- Hs. eapply IH; [exact Hfree|]. intros Hpx. apply Hx.
      eapply rtc_l; [|eapply same_structure_parent_ref_rtc; [|exact Hpx]].
      * unfold parent_ref. by rewrite (parents_of_lookup st c col Hc).
      * by apply same_structure_sym.
    + eapply same_structure_trans; [exact Hss|].
      by eapply collection_object_cache_free_structure.
  - split; [by rewrite lookup_insert_ne | done].
Qed.

(** An edit that leaves the caches as they are and then frees the cache of
    [m] clears the caches of [m] and of its ancestors and keeps every other
    cache. *)
Lemma cache_free_effect (st st3 : gmap nat Collection) fuel m st' :
  (forall x, cache_part <$> st3 !! x = cache_part <$> st !! x) ->
  collection_object_cache_free fuel st3 m = Some st' ->
  (forall a, rtc (parent_ref st') m a -> cache_cleared st' a) /\
  (forall x, ~ rtc (parent_ref st') m x -> cache_part <$> st' !! x = cache_part <$> st !! x).
Proof.
  intros Hpart Hfree.
  pose proof (collection_object_cache_free_structure _ _ _ _ Hfree) as Hss.
  split.
  - intros a Ha. eapply collection_object_cache_free_cleared; [exact Hfree|].
    eapply same_structure_parent_ref_rtc; [|exact Ha]. by apply same_structure_sym.
  - intros x Hx. rewrite <- Hpart. f_equal.
    eapply collection_object_cache_free_untouched; [exact Hfree|].
    intros Hx'. apply Hx. by eapply same_structure_parent_ref_rtc.
Qed.

End CacheEffect.

Section CacheCoherence.
Context `{K : Constants}.

Lemma BKE_collection_object_cache_get_reachable st collection :
  COLLECTION_HAS_OBJECT_CACHE <> 0%Z ->
  children_closed st -> acyclic st -> cache_coherent st -> is_Some (st !! collection) ->
  exists st1 lb,
    terminates (fun fuel => BKE_collection_object_cache_get fuel st collection) (st1, lb) /\
    same_structure st st1 /\ cache_coherent st1 /\
    forall o, o ∈ object <$> lb <-> reachable_member st collection o.
Proof.
  intros Hne Hcl Hac Hcoh [col Hcol]. unfold BKE_collection_object_cache_get.
  pose proof (Hcoh collection col Hcol) as Hhere.
  destruct (has_object_cache col) eqn:Hhas.
  - exists st, (object_cache col). split; [|split; [apply same_structure_refl | done]].
    exists 0. intros fuel _. rewrite Hcol. simpl. by rewrite Hhas.
  - destruct (collection_object_cache_fill_terminates st collection Hcl
                (child_edge_sn st collection Hcl Hac) (ex_intro _ col Hcol)
                [] 0%Z) as [lb [n Hn]].
    assert (forall o, o ∈ object <$> lb <-> reachable_member st collection o) as Hlb.
    { intros o. rewrite (collection_object_cache_fill_objects n st [] collection 0 lb o)
        by by apply Hn.
      simpl. rewrite elem_of_nil. unfold reachable_member. tauto. }
    set (col' := set_flag (set_object_cache col lb)
                          (Z.lor (flag col) COLLECTION_HAS_OBJECT_CACHE)).
    assert (same_structure st (<[collection := col']> st)) as Hsame
      by by eapply same_structure_insert.
    exists (<[collection := col']> st), lb. split; [|split; [done|split; [|done]]].
    + exists n. intros fuel Hfuel. rewrite Hcol. simpl. rewrite Hhas. simpl.
      rewrite Hhere, (Hn fuel Hfuel). done.
    + intros c colc Hc. destruct (decide (c = collection)) as [->|Hc'].
      * rewrite lookup_insert_eq in Hc. injection Hc as <-.
        unfold col'. rewrite has_object_cache_set by done. simpl. intros o.
        by rewrite Hlb, (same_structure_reachable_member _ _ collection o Hsame).
      * rewrite lookup_insert_ne in Hc by done. specialize (Hcoh c colc Hc).
        destruct (has_object_cache colc); [|done]. intros o.
        by rewrite Hcoh, (same_structure_reachable_member _ _ c o Hsame).
Qed.

(** X13: when the caches are coherent (every cache flagged valid lists
    exactly the members of its collection and of the descendants, every other
    cache is empty), [BKE_collection_object_cache_get] returns a list of
    exactly the objects that are members of the collection or of a
    descendant, whether the cache was valid or is built by the call; the call
    changes no link, member or user count and leaves the caches coherent. *)
Theorem BKE_collection_object_cache_get_coherent st collection :
  COLLECTION_HAS_OBJECT_CACHE <> 0%Z ->
  children_closed st -> acyclic st -> cache_coherent st -> is_Some (st !! collection) ->
  exists st1 lb,
    terminates (fun fuel => BKE_collection_object_cache_get fuel st collection) (st1, lb) /\
    same_structure st st1 /\ cache_coherent st1 /\
    forall o, o ∈ object <$> lb <-> reachable_member st collection o.
Proof. apply BKE_collection_object_cache_get_reachable. Qed.

(** X14: when the caches are coherent, [BKE_collection_has_object_recursive]
    answers true exactly for the objects that are members of the collection
    or of one of its descendants. *)
Theorem BKE_collection_has_object_recursive_iff st collection ob :
  COLLECTION_HAS_OBJECT_CACHE <> 0%Z ->
  children_closed st -> acyclic st -> cache_coherent st -> is_Some (st !! collection) ->
  exists st1 b,
    terminates (fun fuel => BKE_collection_has_object_recursive fuel st
                              (Some collection) (Some ob)) (st1, b) /\
    (b = true <-> reachable_member st collection ob).
Proof.
  intros Hne Hcl Hac Hcoh Hcol.
  destruct (BKE_collection_object_cache_get_reachable st collection Hne Hcl Hac Hcoh Hcol)
    as (st1 & lb & [n Hn] & _ & _ & Hlb).
  eexists st1, _. split.
  - exists n. intros fuel Hfuel. simpl. by rewrite (Hn fuel Hfuel).
  - rewrite bool_decide_eq_true, <- not_eq_None_Some, BLI_findptr_None, <- Hlb.
    split; [apply dec_stable | by intros ? ?].
Qed.

(** What [collection_object_add] hands to the cache invalidation. *)
Lemma collection_object_add_cache fuel bmain collection ob flag add_us bmain' :
  collection_object_add fuel bmain collection ob flag add_us = Some (true, bmain') ->
  exists st1,
    collection_object_cache_free fuel st1 collection = Some (collections bmain') /\
    forall x, cache_part <$> st1 !! x = cache_part <$> collections bmain !! x.
Proof.
  unfold collection_object_add. intros Hr.
  destruct (objects bmain !! ob) as [o|]; [|done]. simpl in Hr.
  destruct (match dup_group o with Some _ => _ | None => _ end) as [[]|]; simpl in Hr;
    try done.
  destruct (collections bmain !! collection) as [col|] eqn:Hcol; [|done]. simpl in Hr.
  destruct (BLI_findptr id (gobject col) ob); [done|].
  destruct (BKE_collection_object_cache_free _ _ _) as [st2|] eqn:Hfree; [|done].
  simpl in Hr. injection Hr as <-. simpl.
  eexists. split; [exact Hfree|]. intros x. rewrite lookup_insert.
  destruct (decide (collection = x)) as [<-|]; [by rewrite Hcol | done].
Qed.

Lemma collection_object_remove_cache fuel bmain collection ob free_us bmain' :
  collection_object_remove fuel bmain collection ob free_us = Some (true, bmain') ->
  exists st1,
    collection_object_cache_free fuel st1 collection = Some (collections bmain') /\
    forall x, cache_part <$> st1 !! x = cache_part <$> collections bmain !! x.
Proof.
  unfold collection_object_remove. intros Hr.
  destruct (collections bmain !! collection) as [col|] eqn:Hcol; [|done]. simpl in Hr.
  destruct (BLI_findptr id (gobject col) ob) as [i|] eqn:Hf; [|done].
  destruct (BKE_collection_object_cache_free _ _ _) as [st2|] eqn:Hfree; [|done].
  simpl in Hr.
  assert (collections bmain' = st2) as ->.
  { destruct free_us.
    - injection Hr as <-. by rewrite BKE_libblock_free_us_collections.
    - destruct (objects bmain !! ob); simpl in Hr; [|done]. by injection Hr as <-. }
  eexists. split; [exact Hfree|]. intros x. rewrite lookup_insert.
  destruct (decide (collection = x)) as [<-|]; [by rewrite Hcol | done].
Qed.

Lemma structure_children_of (st st' : gmap nat Collection) x f :
  structure <$> st' !! x = f <$> (structure <$> st !! x) ->
  children_of st' x = from_option (fun s => (f s).1.2) [] (structure <$> st !! x).
Proof.
  unfold children_of. intros H.
  destruct (st !! x) as [col|], (st' !! x) as [col'|]; simpl in *; try done.
  injection H as H. by rewrite <- H.
Qed.

Lemma structure_parents_of (st st' : gmap nat Collection) x f :
  structure <$> st' !! x = f <$> (structure <$> st !! x) ->
  parents_of st' x = from_option (fun s => (f s).2) [] (structure <$> st !! x).
Proof.
  unfold parents_of. intros H.
  destruct (st !! x) as [col|], (st' !! x) as [col'|]; simpl in *; try done.
  injection H as H. by rewrite <- H.
Qed.

(** A member edit leaves both link tables as they are. *)
Lemma object_edit_same_links st st' f :
  (forall x, structure <$> st' !! x = f x <$> (structure <$> st !! x)) ->
  (forall x s, (f x s).1.2 = s.1.2 /\ (f x s).2 = s.2) ->
  same_links st st'.
Proof.
  intros H Hf x. rewrite (structure_children_of st st' x (f x) (H x)).
  rewrite (structure_parents_of st st' x (f x) (H x)).
  rewrite <- !(fmap_is_Some structure), (H x), fmap_is_Some.
  unfold children_of, parents_of.
  destruct (st !! x) as [col|]; simpl; [|done].
  destruct (Hf x (structure col)) as [-> ->]. done.
Qed.

(** X15: a successful [collection_object_add] on a graph that satisfies the
    invariants, whose caches are coherent, leaves the caches coherent: the
    caches of the collection and of all its ancestors are cleared, every
    other collection keeps its cache and its flags, and no cache that stays
    flagged valid misses the new member. *)
Theorem collection_object_add_coherent fuel bmain collection ob flag add_us bmain' :
  graph_invariant (collections bmain) -> cache_coherent (collections bmain) ->
  collection_object_add fuel bmain collection ob flag add_us = Some (true, bmain') ->
  cache_coherent (collections bmain') /\
  (forall a, rtc (parent_ref (collections bmain)) collection a ->
             cache_cleared (collections bmain') a) /\
  (forall x, ~ rtc (parent_ref (collections bmain)) collection x ->
             cache_part <$> collections bmain' !! x = cache_part <$> collections bmain !! x).
Proof.
  intros Hinv Hcoh Hr.
  destruct (collection_object_add_cache _ _ _ _ _ _ _ Hr) as (st1 & Hfree & Hpart).
  pose proof (fun x => collection_object_add_structure _ _ _ _ _ _ _ x Hr) as Hs.
  assert (same_links (collections bmain) (collections bmain')) as Hlinks.
  { apply (object_edit_same_links _ _ (object_add_structure collection ob) Hs).
    by intros x [[[us members] chs] pas]. }
  destruct (cache_free_effect _ _ _ _ _ Hpart Hfree) as [Hclear Hkeep].
  split; [|split].
  - eapply cache_coherent_free; [exact Hcoh | | exact Hpart | | exact Hfree].
    + apply graph_invariant_symmetric. by eapply same_links_invariant.
    + intros x Hne. split; [symmetry; apply Hlinks|].
      rewrite (structure_gobject_of _ _ x _ (Hs x)). unfold gobject_of.
      destruct (collections bmain !! x) as [[]|]; simpl; [|done].
      by rewrite bool_decide_eq_false_2.
  - intros a Ha. apply Hclear. by apply (same_links_parent_rtc _ _ collection a Hlinks).
  - intros x Hx. apply Hkeep. intros Hx'. apply Hx.
    by apply (same_links_parent_rtc _ _ collection x Hlinks).
Qed.

(** X16: a successful [collection_object_remove] on a graph that satisfies
    the invariants, whose caches are coherent, leaves the caches coherent:
    the caches of the collection and of all its ancestors are cleared, every
    other collection keeps its cache and its flags, and no cache that stays
    flagged valid still lists the member because of the removed link. *)
Theorem collection_object_remove_coherent fuel bmain collection ob free_us bmain' :
  graph_invariant (collections bmain) -> cache_coherent (collections bmain) ->
  collection_object_remove fuel bmain collection ob free_us = Some (true, bmain') ->
  cache_coherent (collections bmain') /\
  (forall a, rtc (parent_ref (collections bmain)) collection a ->
             cache_cleared (collections bmain') a) /\
  (forall x, ~ rtc (parent_ref (collections bmain)) collection x ->
             cache_part <$> collections bmain' !! x = cache_part <$> collections bmain !! x).
Proof.
  intros Hinv Hcoh Hr.
  destruct (collection_object_remove_cache _ _ _ _ _ _ Hr) as (st1 & Hfree & Hpart).
  pose proof (fun x => collection_object_remove_structure _ _ _ _ _ _ x Hr) as Hs.
  assert (same_links (collections bmain) (collections bmain')) as Hlinks.
  { apply (object_edit_same_links _ _ (object_remove_structure collection ob) Hs).
    by intros x [[[us members] chs] pas]. }
  destruct (cache_free_effect _ _ _ _ _ Hpart Hfree) as [Hclear Hkeep].
  split; [|split].
  - eapply cache_coherent_free; [exact Hcoh | | exact Hpart | | exact Hfree].
    + apply graph_invariant_symmetric. by eapply same_links_invariant.
    + intros x Hne. split; [symmetry; apply Hlinks|].
      rewrite (structure_gobject_of _ _ x _ (Hs x)). unfold gobject_of.
      destruct (collections bmain !! x) as [[]|]; simpl; [|done].
      by rewrite bool_decide_eq_false_2.
  - intros a Ha. apply Hclear. by apply (same_links_parent_rtc _ _ collection a Hlinks).
  - intros x Hx. apply Hkeep. intros Hx'. apply Hx.
    by apply (same_links_parent_rtc _ _ collection x Hlinks).
Qed.

End CacheCoherence.

Section LinkCoherence.
Context `{K : Constants}.

Lemma collection_child_add_cache fuel st parent collection flag add_us st' :
  collection_child_add fuel st parent collection flag add_us = Some (true, st') ->
  exists st3,
    collection_object_cache_free fuel st3 parent = Some st' /\
    forall x, cache_part <$> st3 !! x = cache_part <$> st !! x.
Proof.
  unfold collection_child_add. intros Hr.
  destruct (st !! parent) as [p|] eqn:Hp; [|done]. simpl in Hr.
  destruct (collection_find_child p collection) eqn:Hfc; [done|].
  destruct (BKE_collection_find_cycle fuel st parent collection) as [[]|] eqn:Hcyc; try done.
  simpl in Hr.
  assert (collection <> parent) as Hne.
  { intros ->. destruct fuel; simpl in Hcyc; [done|]. by rewrite decide_True in Hcyc. }
  assert (parent <> collection) as Hne' by done.
  destruct (st !! collection) as [c|] eqn:Hc;
    destruct (Z.land flag LIB_ID_CREATE_NO_MAIN =? 0)%Z eqn:Hflag;
    destruct add_us; simpl in Hr;
    rewrite ?lookup_insert_eq, ?lookup_insert_ne in Hr by done;
    rewrite ?Hc in Hr; simpl in Hr;
    rewrite ?lookup_insert_eq, ?lookup_insert_ne in Hr by done;
    rewrite ?Hc in Hr; simpl in Hr; try done;
    (destruct (BKE_collection_object_cache_free _ _ _) as [st4|] eqn:Hfree; [|done]);
    simpl in Hr; injection Hr as <-;
    (eexists; split; [exact Hfree|]); intros x;
    rewrite ?lookup_insert;
    destruct (decide (collection = x)) as [Hcx|Hcx];
    destruct (decide (parent = x)) as [Hpx|Hpx];
    try congruence; try subst x; rewrite ?Hp, ?Hc; done.
Qed.

Lemma collection_child_remove_cache fuel st parent collection st' :
  collection_child_remove fuel st parent collection = Some (true, st') ->
  exists st3,
    collection_object_cache_free fuel st3 parent = Some st' /\
    forall x, cache_part <$> st3 !! x = cache_part <$> st !! x.
Proof.
  unfold collection_child_remove. intros Hr.
  destruct (st !! parent) as [p|] eqn:Hp; [|done]. simpl in Hr.
  destruct (collection_find_child p collection) as [i|] eqn:Hfc; [|done].
  destruct (st !! collection) as [c|] eqn:Hc; [|done]. simpl in Hr.
  destruct (decide (parent = collection)) as [Heq|Hne].
  - subst collection. rewrite lookup_insert_eq in Hr. simpl in Hr.
    rewrite lookup_insert_eq in Hr. simpl in Hr.
    destruct (BKE_collection_object_cache_free _ _ _) as [st4|] eqn:Hfree; [|done].
    simpl in Hr. injection Hr as <-. eexists. split; [exact Hfree|]. intros x.
    rewrite !lookup_insert. assert (c = p) as -> by congruence.
    destruct (decide (parent = x)) as [<-|Hpx]; [by rewrite Hp | done].
  - rewrite lookup_insert_ne in Hr by done. rewrite Hp in Hr. simpl in Hr.
    rewrite lookup_insert_ne in Hr by done. rewrite lookup_insert_eq in Hr. simpl in Hr.
    destruct (BKE_collection_object_cache_free _ _ _) as [st4|] eqn:Hfree; [|done].
    simpl in Hr. injection Hr as <-. eexists. split; [exact Hfree|]. intros x.
    rewrite !lookup_insert.
    destruct (decide (collection = x)) as [Hcx|Hcx];
      destruct (decide (parent = x)) as [Hpx|Hpx]; try congruence; try subst x;
      rewrite ?Hp, ?Hc; done.
Qed.

(** X17: a successful [collection_child_add] whose flag has
    LIB_ID_CREATE_NO_MAIN clear, on a graph that satisfies the invariants and
    whose caches are coherent, leaves the caches coherent: the caches of the
    parent and of all its ancestors are cleared, and every other collection
    keeps its cache and its flags. *)
Theorem collection_child_add_coherent fuel st parent collection flag add_us st' :
  graph_invariant st -> cache_coherent st ->
  Z.land flag LIB_ID_CREATE_NO_MAIN = 0%Z ->
  collection_child_add fuel st parent collection flag add_us = Some (true, st') ->
  cache_coherent st' /\
  (forall a, rtc (parent_ref st) parent a -> cache_cleared st' a) /\
  (forall x, ~ rtc (parent_ref st) parent x ->
             cache_part <$> st' !! x = cache_part <$> st !! x).
Proof.
  intros Hinv Hcoh Hflag Hr.
  destruct (collection_child_add_cache _ _ _ _ _ _ _ Hr) as (st3 & Hfree & Hpart).
  pose proof (fun x => collection_child_add_structure _ _ _ _ _ _ _ x Hr) as Hs.
  destruct (collection_child_add_true _ _ _ _ _ _ _ Hr Hflag) as (_ & Hnr & _ & Hpa).
  assert (forall a, rtc (parent_ref st) parent a <-> rtc (parent_ref st') parent a) as Hanc.
  { apply (rtc_avoid _ _ parent collection); [|done].
    intros x y Hne. unfold parent_ref. rewrite Hpa, decide_False by done.
    by rewrite app_nil_r. }
  destruct (cache_free_effect _ _ _ _ _ Hpart Hfree) as [Hclear Hkeep].
  split; [|split].
  - eapply cache_coherent_free; [exact Hcoh | | exact Hpart | | exact Hfree].
    + apply graph_invariant_symmetric. by eapply collection_child_add_invariant.
    + intros x Hne. rewrite (structure_gobject_of _ _ x _ (Hs x)).
      rewrite (structure_children_of _ _ x _ (Hs x)). unfold gobject_of, children_of.
      destruct (st !! x) as [[]|]; simpl; [|done].
      by rewrite bool_decide_eq_false_2.
  - intros a Ha. apply Hclear. by apply Hanc.
  - intros x Hx. apply Hkeep. intros Hx'. apply Hx. by apply Hanc.
Qed.

(** X18: a successful [collection_child_remove] on a graph that satisfies
    the invariants, whose caches are coherent, leaves the caches coherent:
    the caches of the parent and of all its ancestors are cleared, and every
    other collection keeps its cache and its flags. *)
Theorem collection_child_remove_coherent fuel st parent collection st' :
  graph_invariant st -> cache_coherent st ->
  collection_child_remove fuel st parent collection = Some (true, st') ->
  cache_coherent st' /\
  (forall a, rtc (parent_ref st) parent a -> cache_cleared st' a) /\
  (forall x, ~ rtc (parent_ref st) parent x ->
             cache_part <$> st' !! x = cache_part <$> st !! x).
Proof.
  intros Hinv Hcoh Hr.
  destruct (collection_child_remove_cache _ _ _ _ _ Hr) as (st3 & Hfree & Hpart).
  pose proof (fun x => collection_child_remove_structure _ _ _ _ _ x Hr) as Hs.
  pose proof (graph_invariant_symmetric st Hinv) as Hsym.
  assert (child_edge st parent collection) as Hedge.
  { unfold collection_child_remove in Hr.
    destruct (st !! parent) as [p|] eqn:Hp; [|done]. simpl in Hr.
    destruct (collection_find_child p collection) as [i|] eqn:Hfc; [|done].
    unfold child_edge. rewrite (children_of_lookup st parent p Hp).
    eapply list_elem_of_lookup_2. by apply BLI_findptr_id_Some. }
  assert (~ rtc (parent_ref st) parent collection) as Hnr.
  { intros Hpc. apply (symmetric_rtc st parent collection Hsym) in Hpc.
    apply (inv_acyclic st Hinv parent). by eapply tc_rtc_r; [apply tc_once|]. }
  assert (parent <> collection) as Hne by (intros ->; apply Hnr, rtc_refl).
  destruct (collection_child_remove_true _ _ _ _ _ Hr Hne) as (i & _ & _ & Hpa).
  assert (forall a, rtc (parent_ref st) parent a <-> rtc (parent_ref st') parent a) as Hanc.
  { apply (rtc_avoid _ _ parent collection); [|done].
    intros x y Hx. unfold parent_ref. by rewrite Hpa, decide_False by done. }
  destruct (cache_free_effect _ _ _ _ _ Hpart Hfree) as [Hclear Hkeep].
  split; [|split].
  - eapply cache_coherent_free; [exact Hcoh | | exact Hpart | | exact Hfree].
    + apply graph_invariant_symmetric. by eapply collection_child_remove_invariant.
    + intros x Hx. rewrite (structure_gobject_of _ _ x _ (Hs x)).
      rewrite (structure_children_of _ _ x _ (Hs x)). unfold gobject_of, children_of.
      destruct (st !! x) as [[]|]; simpl; [|done].
      by rewrite bool_decide_eq_false_2.
  - intros a Ha. apply Hclear. by apply Hanc.
  - intros x Hx. apply Hkeep. intros Hx'. apply Hx. by apply Hanc.
Qed.

End LinkCoherence.

Lemma cache_coherent_check `{K : Constants} st :
  map_Forall (fun _ col => has_object_cache col = false /\ length (object_cache col) = 0) st ->
  cache_coherent st.
Proof.
  intros H c col Hc. destruct (H c col Hc) as [-> Hlen]. by apply nil_length_inv.
Qed.

Lemma scenario_coherent : cache_coherent (K := blender_constants) scenario.
Proof. apply cache_coherent_check. by_evaluation. Qed.

Lemma BKE_collection_object_cache_get_fresh_witness :
  exists st1 lb,
    terminates (fun fuel => BKE_collection_object_cache_get (K := blender_constants)
                              fuel scenario 0) (st1, lb) /\
    NoDup (object <$> lb) /\
    forall o, o ∈ object <$> lb <-> reachable_member scenario 0 o.
Proof.
  apply (BKE_collection_object_cache_get_fresh (K := blender_constants)).
  - apply graph_invariant_children_closed, scenario_invariant.
  - apply inv_acyclic, scenario_invariant.
  - eexists. by vm_compute.
Defined.

Lemma BKE_collection_object_cache_get_restrict_view_witness :
  Forall (fun b => base_flag b = 0%Z \/ base_flag b = 128%Z) [mkBase 5 128; mkBase 6 128].
Proof.
  eapply (BKE_collection_object_cache_get_restrict_view (K := blender_constants)
            hidden_parent 0 _ 2).
  - vm_compute. reflexivity.
  - reflexivity.
  - reflexivity.
  - by vm_compute.
  - vm_compute. reflexivity.
Defined.

Lemma BKE_collection_object_cache_get_coherent_witness :
  exists st1 lb,
    terminates (fun fuel => BKE_collection_object_cache_get (K := blender_constants)
                              fuel scenario 1) (st1, lb) /\
    same_structure scenario st1 /\ cache_coherent (K := blender_constants) st1 /\
    forall o, o ∈ object <$> lb <-> reachable_member scenario 1 o.
Proof.
  apply (BKE_collection_object_cache_get_coherent (K := blender_constants)).
  - done.
  - apply graph_invariant_children_closed, scenario_invariant.
  - apply inv_acyclic, scenario_invariant.
  - apply scenario_coherent.
  - eexists. by vm_compute.
Defined.

Lemma BKE_collection_has_object_recursive_iff_witness :
  exists st1 b,
    terminates (fun fuel => BKE_collection_has_object_recursive (K := blender_constants)
                              fuel scenario (Some 1) (Some 9)) (st1, b) /\
    (b = true <-> reachable_member scenario 1 9).
Proof.
  apply (BKE_collection_has_object_recursive_iff (K := blender_constants)).
  - done.
  - apply graph_invariant_children_closed, scenario_invariant.
  - apply inv_acyclic, scenario_invariant.
  - apply scenario_coherent.
  - eexists. by vm_compute.
Defined.

(** [cached_scenario] is what the calls of [BKE_collection_object_cache_get]
    on the collections 0 to 3 make of [scenario]. *)
Lemma cached_scenario_built :
  foldl (fun st c => st ← st;
                     fst <$> BKE_collection_object_cache_get (K := blender_constants) 3 st c)
        (Some scenario) [0; 1; 2; 3] = Some cached_scenario.
Proof. by vm_compute. Qed.

Lemma cached_scenario_invariant : graph_invariant cached_scenario.
Proof. apply (check_graph_invariant (fun c => 4 - c)). by_evaluation. Qed.

Lemma cached_scenario_valid :
  map_Forall (fun _ col => has_object_cache (K := blender_constants) col = true)
             cached_scenario.
Proof. by_evaluation. Qed.

Lemma cached_scenario_coherent : cache_coherent (K := blender_constants) cached_scenario.
Proof.
  assert (forall c o, o ∈ gobject_of cached_scenario c -> o = 9) as Hg.
  { intros c o. unfold gobject_of.
    destruct (cached_scenario !! c) as [col|] eqn:Hc; simpl; [|by rewrite elem_of_nil].
    assert (map_Forall (fun _ col => Forall (eq 9) (gobject col)) cached_scenario) as H
      by by_evaluation.
    intros Ho. symmetry. revert o Ho. apply Forall_forall. by apply (H c col). }
  assert (map_Forall (fun c col =>
            c ∈ [0; 1; 2; 3] /\ has_object_cache (K := blender_constants) col = true /\
            object <$> object_cache col = [9]) cached_scenario) as H by by_evaluation.
  intros c col Hc. destruct (H c col Hc) as (Hin & -> & ->). intros o.
  rewrite list_elem_of_singleton. split.
  - intros ->.
    repeat (apply elem_of_cons in Hin as [->|Hin]); [..|by apply elem_of_nil in Hin].
    + exists 2. split; [apply rtc_once|]; by_evaluation.
    + exists 3. split; [apply rtc_once|]; by_evaluation.
    + exists 2. split; [apply rtc_refl|]; by_evaluation.
    + exists 3. split; [apply rtc_refl|]; by_evaluation.
  - intros (c' & _ & Ho). by apply (Hg c').
Qed.

Lemma collection_object_add_coherent_witness :
  exists bmain',
    collection_object_add (K := blender_constants) 3 cached_main 1 8 0 true
      = Some (true, bmain') /\
    has_object_cache (K := blender_constants) <$> collections bmain' !! 3 = Some true /\
    cache_coherent (K := blender_constants) (collections bmain') /\
    (forall a, rtc (parent_ref cached_scenario) 1 a ->
               cache_cleared (K := blender_constants) (collections bmain') a) /\
    (forall x, ~ rtc (parent_ref cached_scenario) 1 x ->
               cache_part <$> collections bmain' !! x = cache_part <$> cached_scenario !! x).
Proof.
  eexists. split; [vm_compute; reflexivity|]. split; [by vm_compute|].
  eapply (collection_object_add_coherent (K := blender_constants) 3 cached_main 1 8 0 true).
  - apply cached_scenario_invariant.
  - apply cached_scenario_coherent.
  - vm_compute. reflexivity.
Defined.

Lemma collection_object_remove_coherent_witness :
  exists bmain',
    collection_object_remove (K := blender_constants) 3 cached_main 2 9 false
      = Some (true, bmain') /\
    has_object_cache (K := blender_constants) <$> collections bmain' !! 1 = Some true /\
    cache_coherent (K := blender_constants) (collections bmain') /\
    (forall a, rtc (parent_ref cached_scenario) 2 a ->
               cache_cleared (K := blender_constants) (collections bmain') a) /\
    (forall x, ~ rtc (parent_ref cached_scenario) 2 x ->
               cache_part <$> collections bmain' !! x = cache_part <$> cached_scenario !! x).
Proof.
  eexists. split; [vm_compute; reflexivity|]. split; [by vm_compute|].
  eapply (collection_object_remove_coherent (K := blender_constants) 3 cached_main 2 9 false).
  - apply cached_scenario_invariant.
  - apply cached_scenario_coherent.
  - vm_compute. reflexivity.
Defined.

Lemma collection_child_add_coherent_witness :
  exists st',
    collection_child_add (K := blender_constants) 4 cached_scenario 2 3 0 true
      = Some (true, st') /\
    has_object_cache (K := blender_constants) <$> st' !! 1 = Some true /\
    cache_coherent (K := blender_constants) st' /\
    (forall a, rtc (parent_ref cached_scenario) 2 a ->
               cache_cleared (K := blender_constants) st' a) /\
    (forall x, ~ rtc (parent_ref cached_scenario) 2 x ->
               cache_part <$> st' !! x = cache_part <$> cached_scenario !! x).
Proof.
  eexists. split; [vm_compute; reflexivity|]. split; [by vm_compute|].
  eapply (collection_child_add_coherent (K := blender_constants) 4 cached_scenario 2 3 0 true).
  - apply cached_scenario_invariant.
  - apply cached_scenario_coherent.
  - reflexivity.
  - vm_compute. reflexivity.
Defined.

Lemma collection_child_remove_coherent_witness :
  exists st',
    collection_child_remove (K := blender_constants) 4 cached_scenario 1 3
      = Some (true, st') /\
    has_object_cache (K := blender_constants) <$> st' !! 2 = Some true /\
    cache_coherent (K := blender_constants) st' /\
    (forall a, rtc (parent_ref cached_scenario) 1 a ->
               cache_cleared (K := blender_constants) st' a) /\
    (forall x, ~ rtc (parent_ref cached_scenario) 1 x ->
               cache_part <$> st' !! x = cache_part <$> cached_scenario !! x).
Proof.
  eexists. split; [vm_compute; reflexivity|]. split; [by vm_compute|].
  eapply (collection_child_remove_coherent (K := blender_constants) 4 cached_scenario 1 3).
  - apply cached_scenario_invariant.
  - apply cached_scenario_coherent.
  - vm_compute. reflexivity.
Defined.

(** ** Traversals *)

Lemma from_index_result_app l1 l2 index k :
  from_index_result (l1 ++ l2) index k =
  match (from_index_result l1 index k).1 with
  | Some x => (Some x, index)
  | None => from_index_result l2 index (k + Z.of_nat (length l1))
  end.
Proof.
  unfold from_index_result. destruct (decide (k <= index)%Z) as [Hk|Hk].
  - destruct (l1 !! Z.to_nat (index - k)) as [x|] eqn:H1; simpl.
    + by rewrite (lookup_app_l_Some _ _ _ _ H1).
    + apply lookup_ge_None in H1. rewrite lookup_app_r by done.
      rewrite decide_True by lia.
      replace (Z.to_nat (index - (k + Z.of_nat (length l1)))) with (Z.to_nat (index - k) - length l1)
        by lia.
      rewrite length_app. destruct (l2 !! _); [done|]. f_equal. lia.
  - simpl. rewrite decide_False by lia. rewrite length_app. f_equal. lia.
Qed.

Lemma collection_from_index_recursive_terminates st c :
  children_closed st -> sn (child_edge st) c -> is_Some (st !! c) ->
  forall l index k,
    preorder st c l -> (k + Z.of_nat (length l) <= INT_MAX)%Z ->
    terminates (fun fuel => collection_from_index_recursive fuel st c index k)
               (from_index_result l index k).
Proof.
  intros Hcl Hsn. induction Hsn as [c _ IH]. intros [col Hcol] l index k Hpre Hmax.
  apply preorder_inv in Hpre as (ls & -> & Hls).
  rewrite (children_of_lookup st c col Hcol) in Hls.
  destruct (decide (index = k)) as [->|Hne].
  { exists 1. intros [|fuel] Hfuel; [lia|]. simpl. rewrite decide_True by done.
    unfold from_index_result. rewrite decide_True by lia.
    by replace (Z.to_nat (k - k)) with 0 by lia. }
  simpl in Hmax.
  assert (forall chs ls k1,
            Forall2 (preorder st) chs ls -> (forall b, b ∈ chs -> child_edge st c b) ->
            (k1 + Z.of_nat (length (concat ls)) <= INT_MAX)%Z ->
            terminates (fun fuel => first_m (fun current child =>
                          collection_from_index_recursive fuel st child index current)
                          chs k1)
                       (from_index_result (concat ls) index k1)) as Hloop.
  { clear Hls Hmax ls. intros chs ls k1 Hls. revert k1.
    induction Hls as [|b lb chs ls Hb Hls IHl]; intros k1 Hchs Hmax; simpl.
    - exists 0. intros fuel _. unfold from_index_result. simpl.
      replace (k1 + Z.of_nat 0)%Z with k1 by lia. by destruct (decide _).
    - simpl in Hmax. rewrite length_app in Hmax.
      destruct (IH b (Hchs b (list_elem_of_here _ _)) (Hcl c b (Hchs b (list_elem_of_here _ _)))
                  lb index k1 Hb) as [n1 H1]; [lia|].
      destruct (IHl (k1 + Z.of_nat (length lb))%Z) as [n2 H2];
        [intros; apply Hchs; by right | lia |].
      exists (n1 `max` n2). intros fuel Hfuel. rewrite H1 by lia. simpl.
      rewrite from_index_result_app.
      destruct (from_index_result lb index k1) as [[x|] k2] eqn:Hres; simpl.
      + f_equal. f_equal. unfold from_index_result in Hres.
        destruct (if decide _ then _ else _); by injection Hres.
      + assert (k2 = (k1 + Z.of_nat (length lb))%Z) as ->.
        { unfold from_index_result in Hres.
          destruct (if decide _ then _ else _); by injection Hres. }
        apply H2. lia. }
  destruct (Hloop (children col) ls (k + 1)%Z Hls) as [n Hn].
  { intros b Hb. unfold child_edge. by rewrite (children_of_lookup st c col Hcol). }
  { lia. }
  exists (S n). intros [|fuel] Hfuel; [lia|]. simpl.
  rewrite decide_False by done. rewrite decide_False by lia. rewrite Hcol. simpl.
  rewrite Hn by lia. unfold from_index_result.
  destruct (decide (k <= index)%Z) as [Hk|Hk].
  - rewrite decide_True by lia.
    replace (Z.to_nat (index - k)) with (S (Z.to_nat (index - (k + 1)))) by lia. simpl.
    destruct (concat ls !! _); [done|]. do 2 f_equal. lia.
  - rewrite decide_False by lia. do 2 f_equal. simpl. lia.
Qed.

(** X19: [BKE_collection_from_index] returns the collection at position
    [index] of the depth-first pre-order from the master collection (the
    order in which the iterator over the collections of the scene yields
    them, a collection with several paths counted once for every path), and
    NULL for a negative index and for an index past the end.  The graph is
    acyclic, its child links point to collections that exist, and the
    pre-order has at most [INT_MAX] entries. *)
Theorem BKE_collection_from_index_preorder st scene l index :
  children_closed st -> acyclic st -> is_Some (st !! master_collection scene) ->
  preorder st (master_collection scene) l -> (Z.of_nat (length l) <= INT_MAX)%Z ->
  terminates (fun fuel => BKE_collection_from_index fuel st scene index)
             (if decide (0 <= index)%Z then l !! Z.to_nat index else None).
Proof.
  intros Hcl Hac Hm Hpre Hmax.
  destruct (collection_from_index_recursive_terminates st (master_collection scene) Hcl
              (child_edge_sn st _ Hcl Hac) Hm l index 0 Hpre) as [n Hn]; [lia|].
  exists n. intros fuel Hfuel. unfold BKE_collection_from_index. rewrite (Hn fuel Hfuel).
  simpl. unfold from_index_result. rewrite Z.sub_0_r.
  by destruct (if decide _ then _ else _).
Qed.

Lemma fresh_objects_elem_of gs l x : x ∈ fresh_objects gs l <-> x ∈ l /\ x ∉ gs.
Proof.
  revert gs. induction l as [|y l IH]; intros gs; simpl.
  - rewrite elem_of_nil. tauto.
  - destruct (decide (y ∈ gs)) as [Hy|Hy].
    + rewrite IH, elem_of_cons. split; [tauto|]. intros [[->|?] ?]; done.
    + rewrite !elem_of_cons, IH, elem_of_union, elem_of_singleton. split.
      * intros [->|[? ?]]; tauto.
      * intros [[->|?] ?]; [tauto|]. destruct (decide (x = y)) as [->|]; tauto.
Qed.

Lemma fresh_objects_NoDup gs l : NoDup (fresh_objects gs l).
Proof.
  revert gs. induction l as [|y l IH]; intros gs; simpl; [constructor|].
  destruct (decide (y ∈ gs)); [done|]. constructor; [|done].
  rewrite fresh_objects_elem_of, elem_of_union, elem_of_singleton. tauto.
Qed.

Lemma fresh_objects_visited gs pre l :
  (forall x, x ∈ pre -> x ∈ gs) -> fresh_objects gs (pre ++ l) = fresh_objects gs l.
Proof.
  induction pre as [|y pre IH]; intros H; simpl; [done|].
  rewrite decide_True by (apply H; left). apply IH. intros; apply H; by right.
Qed.

Lemma object_base_unique_spec gs l :
  match (object_base_unique gs l).2 with
  | [] => (object_base_unique gs l).1 = gs /\ forall x, x ∈ l -> x ∈ gs
  | ob :: rest =>
      exists pre, l = pre ++ ob :: rest /\ (forall x, x ∈ pre -> x ∈ gs) /\ (ob ∉ gs) /\
                  (object_base_unique gs l).1 = {[ob]} ∪ gs
  end.
Proof.
  induction l as [|y l IH]; simpl.
  - split; [done|]. by intros x ?%elem_of_nil.
  - destruct (decide (y ∈ gs)) as [Hy|Hy]; simpl.
    + destruct (object_base_unique gs l).2 as [|ob rest].
      * destruct IH as [-> Hl]. split; [done|]. by intros x [->|?]%elem_of_cons; [|apply Hl].
      * destruct IH as (pre & -> & Hpre & Hob & ->). exists (y :: pre).
        split; [done|]. split; [|done]. by intros x [->|?]%elem_of_cons; [|apply Hpre].
    + exists []. split; [done|]. split; [|done]. by intros x ?%elem_of_nil.
Qed.

(** ** The pre-order *)

Lemma preorder_exists st c :
  sn (child_edge st) c -> exists l, preorder st c l.
Proof.
  intros Hsn. induction Hsn as [c _ IH].
  assert (forall chs, (forall b, b ∈ chs -> child_edge st c b) ->
                      exists ls, Forall2 (preorder st) chs ls) as Hloop.
  { induction chs as [|b chs IHl]; intros Hchs; [by exists []|].
    destruct (IH b) as [lb Hlb]; [apply Hchs; left|].
    destruct IHl as [ls Hls]; [intros; apply Hchs; by right|].
    exists (lb :: ls). by constructor. }
  destruct (Hloop (children_of st c)) as [ls Hls]; [done|].
  exists (c :: concat ls). by constructor.
Qed.

Lemma preorder_elem_of st c l x :
  preorder st c l -> x ∈ l <-> rtc (child_edge st) c x.
Proof.
  remember (length l) as n eqn:Hn. revert c l x Hn.
  induction (lt_wf n) as [n _ IH]. intros c l x -> Hpre.
  apply preorder_inv in Hpre as (ls & -> & Hls).
  assert (forall chs ls', Forall2 (preorder st) chs ls' ->
            length (concat ls') <= length (concat ls) ->
            x ∈ concat ls' <-> exists b, b ∈ chs /\ rtc (child_edge st) b x) as Hloop.
  { intros chs ls' H. induction H as [|b lb chs ls' Hb Hls' IHl]; intros Hlen; simpl.
    - rewrite elem_of_nil. split; [done|]. by intros (b & ?%elem_of_nil & _).
    - simpl in Hlen. rewrite length_app in Hlen. rewrite elem_of_app.
      rewrite (IH (length lb) ltac:(simpl; lia) b lb x eq_refl Hb), IHl by lia. split.
      + intros [?|(b' & ? & ?)]; [exists b; split; [left|done]|].
        exists b'. split; [by right|done].
      + intros (b' & [->|?]%elem_of_cons & ?); [by left|]. right. by exists b'. }
  rewrite elem_of_cons, (Hloop _ _ Hls) by done. split.
  - intros [->|(b & Hb & Hr)]; [apply rtc_refl|]. by eapply rtc_l.
  - intros Hr. destruct Hr as [|c b x Hb Hr]; [by left|]. right. by exists b.
Qed.

Section Objects.
Context (st : gmap nat Collection) (arr : list nat).
Hypothesis Harr : forall x, x ∈ arr -> is_Some (st !! x).
Hypothesis Hmax : (Z.of_nat (length arr) < INT_MAX)%Z.

Lemma collections_iter_next cur c :
  cur <= length arr ->
  BKE_scene_collections_iterator_next (collections_iter arr cur c true) =
  Some (match arr !! S cur with
        | Some c' => collections_iter arr (S cur) c' true
        | None => collections_iter arr (S cur) c false
        end).
Proof.
  intros Hcur. unfold BKE_scene_collections_iterator_next, collections_iter. simpl.
  rewrite decide_False by lia.
  destruct (arr !! S cur) as [c'|] eqn:Hc'.
  - rewrite decide_True by by eapply lookup_lt_Some. done.
  - rewrite decide_False; [done|]. apply lookup_ge_None in Hc'. lia.
Qed.

Lemma collections_iter_next_invalid cur c :
  cur <= length arr ->
  BKE_scene_collections_iterator_next (collections_iter arr cur c false) =
  Some (match arr !! S cur with
        | Some c' => collections_iter arr (S cur) c' false
        | None => collections_iter arr (S cur) c false
        end).
Proof.
  intros Hcur. unfold BKE_scene_collections_iterator_next, collections_iter. simpl.
  rewrite decide_False by lia.
  destruct (arr !! S cur) as [c'|] eqn:Hc'.
  - rewrite decide_True by by eapply lookup_lt_Some. done.
  - rewrite decide_False; [done|]. apply lookup_ge_None in Hc'. lia.
Qed.

(** The [do ... while] loop that starts at a collection not yet scanned. *)
Lemma scene_objects_next_collection_yields fuel cur c gs ob0 cobn0 :
  arr !! cur = Some c -> length arr - cur < fuel ->
  exists iter',
    scene_objects_next_collection fuel st
      (mkIterator ob0 (mkSceneObjectsIteratorData gs cobn0 (collections_iter arr cur c true))
                  true) = Some iter' /\
    yields st arr iter' (fresh_objects gs (concat (gobject_of st <$> drop cur arr))).
Proof.
  revert cur c gs cobn0. induction fuel as [|fuel IH]; intros cur c gs cobn0 Hc Hfuel; [lia|].
  destruct (Harr c (list_elem_of_lookup_2 _ _ _ Hc)) as [col Hcol].
  rewrite (drop_S _ _ _ Hc). simpl. rewrite Hcol. simpl.
  rewrite (gobject_of_lookup st c col Hcol).
  pose proof (object_base_unique_spec gs (gobject col)) as Hu.
  destruct (object_base_unique gs (gobject col)) as [gs' [|ob rest]]; simpl in *.
  - destruct Hu as [-> Hall].
    rewrite collections_iter_next by (pose proof (lookup_lt_Some _ _ _ Hc); lia).
    rewrite (fresh_objects_visited gs (gobject col) _ Hall).
    destruct (arr !! S cur) as [c'|] eqn:Hc'; simpl.
    + apply (IH (S cur) c' gs cobn0 Hc'). pose proof (lookup_lt_Some _ _ _ Hc'). lia.
    + eexists. split; [done|]. by rewrite (drop_ge arr (S cur)) by by apply lookup_ge_None.
  - destruct Hu as (pre & Hpre & Hin & Hob & ->). eexists. split; [done|].
    rewrite Hpre, <- app_assoc, (fresh_objects_visited gs pre _ Hin). simpl.
    rewrite decide_False by done. exists ({[ob]} ∪ gs), rest, cur, c.
    split; [done|]. split; [|done]. split; [done|].
    exists (pre ++ [ob]). rewrite (gobject_of_lookup st c col Hcol), Hpre, <- app_assoc.
    split; [done|]. intros x [?| ->%list_elem_of_singleton]%elem_of_app;
      rewrite elem_of_union, elem_of_singleton; auto.
Qed.

Lemma BKE_scene_objects_iterator_next_yields fuel cur c gs ob0 cobn :
  scanned st arr gs cobn cur c -> length arr < fuel ->
  exists iter',
    BKE_scene_objects_iterator_next fuel st
      (mkIterator ob0 (mkSceneObjectsIteratorData gs cobn (collections_iter arr cur c true))
                  true) = Some iter' /\
    yields st arr iter' (remaining st arr gs cobn cur).
Proof.
  intros (Hc & pre & Hpre & Hin) Hfuel.
  destruct (Harr c (list_elem_of_lookup_2 _ _ _ Hc)) as [col Hcol].
  unfold BKE_scene_objects_iterator_next, remaining. simpl.
  assert (match cobn with [] => (gs, []) | _ :: _ => object_base_unique gs cobn end
          = object_base_unique gs cobn) as -> by by destruct cobn.
  pose proof (object_base_unique_spec gs cobn) as Hu.
  destruct (object_base_unique gs cobn) as [gs' [|ob rest]]; simpl in *.
  - destruct Hu as [-> Hall].
    rewrite collections_iter_next by (pose proof (lookup_lt_Some _ _ _ Hc); lia).
    rewrite (fresh_objects_visited gs cobn _ Hall).
    destruct (arr !! S cur) as [c'|] eqn:Hc'; simpl.
    + apply (scene_objects_next_collection_yields fuel (S cur) c' gs ob0 cobn Hc'). lia.
    + rewrite (drop_ge arr (S cur)) by by apply lookup_ge_None. simpl.
      destruct fuel as [|fuel]; [lia|]. simpl. rewrite Hcol. simpl.
      pose proof (object_base_unique_spec gs (gobject col)) as Hu.
      destruct (object_base_unique gs (gobject col)) as [gs' [|ob rest]]; simpl in *.
      * rewrite collections_iter_next_invalid
          by (pose proof (lookup_lt_Some _ _ _ Hc); lia).
        destruct (arr !! S (S cur)); simpl; eexists; (split; [done|]); done.
      * destruct Hu as (pre' & Hpre' & _ & Hob & _). exfalso. apply Hob.
        rewrite (gobject_of_lookup st c col Hcol) in Hpre.
        assert (ob ∈ pre ++ cobn) as [?|?]%elem_of_app; [|by apply Hin|by apply Hall].
        rewrite <- Hpre, Hpre'. apply elem_of_app. right. left.
  - destruct Hu as (pre' & Hpre' & Hin' & Hob & ->). eexists. split; [done|].
    rewrite Hpre', <- app_assoc, (fresh_objects_visited gs pre' _ Hin'). simpl.
    rewrite decide_False by done. exists ({[ob]} ∪ gs), rest, cur, c.
    split; [done|]. split; [|done]. split; [done|].
    exists (pre ++ pre' ++ [ob]). rewrite Hpre, Hpre', <- !app_assoc.
    split; [done|]. intros x [?|[?| ->%list_elem_of_singleton]%elem_of_app]%elem_of_app;
      rewrite elem_of_union, elem_of_singleton; auto.
Qed.

Lemma iterate_objects F fuel iter todo :
  yields st arr iter todo -> length arr < F -> length todo < fuel ->
  iterate fuel (BKE_scene_objects_iterator_next F st) iter = Some todo.
Proof.
  revert fuel iter. induction todo as [|ob todo IH]; intros fuel iter Hy HF Hfuel.
  - destruct fuel as [|fuel]; [simpl in Hfuel; lia|]. simpl in *. by rewrite Hy.
  - destruct fuel as [|fuel]; [lia|]. simpl in Hfuel.
    destruct Hy as (gs & cobn & cur & c & -> & Hsc & ->).
    destruct (BKE_scene_objects_iterator_next_yields F cur c gs ob cobn Hsc HF)
      as (iter' & Hnext & Hy').
    simpl. rewrite Hnext. simpl. rewrite (IH fuel iter' Hy' HF) by lia. done.
Qed.

End Objects.

Lemma elem_of_concat {A} (x : A) (ls : list (list A)) :
  x ∈ concat ls <-> exists l, l ∈ ls /\ x ∈ l.
Proof.
  induction ls as [|l ls IH]; simpl.
  - rewrite elem_of_nil. split; [done|]. by intros (l & ?%elem_of_nil & _).
  - rewrite elem_of_app, IH. split.
    + intros [?|(l' & ? & ?)]; [exists l; split; [left|done]|].
      exists l'. split; [by right|done].
    + intros (l' & [->|?]%elem_of_cons & ?); [by left|]. right. by exists l'.
Qed.

(** X20: when the master collection has no members of its own, the iterator
    over the objects of a scene returns, and it yields every object that is a
    member of a collection reachable from the master collection exactly once,
    and no other object.  The graph is acyclic, its child links point to
    collections that exist, and the pre-order [l] of the collections from
    the master collection, whose entries the [int] counters of the iterator
    count, has less than [INT_MAX] entries. *)
Theorem scene_objects_each_once st scene l :
  children_closed st -> acyclic st -> is_Some (st !! master_collection scene) ->
  gobject_of st (master_collection scene) = [] ->
  preorder st (master_collection scene) l -> (Z.of_nat (length l) < INT_MAX)%Z ->
  exists os,
    terminates (fun fuel => scene_objects fuel st scene) os /\
    NoDup os /\
    forall o, o ∈ os <-> reachable_member st (master_collection scene) o.
Proof.
  intros Hcl Hac Hm Hempty Hpre Hmax. set (m := master_collection scene) in *.
  destruct (scene_collections_array_preorder st scene l Hcl Hac Hm Hpre) as [n Hn]; [lia|].
  assert (forall x, x ∈ l -> is_Some (st !! x)) as Harr.
  { intros x Hx. apply (preorder_elem_of st m l x Hpre) in Hx.
    apply rtc_inv_r in Hx as [<-|(b & _ & Hb)]; [done|]. by apply (Hcl b x). }
  destruct (preorder_inv _ _ _ Hpre) as (ls & Hl & _).
  assert (l !! 0 = Some m) as Hl0 by by rewrite Hl.
  set (os := fresh_objects ∅ (concat (gobject_of st <$> drop 1 l))).
  exists os. split; [|split].
  - exists (n `max` (S (length l) `max` S (length os))). intros fuel Hfuel.
    destruct Hm as [col Hcol].
    unfold gobject_of in Hempty. rewrite Hcol in Hempty. simpl in Hempty.
    assert (BKE_scene_objects_iterator_begin fuel st scene =
            BKE_scene_objects_iterator_next fuel st
              (mkIterator 0 (mkSceneObjectsIteratorData ∅ [] (collections_iter l 0 m true))
                          true)) as Hbegin.
    { unfold BKE_scene_objects_iterator_begin, BKE_scene_collections_iterator_begin.
      rewrite (Hn fuel) by lia. simpl. rewrite Hl0. simpl. fold m. rewrite Hcol. simpl.
      by rewrite Hempty. }
    destruct (BKE_scene_objects_iterator_next_yields st l Harr Hmax fuel 0 m ∅ 0 [])
      as (iter' & Hnext & Hy); [|lia|].
    { split; [done|]. exists []. unfold gobject_of. rewrite Hcol. simpl.
      split; [done|]. by intros x ?%elem_of_nil. }
    unfold scene_objects. rewrite Hbegin, Hnext. simpl.
    apply (iterate_objects st l Harr Hmax fuel fuel iter' os Hy); lia.
  - apply fresh_objects_NoDup.
  - intros o. unfold os. rewrite fresh_objects_elem_of, elem_of_concat.
    unfold reachable_member. split.
    + intros [(lo & (c & -> & Hc)%list_elem_of_fmap & Ho) _].
      exists c. split; [|done]. apply (preorder_elem_of st m l c Hpre).
      rewrite Hl. right. by rewrite Hl in Hc.
    + intros (c & Hr & Ho). split; [|by apply not_elem_of_empty].
      exists (gobject_of st c). split; [|done]. apply list_elem_of_fmap. exists c.
      split; [done|]. apply (preorder_elem_of st m l c Hpre) in Hr. rewrite Hl in Hr |- *.
      apply elem_of_cons in Hr as [->|Hr]; [|done].
      rewrite Hempty in Ho. by apply elem_of_nil in Ho.
Qed.

Lemma scenario_preorder : preorder scenario 0 [0; 1; 3; 2].
Proof.
  apply (preorder_node scenario 0 [[1; 3]; [2]]).
  change (children_of scenario 0) with [1; 2].
  repeat constructor.
  - apply (preorder_node scenario 1 [[3]]). change (children_of scenario 1) with [3].
    repeat constructor. apply (preorder_node scenario 3 []).
    change (children_of scenario 3) with (@nil nat). constructor.
  - apply (preorder_node scenario 2 []).
    change (children_of scenario 2) with (@nil nat). constructor.
Qed.

Lemma BKE_collection_from_index_preorder_witness :
  terminates (fun fuel => BKE_collection_from_index fuel scenario (mkScene 0) 2) (Some 3).
Proof.
  apply (BKE_collection_from_index_preorder scenario (mkScene 0) [0; 1; 3; 2] 2).
  - apply graph_invariant_children_closed, scenario_invariant.
  - apply inv_acyclic, scenario_invariant.
  - eexists. by vm_compute.
  - apply scenario_preorder.
  - by vm_compute.
Defined.

Lemma scene_objects_each_once_witness :
  exists os,
    terminates (fun fuel => scene_objects fuel scenario (mkScene 0)) os /\
    NoDup os /\
    forall o, o ∈ os <-> reachable_member scenario 0 o.
Proof.
  apply (scene_objects_each_once scenario (mkScene 0) [0; 1; 3; 2]).
  - apply graph_invariant_children_closed, scenario_invariant.
  - apply inv_acyclic, scenario_invariant.
  - eexists. by vm_compute.
  - by vm_compute.
  - apply scenario_preorder.
  - by vm_compute.
Defined.

(** ** Moving, copying and removing the objects of a scene *)

Lemma same_links_preorder st st' c l :
  same_links st st' -> preorder st c l -> preorder st' c l.
Proof.
  intros Hl. remember (length l) as n eqn:Hn. revert c l Hn.
  induction (lt_wf n) as [n _ IH]. intros c l -> Hpre.
  apply preorder_inv in Hpre as (ls & -> & Hls). constructor.
  destruct (Hl c) as (<- & _).
  assert (forall chs ls', Forall2 (preorder st) chs ls' ->
            length (concat ls') <= length (concat ls) ->
            Forall2 (preorder st') chs ls') as Hloop.
  { intros chs ls' H. induction H as [|b lb chs ls' Hb Hls' IHl]; intros Hlen; simpl in *.
    - constructor.
    - rewrite length_app in Hlen. constructor; [|apply IHl; lia].
      apply (IH (length lb)); [simpl; lia | done | done]. }
  by apply Hloop.
Qed.

Section RemoveLoop.
Context `{K : Constants}.

(** One pass of the loop of [scene_collections_object_remove]. *)
Lemma collection_object_remove_step bmain c ob :
  graph_invariant (collections bmain) ->
  (forall x, NoDup (gobject_of (collections bmain) x)) ->
  is_Some (objects bmain !! ob) -> is_Some (collections bmain !! c) ->
  exists ok bmain',
    terminates (fun fuel => collection_object_remove fuel bmain c ob false) (ok, bmain') /\
    (ok = true <-> ob ∈ gobject_of (collections bmain) c) /\
    same_links (collections bmain) (collections bmain') /\
    is_Some (objects bmain' !! ob) /\
    (forall x, NoDup (gobject_of (collections bmain') x)) /\
    (ob ∉ gobject_of (collections bmain') c) /\
    (forall x, x <> c -> gobject_of (collections bmain') x = gobject_of (collections bmain) x) /\
    (forall x o, o <> ob ->
       o ∈ gobject_of (collections bmain') x <-> o ∈ gobject_of (collections bmain) x) /\
    (forall x, ob ∈ gobject_of (collections bmain') x -> ob ∈ gobject_of (collections bmain) x).
Proof.
  intros Hinv Hnd [o Ho] [col Hcol].
  destruct (decide (ob ∈ gobject_of (collections bmain) c)) as [Hmem|Hmem].
  - destruct (collection_object_remove_terminates bmain c ob o Hinv Ho Hmem) as [st2 [n Hn]].
    eexists true, _. split; [by exists n|]. split; [done|].
    pose proof (Hn n (le_n _)) as Hr.
    pose proof (fun x => collection_object_remove_structure _ _ _ _ _ _ x Hr) as Hs.
    pose proof (fun x => collection_object_remove_gobject _ _ _ _ _ _ x Hr) as Hg.
    simpl in Hs, Hg |- *.
    destruct (BLI_findptr_id_elem_of _ _ Hmem) as [i Hi].
    pose proof (BLI_findptr_id_Some _ _ _ Hi) as Hi'.
    assert (gobject_of st2 c = delete i (gobject_of (collections bmain) c)) as Hc.
    { rewrite Hg, decide_True by done. by rewrite Hi. }
    assert (forall x, x <> c -> gobject_of st2 x = gobject_of (collections bmain) x) as Hother.
    { intros x Hx. by rewrite Hg, decide_False. }
    split; [|split; [|split; [|split; [|split; [|split]]]]].
    + apply (object_edit_same_links _ _ (object_remove_structure c ob) Hs).
      by intros x [[[us members] chs] pas].
    + rewrite lookup_insert_eq. eauto.
    + intros x. destruct (decide (x = c)) as [->|Hx]; [|by rewrite Hother].
      rewrite Hc. eapply sublist_NoDup; [apply Hnd | apply sublist_delete].
    + rewrite Hc. by apply delete_first_NoDup.
    + done.
    + intros x o' Ho'. destruct (decide (x = c)) as [->|Hx]; [|by rewrite Hother].
      rewrite Hc. by apply (elem_of_delete_ne _ _ ob).
    + intros x. destruct (decide (x = c)) as [->|Hx]; [done|by rewrite Hother].
  - exists false, bmain.
    split; [|split; [done|split; [|split; [eauto|split; [done|split; [done|done]]]]]].
    + exists 0. intros fuel _. unfold collection_object_remove. rewrite Hcol. simpl.
      rewrite (gobject_of_lookup _ _ _ Hcol) in Hmem.
      apply BLI_findptr_id_None in Hmem. by rewrite Hmem.
    + intros x. done.
Qed.

Lemma scene_collections_object_remove_loop ob skip cs :
  forall r bmain,
    graph_invariant (collections bmain) ->
    (forall x, NoDup (gobject_of (collections bmain) x)) ->
    is_Some (objects bmain !! ob) ->
    (forall c, c ∈ cs -> is_Some (collections bmain !! c)) ->
    exists r' bmain',
      terminates (fun fuel =>
                    for_each (fun (s : bool * Main) collection =>
                      if decide (Some collection = skip) then Some s
                      else
                        '(ok, bmain') ← collection_object_remove fuel s.2 collection ob false;
                        Some (s.1 || ok, bmain'))
                    cs (r, bmain)) (r', bmain') /\
      (r' = true <->
       r = true \/ exists c, c ∈ cs /\ Some c <> skip /\ ob ∈ gobject_of (collections bmain) c) /\
      same_links (collections bmain) (collections bmain') /\
      (forall x, NoDup (gobject_of (collections bmain') x)) /\
      (forall x, x ∈ cs -> Some x <> skip -> ob ∉ gobject_of (collections bmain') x) /\
      (forall x, x ∉ cs \/ Some x = skip ->
                 gobject_of (collections bmain') x = gobject_of (collections bmain) x) /\
      (forall x o, o <> ob ->
         o ∈ gobject_of (collections bmain') x <-> o ∈ gobject_of (collections bmain) x) /\
      (forall x, ob ∈ gobject_of (collections bmain') x -> ob ∈ gobject_of (collections bmain) x).
Proof.
  induction cs as [|c cs IH]; intros r bmain Hinv Hnd Hob Hcs.
  - exists r, bmain. split; [by exists 0|].
    split; [split; [by left | by intros [?|(c & ?%elem_of_nil & _)]]|].
    split; [by intros x|]. split; [done|].
    split; [by intros x ?%elem_of_nil|]. done.
  - destruct (decide (Some c = skip)) as [Hskip|Hskip].
    + destruct (IH r bmain Hinv Hnd Hob)
        as (r' & bmain' & [n Hn] & Hr' & Hl & Hnd' & Hrem & Hkeep & Ho & Hmono).
      { intros; apply Hcs; by right. }
      exists r', bmain'. split.
      { exists n. intros fuel Hfuel. simpl. rewrite decide_True by done. simpl.
        by apply Hn. }
      split.
      { rewrite Hr'. split; (intros [?|(c' & Hc' & Hne & Hin)]; [by left|right]).
        - exists c'. split; [by right | done].
        - exists c'. apply elem_of_cons in Hc' as [->|?]; done. }
      split; [done|]. split; [done|]. split; [|split; [|done]].
      * intros x [->|Hx]%elem_of_cons Hne; [done|]. by apply Hrem.
      * intros x [Hx|Hx]; apply Hkeep; [left|by right].
        intros Hin. apply Hx. by right.
    + destruct (collection_object_remove_step bmain c ob Hinv Hnd Hob)
        as (ok & bmain1 & [n1 H1] & Hok & Hl1 & Hob1 & Hnd1 & Hrem1 & Hkeep1 & Ho1 & Hmono1).
      { apply Hcs. left. }
      destruct (IH (r || ok) bmain1)
        as (r' & bmain' & [n Hn] & Hr' & Hl & Hnd' & Hrem & Hkeep & Ho & Hmono).
      { by eapply same_links_invariant. }
      { done. }
      { done. }
      { intros x Hx. apply (Hl1 x). apply Hcs. by right. }
      exists r', bmain'. split.
      { exists (n1 `max` n). intros fuel Hfuel. simpl. rewrite decide_False by done.
        rewrite H1 by lia. simpl. apply Hn. lia. }
      split.
      { rewrite Hr', orb_true_iff, Hok. split.
        - intros [[?|?]|(c' & Hc' & Hne & Hin)]; [by left| |].
          + right. exists c. split; [left | done].
          + right. exists c'. split; [by right|]. split; [done|]. by apply Hmono1.
        - intros [?|(c' & Hc' & Hne & Hin)]; [by left; left|].
          destruct (decide (c' = c)) as [->|Hcc]; [by left; right|].
          apply elem_of_cons in Hc' as [->|Hc']; [done|].
          right. exists c'. split; [done|]. split; [done|]. by rewrite Hkeep1. }
      split; [by eapply same_links_trans|]. split; [done|]. split; [|split; [|split]].
      * intros x [->|Hx]%elem_of_cons Hne; [|by apply Hrem].
        intros Hin. by apply Hrem1, Hmono.
      * intros x Hx. assert (x <> c) as Hne.
        { destruct Hx as [Hx|Hx]; [intros ->; apply Hx; left | congruence]. }
        rewrite Hkeep, Hkeep1; [done..|].
        destruct Hx as [Hx|Hx]; [left|by right]. intros Hin. apply Hx. by right.
      * intros x o Hne. by rewrite Ho, Ho1.
      * intros x Hx. by apply Hmono1, Hmono.
Qed.

Lemma scene_collections_object_remove_eq fuel bmain scene ob free_us skip cs :
  scene_collections fuel (collections bmain) scene = Some cs ->
  scene_collections_object_remove fuel bmain scene ob free_us skip =
  '(removed, bmain1) ←
     for_each (fun (s : bool * Main) collection =>
                 if decide (Some collection = skip) then Some s
                 else
                   '(ok, bmain') ← collection_object_remove fuel s.2 collection ob free_us;
                   Some (s.1 || ok, bmain'))
              cs (false, bmain);
  Some (removed, BKE_main_collection_sync bmain1).
Proof. intros H. unfold scene_collections_object_remove. by rewrite H. Qed.

End RemoveLoop.

Section MoveObjects.
Context `{K : Constants}.

(** [collection_object_add] of an object that instances no collection. *)
Lemma collection_object_add_step bmain dst ob o :
  graph_invariant (collections bmain) ->
  (forall x, NoDup (gobject_of (collections bmain) x)) ->
  objects bmain !! ob = Some o -> dup_group o = None ->
  is_Some (collections bmain !! dst) ->
  exists ok bmain1,
    terminates (fun fuel => collection_object_add fuel bmain dst ob 0 true) (ok, bmain1) /\
    (ok = negb (bool_decide (ob ∈ gobject_of (collections bmain) dst))) /\
    same_links (collections bmain) (collections bmain1) /\
    objects bmain1 =
      (if ok then <[ob := mkObject (id_us_plus (ob_us o)) (dup_group o)]> (objects bmain)
       else objects bmain) /\
    (forall x, NoDup (gobject_of (collections bmain1) x)) /\
    (forall x, gobject_of (collections bmain1) x =
               gobject_of (collections bmain) x ++
               (if ok && bool_decide (x = dst) then [ob] else [])).
Proof.
  intros Hinv Hnd Ho Hdup [col Hcol]. destruct o as [us dg]. simpl in Hdup. subst dg.
  set (o := mkObject us None) in *.
  destruct (decide (ob ∈ gobject_of (collections bmain) dst)) as [Hmem|Hmem].
  - destruct (collection_object_add_member bmain dst ob 0 true
                (graph_invariant_children_closed _ Hinv) (inv_acyclic _ Hinv)
                (ex_intro _ o Ho) Hmem) as [n Hn].
    exists false, bmain. split; [by exists n|].
    split; [by rewrite bool_decide_eq_true_2|].
    split; [by intros x|]. split; [done|]. split; [done|].
    intros x. simpl. by rewrite app_nil_r.
  - set (st := collections bmain) in *.
    set (st1 := <[dst := set_gobject col (BLI_addtail (gobject col) ob)]> st).
    assert (same_links st st1) as H01 by by eapply same_links_insert.
    assert (graph_invariant st1) as Hinv1 by by eapply same_links_invariant.
    destruct (collection_object_cache_free_terminates st1 dst) with (st := st1)
      as (st2 & [n Hn] & H12).
    { by apply graph_invariant_parents_closed. }
    { by apply parent_ref_sn;
        [apply graph_invariant_parents_closed | apply graph_invariant_parents_acyclic]. }
    { apply same_structure_refl. }
    { unfold st1. rewrite lookup_insert_eq. eauto. }
    assert (same_links st st2) as H02
      by (eapply same_links_trans; [done | by apply same_structure_links]).
    set (obs := if true && (Z.land 0 LIB_ID_CREATE_NO_USER_REFCOUNT =? 0)%Z
                then <[ob := mkObject (id_us_plus (ob_us o)) (dup_group o)]> (objects bmain)
                else objects bmain).
    set (bmain2 := mkMain st2 obs (sync_requests bmain)).
    assert (forall fuel, n <= fuel ->
              collection_object_add fuel bmain dst ob 0 true = Some (true, bmain2)) as Hadd.
    { intros fuel Hfuel. unfold collection_object_add. rewrite Ho. simpl.
      fold st. rewrite Hcol. simpl.
      rewrite (gobject_of_lookup _ _ _ Hcol) in Hmem.
      apply BLI_findptr_id_None in Hmem. rewrite Hmem. fold st1.
      unfold BKE_collection_object_cache_free. by rewrite (Hn fuel Hfuel). }
    pose proof (fun x => collection_object_add_gobject _ _ _ _ _ _ _ x (Hadd n (le_n _))) as Hg.
    simpl in Hg. fold st in Hg.
    exists true, bmain2. split; [by exists n|].
    split; [by rewrite bool_decide_eq_false_2|].
    split; [done|]. split; [done|]. split.
    + intros x. simpl. rewrite Hg. case_decide; [|by rewrite app_nil_r]. subst x.
      apply NoDup_app. split; [done|]. split; [|apply NoDup_singleton].
      by intros y Hy ->%list_elem_of_singleton.
    + intros x. simpl. rewrite Hg. by repeat case_decide; repeat case_bool_decide.
Qed.

(** [BKE_collection_object_add] of an object that instances no collection. *)
Lemma BKE_collection_object_add_member bmain dst ob o :
  graph_invariant (collections bmain) ->
  (forall x, NoDup (gobject_of (collections bmain) x)) ->
  objects bmain !! ob = Some o -> dup_group o = None ->
  is_Some (collections bmain !! dst) ->
  exists ok bmain1,
    terminates (fun fuel => BKE_collection_object_add fuel bmain (Some dst) (Some ob))
               (ok, bmain1) /\
    (ok = negb (bool_decide (ob ∈ gobject_of (collections bmain) dst))) /\
    same_links (collections bmain) (collections bmain1) /\
    objects bmain1 =
      (if ok then <[ob := mkObject (id_us_plus (ob_us o)) (dup_group o)]> (objects bmain)
       else objects bmain) /\
    (forall x, NoDup (gobject_of (collections bmain1) x)) /\
    (ob ∈ gobject_of (collections bmain1) dst) /\
    (forall x, x <> dst -> gobject_of (collections bmain1) x = gobject_of (collections bmain) x) /\
    (forall x o', o' <> ob ->
       o' ∈ gobject_of (collections bmain1) x <-> o' ∈ gobject_of (collections bmain) x).
Proof.
  intros Hinv Hnd Ho Hdup Hdst.
  destruct (collection_object_add_step bmain dst ob o Hinv Hnd Ho Hdup Hdst)
    as (ok & bmain1 & [n Hn] & Hok & Hl & Hobs & Hnd1 & Hg).
  assert (graph_invariant (collections bmain1)) as Hinv1 by by eapply same_links_invariant.
  destruct (BKE_collection_is_in_scene_terminates (collections bmain1) dst) as [b [m Hm]].
  { by apply graph_invariant_parents_closed. }
  { by apply parent_ref_sn;
      [apply graph_invariant_parents_closed | apply graph_invariant_parents_acyclic]. }
  { by apply (Hl dst). }
  exists ok, (if ok && b then BKE_main_collection_sync bmain1 else bmain1).
  assert (collections (if ok && b then BKE_main_collection_sync bmain1 else bmain1) =
          collections bmain1) as Hc by by destruct (ok && b).
  assert (objects (if ok && b then BKE_main_collection_sync bmain1 else bmain1) =
          objects bmain1) as Hobj by by destruct (ok && b).
  rewrite Hc, Hobj. split.
  { exists (n `max` m). intros fuel Hfuel. unfold BKE_collection_object_add.
    rewrite Hn by lia. simpl. destruct ok; [|done]. rewrite Hm by lia. done. }
  split; [done|]. split; [done|]. split; [done|]. split; [done|]. split; [|split].
  - rewrite Hg, bool_decide_eq_true_2, andb_true_r by done. subst ok.
    case_bool_decide; simpl; [by rewrite app_nil_r|]. apply elem_of_app. right. left.
  - intros x Hx. by rewrite Hg, bool_decide_eq_false_2, andb_false_r, app_nil_r.
  - intros x o' Hne. rewrite Hg, elem_of_app.
    destruct (ok && bool_decide (x = dst)); [|rewrite elem_of_nil; tauto].
    rewrite list_elem_of_singleton. tauto.
Qed.

(** X21: without a source collection, [BKE_collection_object_move] moves the
    object out of the whole scene into the destination.  On a graph that
    satisfies the invariants and lists no member twice, and whose pre-order
    [l] from the master collection has at most [INT_MAX] entries, for an
    object that instances no collection, the call returns; afterwards the
    object is a member of the destination and of no other collection that is
    reachable from the master collection, and every other object is a member
    of the collections it was a member of. *)
Theorem BKE_collection_object_move_from_scene bmain scene dst ob o l :
  graph_invariant (collections bmain) ->
  (forall x, NoDup (gobject_of (collections bmain) x)) ->
  objects bmain !! ob = Some o -> dup_group o = None ->
  is_Some (collections bmain !! dst) ->
  is_Some (collections bmain !! master_collection scene) ->
  preorder (collections bmain) (master_collection scene) l ->
  (Z.of_nat (length l) <= INT_MAX)%Z ->
  exists bmain',
    terminates (fun fuel => BKE_collection_object_move fuel bmain scene (Some dst) None ob)
               bmain' /\
    (ob ∈ gobject_of (collections bmain') dst) /\
    (forall c, rtc (child_edge (collections bmain)) (master_collection scene) c -> c <> dst ->
               ob ∉ gobject_of (collections bmain') c) /\
    (forall c o', o' <> ob ->
       o' ∈ gobject_of (collections bmain') c <-> o' ∈ gobject_of (collections bmain) c).
Proof.
  intros Hinv Hnd Ho Hdup Hdst Hm Hpre0 Hmax.
  destruct (BKE_collection_object_add_member bmain dst ob o Hinv Hnd Ho Hdup Hdst)
    as (ok & bmain1 & [n1 H1] & _ & Hl1 & Hobs1 & Hnd1 & Hin1 & Hkeep1 & Ho1).
  assert (is_Some (objects bmain1 !! ob)) as Hob1.
  { rewrite Hobs1. destruct ok; [rewrite lookup_insert_eq|]; eauto. }
  assert (graph_invariant (collections bmain1)) as Hinv1 by by eapply same_links_invariant.
  pose proof (graph_invariant_children_closed _ Hinv1) as Hcl1.
  set (m := master_collection scene) in *.
  assert (is_Some (collections bmain1 !! m)) as Hm1 by by apply (Hl1 m).
  pose proof (same_links_preorder _ _ m l Hl1 Hpre0) as Hpre.
  destruct (scene_collections_preorder (collections bmain1) scene l Hcl1
              (inv_acyclic _ Hinv1) Hm1 Hpre Hmax) as [n2 H2].
  destruct (scene_collections_object_remove_loop ob (Some dst) l false bmain1 Hinv1 Hnd1 Hob1)
    as (r' & bmain2 & [n3 H3] & _ & Hl2 & Hnd2 & Hrem & Hkeep2 & Ho2 & _).
  { intros c Hc. apply (preorder_elem_of _ m l c Hpre) in Hc.
    apply rtc_inv_r in Hc as [<-|(b & _ & Hb)]; [done|]. by apply (Hcl1 b c). }
  exists (BKE_main_collection_sync bmain2). split; [|split; [|split]].
  - exists (n1 `max` (n2 `max` n3)). intros fuel Hfuel.
    unfold BKE_collection_object_move. rewrite H1 by lia. simpl.
    unfold scene_collections_object_remove. rewrite H2 by lia. simpl.
    rewrite H3 by lia. done.
  - simpl. rewrite Hkeep2; [done | by right].
  - simpl. intros c Hc Hne. apply Hrem; [|congruence].
    by apply (preorder_elem_of _ m l c Hpre0).
  - simpl. intros c o' Hne. by rewrite Ho2, Ho1.
Qed.

(** X22: with a source collection, [BKE_collection_object_move] of a member
    of the source that is not yet a member of the destination, and that
    instances no collection, returns; afterwards the object is a member of
    the destination and no longer of the source, every other member list is
    as it was, and so are the object table and its user counts: the user
    that the add counts is the one that the remove gives up. *)
Theorem BKE_collection_object_move_between bmain scene dst src ob o :
  graph_invariant (collections bmain) ->
  (forall x, NoDup (gobject_of (collections bmain) x)) ->
  objects bmain !! ob = Some o -> dup_group o = None ->
  is_Some (collections bmain !! dst) ->
  ob ∈ gobject_of (collections bmain) src ->
  ob ∉ gobject_of (collections bmain) dst ->
  exists bmain',
    terminates (fun fuel => BKE_collection_object_move fuel bmain scene (Some dst) (Some src) ob)
               bmain' /\
    (ob ∈ gobject_of (collections bmain') dst) /\
    (ob ∉ gobject_of (collections bmain') src) /\
    (forall c, c <> src -> c <> dst ->
               gobject_of (collections bmain') c = gobject_of (collections bmain) c) /\
    (forall c o', o' <> ob ->
       o' ∈ gobject_of (collections bmain') c <-> o' ∈ gobject_of (collections bmain) c) /\
    objects bmain' = objects bmain.
Proof.
  intros Hinv Hnd Ho Hdup Hdst Hsrc Hndst.
  assert (src <> dst) as Hne by (intros ->; done).
  destruct (BKE_collection_object_add_member bmain dst ob o Hinv Hnd Ho Hdup Hdst)
    as (ok & bmain1 & [n1 H1] & Hok & Hl1 & Hobs1 & Hnd1 & Hin1 & Hkeep1 & Ho1).
  rewrite bool_decide_eq_false_2 in Hok by done. simpl in Hok. subst ok.
  assert (graph_invariant (collections bmain1)) as Hinv1 by by eapply same_links_invariant.
  assert (ob ∈ gobject_of (collections bmain1) src) as Hsrc1 by by rewrite Hkeep1.
  assert (objects bmain1 !! ob = Some (mkObject (id_us_plus (ob_us o)) (dup_group o))) as Hob1
    by by rewrite Hobs1, lookup_insert_eq.
  destruct (collection_object_remove_terminates bmain1 src ob _ Hinv1 Hob1 Hsrc1)
    as [st2 [n2 H2]].
  pose proof (H2 n2 (le_n _)) as Hr.
  pose proof (fun x => collection_object_remove_structure _ _ _ _ _ _ x Hr) as Hs.
  pose proof (fun x => collection_object_remove_gobject _ _ _ _ _ _ x Hr) as Hg.
  simpl in Hs, Hg.
  assert (same_links (collections bmain1) st2) as Hl2.
  { apply (object_edit_same_links _ _ (object_remove_structure src ob) Hs).
    by intros x [[[us members] chs] pas]. }
  assert (graph_invariant st2) as Hinv2 by by eapply same_links_invariant.
  destruct (BKE_collection_is_in_scene_terminates st2 src) as [b [m Hm]].
  { by apply graph_invariant_parents_closed. }
  { by apply parent_ref_sn;
      [apply graph_invariant_parents_closed | apply graph_invariant_parents_acyclic]. }
  { apply (Hl2 src). unfold gobject_of in Hsrc1.
    destruct (collections bmain1 !! src); [eauto|]. by apply elem_of_nil in Hsrc1. }
  destruct (BLI_findptr_id_elem_of _ _ Hsrc1) as [i Hi].
  pose proof (BLI_findptr_id_Some _ _ _ Hi) as Hi'.
  eexists (if b then BKE_main_collection_sync _ else _). split.
  { exists (n1 `max` (n2 `max` m)). intros fuel Hfuel.
    unfold BKE_collection_object_move. rewrite H1 by lia. simpl.
    unfold BKE_collection_object_remove. rewrite H2 by lia. simpl.
    rewrite Hm by lia. simpl. by destruct b. }
  assert (forall (x y : Main), collections (if b then BKE_main_collection_sync x else x) =
                               collections x) as Hc by (intros; by destruct b).
  assert (forall (x : Main), objects (if b then BKE_main_collection_sync x else x) =
                             objects x) as Hobj by (intros; by destruct b).
  rewrite Hc, Hobj; [|done]. simpl.
  split; [|split; [|split; [|split]]].
  - by rewrite Hg, decide_False by done.
  - rewrite Hg, decide_True by done. rewrite Hi. simpl. by apply delete_first_NoDup.
  - intros c Hc1 Hc2. by rewrite Hg, decide_False, Hkeep1 by done.
  - intros c o' Hne'. rewrite <- Ho1 by done. rewrite Hg. case_decide; [|done]. subst c.
    rewrite Hi. simpl. by apply (elem_of_delete_ne _ _ ob).
  - rewrite Hobs1, insert_insert_eq. apply insert_id. rewrite Ho. f_equal.
    destruct o as [us dg]. simpl. f_equal. unfold id_us_min, id_us_plus. lia.
Qed.

End MoveObjects.

Section RemoveAll.
Context `{K : Constants}.

(** X23: [BKE_scene_collections_object_remove] (without release) on a graph
    that satisfies the invariants and lists no member twice, and whose
    pre-order [l] from the master collection has at most [INT_MAX] entries,
    returns; it
    answers true exactly when the object was a member of a collection that
    is reachable from the master collection; afterwards the object is a
    member of no such collection, the collections outside the scene keep
    their members, and every other object is a member of the collections it
    was a member of. *)
Theorem BKE_scene_collections_object_remove_all bmain scene ob l :
  graph_invariant (collections bmain) ->
  (forall x, NoDup (gobject_of (collections bmain) x)) ->
  is_Some (objects bmain !! ob) ->
  is_Some (collections bmain !! master_collection scene) ->
  preorder (collections bmain) (master_collection scene) l ->
  (Z.of_nat (length l) <= INT_MAX)%Z ->
  exists removed bmain',
    terminates (fun fuel => BKE_scene_collections_object_remove fuel bmain scene ob false)
               (removed, bmain') /\
    (removed = true <-> reachable_member (collections bmain) (master_collection scene) ob) /\
    (forall c, rtc (child_edge (collections bmain)) (master_collection scene) c ->
               ob ∉ gobject_of (collections bmain') c) /\
    (forall c, ~ rtc (child_edge (collections bmain)) (master_collection scene) c ->
               gobject_of (collections bmain') c = gobject_of (collections bmain) c) /\
    (forall c o', o' <> ob ->
       o' ∈ gobject_of (collections bmain') c <-> o' ∈ gobject_of (collections bmain) c).
Proof.
  intros Hinv Hnd Hob Hm Hpre Hmax. set (m := master_collection scene) in *.
  pose proof (graph_invariant_children_closed _ Hinv) as Hcl.
  destruct (scene_collections_preorder (collections bmain) scene l Hcl
              (inv_acyclic _ Hinv) Hm Hpre Hmax) as [n1 H1].
  destruct (scene_collections_object_remove_loop ob None l false bmain Hinv Hnd Hob)
    as (r' & bmain1 & [n2 H2] & Hr' & Hl & Hnd' & Hrem & Hkeep & Ho & _).
  { intros c Hc. apply (preorder_elem_of _ m l c Hpre) in Hc.
    apply rtc_inv_r in Hc as [<-|(b & _ & Hb)]; [done|]. by apply (Hcl b c). }
  exists r', (BKE_main_collection_sync bmain1). split; [|split; [|split; [|split]]].
  - exists (n1 `max` n2). intros fuel Hfuel.
    unfold BKE_scene_collections_object_remove.
    rewrite (scene_collections_object_remove_eq _ _ _ _ _ _ l) by (apply H1; lia).
    rewrite H2 by lia. done.
  - rewrite Hr'. unfold reachable_member. split.
    + intros [?|(c & Hc & _ & Hin)]; [done|]. exists c. split; [|done].
      by apply (preorder_elem_of _ m l c Hpre).
    + intros (c & Hc & Hin). right. exists c. split; [|done].
      by apply (preorder_elem_of _ m l c Hpre).
  - simpl. intros c Hc. apply Hrem; [|done]. by apply (preorder_elem_of _ m l c Hpre).
  - simpl. intros c Hc. apply Hkeep. left. intros Hin. apply Hc.
    by apply (preorder_elem_of _ m l c Hpre).
  - simpl. done.
Qed.

End RemoveAll.

Lemma BKE_scene_collections_object_remove_all_witness :
  exists removed bmain',
    terminates (fun fuel => BKE_scene_collections_object_remove (K := blender_constants) fuel
                              scenario_main (mkScene 0) 9 false) (removed, bmain') /\
    (removed = true <-> reachable_member (collections scenario_main) 0 9) /\
    (forall c, rtc (child_edge (collections scenario_main)) 0 c ->
               9 ∉ gobject_of (collections bmain') c) /\
    (forall c, ~ rtc (child_edge (collections scenario_main)) 0 c ->
               gobject_of (collections bmain') c = gobject_of (collections scenario_main) c) /\
    (forall c o', o' <> 9 ->
       o' ∈ gobject_of (collections bmain') c <-> o' ∈ gobject_of (collections scenario_main) c).
Proof.
  apply (BKE_scene_collections_object_remove_all (K := blender_constants)
           scenario_main (mkScene 0) 9 [0; 1; 3; 2]).
  - apply scenario_invariant.
  - apply gobject_of_NoDup_check. by_evaluation.
  - eexists. by vm_compute.
  - eexists. by vm_compute.
  - apply scenario_preorder.
  - by vm_compute.
Defined.

Section AddFrom.
Context `{K : Constants}.

Lemma BKE_collection_object_add_from_loop ob_src ob_dst cs :
  forall bmain o,
    graph_invariant (collections bmain) ->
    (forall x, NoDup (gobject_of (collections bmain) x)) ->
    objects bmain !! ob_dst = Some o -> dup_group o = None ->
    (forall c, c ∈ cs -> is_Some (collections bmain !! c)) ->
    exists bmain',
      terminates (fun fuel =>
                    for_each (fun (s : Main) collection =>
                      has ← BKE_collection_has_object (collections s) (Some collection)
                              (Some ob_src);
                      if has : bool then
                        '(_, s') ← collection_object_add fuel s collection ob_dst 0 true;
                        Some s'
                      else Some s)
                    cs bmain) bmain' /\
      same_links (collections bmain) (collections bmain') /\
      (forall x, gobject_of (collections bmain') x =
                 gobject_of (collections bmain) x ++
                 (if bool_decide (x ∈ cs /\ ob_src ∈ gobject_of (collections bmain) x /\
                                  ob_dst ∉ gobject_of (collections bmain) x)
                  then [ob_dst] else [])).
Proof.
  induction cs as [|c cs IH]; intros bmain o Hinv Hnd Ho Hdup Hcs.
  - exists bmain. split; [by exists 0|]. split; [by intros x|]. intros x.
    rewrite bool_decide_eq_false_2, app_nil_r; [done|]. by intros [?%elem_of_nil _].
  - destruct (Hcs c (list_elem_of_here _ _)) as [col Hcol].
    set (st := collections bmain) in *.
    assert (exists bmain1 o1,
              terminates (fun fuel =>
                has ← BKE_collection_has_object (collections bmain) (Some c) (Some ob_src);
                if has : bool then
                  '(_, s') ← collection_object_add fuel bmain c ob_dst 0 true; Some s'
                else Some bmain) bmain1 /\
              same_links st (collections bmain1) /\
              (forall x, NoDup (gobject_of (collections bmain1) x)) /\
              objects bmain1 !! ob_dst = Some o1 /\ dup_group o1 = None /\
              (forall x, gobject_of (collections bmain1) x =
                         gobject_of st x ++
                         (if bool_decide (x = c /\ ob_src ∈ gobject_of st x /\
                                          ob_dst ∉ gobject_of st x)
                          then [ob_dst] else [])))
      as (bmain1 & o1 & [n1 H1] & Hl1 & Hnd1 & Ho1 & Hdup1 & Hg1).
    { rewrite (BKE_collection_has_object_spec _ _ _ _ Hcol). fold st.
      destruct (decide (ob_src ∈ gobject_of st c)) as [Hsrc|Hsrc].
      - destruct (collection_object_add_step bmain c ob_dst o Hinv Hnd Ho Hdup)
          as (ok & bmain1 & [n Hn] & Hok & Hl & Hobs & Hnd1 & Hg); [eauto|].
        exists bmain1, (if ok then mkObject (id_us_plus (ob_us o)) (dup_group o) else o).
        split.
        { exists n. intros fuel Hfuel. simpl. rewrite bool_decide_eq_true_2 by done.
          rewrite Hn by done. done. }
        split; [done|]. split; [done|]. split; [|split].
        + rewrite Hobs. destruct ok; [by rewrite lookup_insert_eq | done].
        + by destruct ok.
        + intros x. rewrite Hg, Hok. fold st. f_equal.
          apply (f_equal (fun b : bool => if b then [ob_dst] else [])).
          destruct (decide (x = c)) as [->|Hx].
          * rewrite (bool_decide_eq_true_2 (c = c)), andb_true_r by done.
            destruct (decide (ob_dst ∈ gobject_of st c)).
            -- rewrite (bool_decide_eq_true_2 (ob_dst ∈ _)) by done. simpl.
               symmetry. apply bool_decide_eq_false_2. tauto.
            -- rewrite (bool_decide_eq_false_2 (ob_dst ∈ _)) by done. simpl.
               symmetry. by apply bool_decide_eq_true_2.
          * rewrite (bool_decide_eq_false_2 (x = c)), andb_false_r by done.
            symmetry. apply bool_decide_eq_false_2. tauto.
      - exists bmain, o. split.
        { exists 0. intros fuel _. simpl. by rewrite bool_decide_eq_false_2. }
        split; [by intros x|]. split; [done|]. split; [done|]. split; [done|].
        intros x. rewrite bool_decide_eq_false_2, app_nil_r; [done|].
        by intros (-> & ? & _). }
    destruct (IH bmain1 o1) as (bmain' & [n Hn] & Hl & Hg); [|done..| |].
    { by eapply same_links_invariant. }
    { intros x Hx. apply (Hl1 x). apply Hcs. by right. }
    exists bmain'. split.
    { exists (n1 `max` n). intros fuel Hfuel. simpl.
      rewrite H1 by lia. simpl. apply Hn. lia. }
    split; [by eapply same_links_trans|].
    intros x. rewrite Hg, !Hg1. fold st. rewrite <- app_assoc. f_equal.
    destruct (bool_decide (x = c /\ _)) eqn:HA.
    + apply bool_decide_eq_true in HA as (-> & Hsrc & Hdst).
      rewrite (bool_decide_eq_false_2 (_ ∈ cs /\ _)).
      * rewrite bool_decide_eq_true_2; [done|]. split; [left | done].
      * intros (_ & _ & Hn'). apply Hn'. apply elem_of_app. right. left.
    + apply bool_decide_eq_false in HA. rewrite !app_nil_r. simpl.
      apply (f_equal (fun b : bool => if b then [ob_dst] else [])).
      apply bool_decide_ext. rewrite elem_of_cons. tauto.
Qed.

(** X24: on a graph that satisfies the invariants and lists no member twice,
    and whose pre-order [l] from the master collection has at most [INT_MAX]
    entries, [BKE_collection_object_add_from] returns and adds [ob_dst], an
    object that instances no collection, to exactly the collections of the
    scene that have [ob_src] as a member: afterwards [ob_dst] is a member of each of
    them, and a member list either is as it was or belongs to such a
    collection that did not have [ob_dst] and has got it appended. *)
Theorem BKE_collection_object_add_from_members bmain scene ob_src ob_dst o l :
  graph_invariant (collections bmain) ->
  (forall x, NoDup (gobject_of (collections bmain) x)) ->
  objects bmain !! ob_dst = Some o -> dup_group o = None ->
  is_Some (collections bmain !! master_collection scene) ->
  preorder (collections bmain) (master_collection scene) l ->
  (Z.of_nat (length l) <= INT_MAX)%Z ->
  exists bmain',
    terminates (fun fuel => BKE_collection_object_add_from fuel bmain scene ob_src ob_dst)
               bmain' /\
    (forall c, rtc (child_edge (collections bmain)) (master_collection scene) c ->
               ob_src ∈ gobject_of (collections bmain) c ->
               ob_dst ∈ gobject_of (collections bmain') c) /\
    (forall c, gobject_of (collections bmain') c = gobject_of (collections bmain) c \/
               rtc (child_edge (collections bmain)) (master_collection scene) c /\
               ob_src ∈ gobject_of (collections bmain) c /\
               (ob_dst ∉ gobject_of (collections bmain) c) /\
               gobject_of (collections bmain') c =
                 gobject_of (collections bmain) c ++ [ob_dst]).
Proof.
  intros Hinv Hnd Ho Hdup Hm Hpre Hmax. set (m := master_collection scene) in *.
  pose proof (graph_invariant_children_closed _ Hinv) as Hcl.
  destruct (scene_collections_preorder (collections bmain) scene l Hcl
              (inv_acyclic _ Hinv) Hm Hpre Hmax) as [n1 H1].
  destruct (BKE_collection_object_add_from_loop ob_src ob_dst l bmain o Hinv Hnd Ho Hdup)
    as (bmain1 & [n2 H2] & Hl & Hg).
  { intros c Hc. apply (preorder_elem_of _ m l c Hpre) in Hc.
    apply rtc_inv_r in Hc as [<-|(b & _ & Hb)]; [done|]. by apply (Hcl b c). }
  exists (BKE_main_collection_sync bmain1). split; [|split].
  - exists (n1 `max` n2). intros fuel Hfuel. unfold BKE_collection_object_add_from.
    rewrite H1 by lia. simpl. rewrite H2 by lia. done.
  - simpl. intros c Hc Hsrc. rewrite Hg.
    destruct (decide (ob_dst ∈ gobject_of (collections bmain) c)) as [Hdst|Hdst].
    + apply elem_of_app. by left.
    + rewrite bool_decide_eq_true_2; [apply elem_of_app; right; left|].
      split; [|done]. by apply (preorder_elem_of _ m l c Hpre).
  - simpl. intros c. rewrite Hg. case_bool_decide as Hc; [right|left; by rewrite app_nil_r].
    destruct Hc as (Hc & Hsrc & Hdst). split; [|done].
    by apply (preorder_elem_of _ m l c Hpre).
Qed.

End AddFrom.

Lemma BKE_collection_object_move_from_scene_witness :
  exists bmain',
    terminates (fun fuel => BKE_collection_object_move (K := blender_constants) fuel
                              scenario_main (mkScene 0) (Some 1) None 9) bmain' /\
    (9 ∈ gobject_of (collections bmain') 1) /\
    (forall c, rtc (child_edge (collections scenario_main)) 0 c -> c <> 1 ->
               9 ∉ gobject_of (collections bmain') c) /\
    (forall c o', o' <> 9 ->
       o' ∈ gobject_of (collections bmain') c <-> o' ∈ gobject_of (collections scenario_main) c).
Proof.
  apply (BKE_collection_object_move_from_scene (K := blender_constants)
           scenario_main (mkScene 0) 1 9 (mkObject 2 None) [0; 1; 3; 2]).
  - apply scenario_invariant.
  - apply gobject_of_NoDup_check. by_evaluation.
  - by vm_compute.
  - done.
  - eexists. by vm_compute.
  - eexists. by vm_compute.
  - apply scenario_preorder.
  - by vm_compute.
Defined.

Lemma BKE_collection_object_move_between_witness :
  exists bmain',
    terminates (fun fuel => BKE_collection_object_move (K := blender_constants) fuel
                              scenario_main (mkScene 0) (Some 1) (Some 2) 9) bmain' /\
    (9 ∈ gobject_of (collections bmain') 1) /\
    (9 ∉ gobject_of (collections bmain') 2) /\
    (forall c, c <> 2 -> c <> 1 ->
               gobject_of (collections bmain') c = gobject_of (collections scenario_main) c) /\
    (forall c o', o' <> 9 ->
       o' ∈ gobject_of (collections bmain') c <-> o' ∈ gobject_of (collections scenario_main) c) /\
    objects bmain' = objects scenario_main.
Proof.
  apply (BKE_collection_object_move_between (K := blender_constants)
           scenario_main (mkScene 0) 1 2 9 (mkObject 2 None)).
  - apply scenario_invariant.
  - apply gobject_of_NoDup_check. by_evaluation.
  - by vm_compute.
  - done.
  - eexists. by vm_compute.
  - by_evaluation.
  - by_evaluation.
Defined.

Lemma BKE_collection_object_add_from_members_witness :
  exists bmain',
    terminates (fun fuel => BKE_collection_object_add_from (K := blender_constants) fuel
                              two_objects (mkScene 0) 9 8) bmain' /\
    (forall c, rtc (child_edge (collections two_objects)) 0 c ->
               9 ∈ gobject_of (collections two_objects) c ->
               8 ∈ gobject_of (collections bmain') c) /\
    (forall c, gobject_of (collections bmain') c = gobject_of (collections two_objects) c \/
               rtc (child_edge (collections two_objects)) 0 c /\
               9 ∈ gobject_of (collections two_objects) c /\
               (8 ∉ gobject_of (collections two_objects) c) /\
               gobject_of (collections bmain') c =
                 gobject_of (collections two_objects) c ++ [8]).
Proof.
  apply (BKE_collection_object_add_from_members (K := blender_constants)
           two_objects (mkScene 0) 9 8 (mkObject 0 None) [0; 1; 3; 2]).
  - apply scenario_invariant.
  - apply gobject_of_NoDup_check. by_evaluation.
  - by vm_compute.
  - done.
  - eexists. by vm_compute.
  - apply scenario_preorder.
  - by vm_compute.
Defined.

(** ** The inputs of a mesh effect *)

Section Inputs.
Context {Properties Mesh : Type}.
Context (new_properties : Properties) (new_mesh : Mesh).
Context (properties_deep_copy_from : Properties -> Properties -> Properties).
Context (mesh_deep_copy_from : Mesh -> Mesh -> Mesh).

Abbreviation input := (OfxMeshInputStruct.t Properties Mesh).
Abbreviation input_set := (OfxMeshInputSetStruct.t Properties Mesh).

Import OfxMeshInputSetStruct.

Lemma find_from_named (l : list input) i inp :
  named l -> is_Some (find_from l i inp).
Proof.
  revert i. induction l as [|x l IH]; intros i Hl; simpl; [eauto|].
  apply Forall_cons in Hl as [[n Hn] Hl]. rewrite Hn. simpl.
  destruct (decide (n = inp)); [eauto | by apply IH].
Qed.

Lemma find_from_spec (l : list input) i inp r :
  find_from l i inp = Some r ->
  (r = (-1)%Z /\ forall x, x ∈ l -> OfxMeshInputStruct.name x <> Some inp) \/
  (exists k x, r = (i + Z.of_nat k)%Z /\ l !! k = Some x /\
               OfxMeshInputStruct.name x = Some inp /\
               forall j y, j < k -> l !! j = Some y -> OfxMeshInputStruct.name y <> Some inp).
Proof.
  revert i. induction l as [|x l IH]; intros i Hr; simpl in Hr.
  - injection Hr as <-. left. split; [done|]. by intros x ?%elem_of_nil.
  - destruct (OfxMeshInputStruct.name x) as [n|] eqn:Hn; [|done]. simpl in Hr.
    destruct (decide (n = inp)) as [->|Hne].
    + injection Hr as <-. right. exists 0, x. split; [lia|]. split; [done|].
      split; [done|]. intros j y Hj. lia.
    + destruct (IH _ Hr) as [[-> Hall]|(k & y & -> & Hk & Hy & Hbefore)].
      * left. split; [done|]. intros z [->|Hz]%elem_of_cons; [congruence | by apply Hall].
      * right. exists (S k), y. split; [lia|]. split; [done|]. split; [done|].
        intros [|j] z Hj Hz; simpl in Hz; [congruence|]. apply (Hbefore j z); [lia | done].
Qed.

Lemma find_from_app_None (l l' : list input) i inp :
  find_from l i inp = Some (-1)%Z -> (0 <= i)%Z ->
  find_from (l ++ l') i inp = find_from l' (i + Z.of_nat (length l))%Z inp.
Proof.
  revert i. induction l as [|x l IH]; intros i Hr Hi; simpl in *.
  - f_equal. lia.
  - destruct (OfxMeshInputStruct.name x) as [n|]; [|done]. simpl in *.
    destruct (decide (n = inp)); [injection Hr; lia|].
    rewrite IH by (done || lia). f_equal. lia.
Qed.


Lemma find_from_names (l l' : list input) i inp :
  OfxMeshInputStruct.name <$> l = OfxMeshInputStruct.name <$> l' ->
  find_from l i inp = find_from l' i inp.
Proof.
  revert l' i. induction l as [|x l IH]; intros [|y l'] i Heq; simpl in *; try done.
  injection Heq as -> Heq. by rewrite (IH l' _ Heq).
Qed.

(** X25: in a set whose inputs all have a name, [find] returns the index of
    the first input with the given name, and -1 exactly when no input has
    it. *)
Theorem OfxMeshInputSetStruct_find_first (this : input_set) inp :
  named (inputs this) ->
  exists r,
    find this inp = Some r /\
    ((r = (-1)%Z /\ forall x, x ∈ inputs this -> OfxMeshInputStruct.name x <> Some inp) \/
     (0 <= r < num_inputs this)%Z /\
     OfxMeshInputStruct.name <$> inputs this !! Z.to_nat r = Some (Some inp) /\
     forall j, j < Z.to_nat r ->
               OfxMeshInputStruct.name <$> inputs this !! j <> Some (Some inp)).
Proof.
  intros Hn. destruct (find_from_named (inputs this) 0 inp Hn) as [r Hr].
  exists r. split; [done|].
  destruct (find_from_spec _ _ _ _ Hr) as [?|(k & x & -> & Hk & Hx & Hbefore)]; [by left|].
  right. rewrite Z.add_0_l, Nat2Z.id. pose proof (lookup_lt_Some _ _ _ Hk).
  unfold num_inputs. split; [lia|]. split; [by rewrite Hk; simpl; rewrite Hx|].
  intros j Hj. destruct (inputs this !! j) as [y|] eqn:Hy; [|done]. simpl.
  intros [= Heq]. by apply (Hbefore j y).
Qed.

(** What [ensure] does: nothing if the name is there, and else it appends
    an input with the name. *)
Lemma ensure_cases (this : input_set) inp :
  named (inputs this) ->
  exists i this',
    ensure new_properties new_mesh this inp = Some (i, this') /\
    find this' inp = Some i /\ i <> (-1)%Z /\ named (inputs this') /\
    host this' = host this /\
    ((find this inp = Some i /\ this' = this) \/
     (find this inp = Some (-1)%Z /\ i = num_inputs this /\
      inputs this' = inputs this ++
        [OfxMeshInputStruct.mk (Some inp) new_properties new_mesh (host this)])).
Proof.
  intros Hn. destruct (find_from_named (inputs this) 0 inp Hn) as [r Hr].
  unfold ensure. unfold find at 1. rewrite Hr. simpl.
  destruct (decide (r = (-1)%Z)) as [->|Hne].
  - unfold append, num_inputs. rewrite decide_False by lia. simpl.
    set (l := inputs this) in *.
    replace (Z.to_nat (Z.of_nat (length l) + 1)) with (length l + 1) by lia.
    rewrite take_ge by lia. replace (length l + 1 - length l) with 1 by lia. simpl.
    rewrite length_app. simpl.
    replace (Z.to_nat (Z.of_nat (length l + 1) - 1)) with (length l + 0) by lia.
    rewrite lookup_app_r by lia. replace (length l + 0 - length l) with 0 by lia. simpl.
    rewrite insert_app_r. simpl. unfold set_name. simpl.
    eexists _, _. split; [done|]. simpl. split; [|split; [lia|split; [|split; [done|]]]].
    + unfold find. simpl. rewrite (find_from_app_None _ _ _ _ Hr) by lia. simpl.
      rewrite decide_True by done. f_equal. lia.
    + apply Forall_app. split; [done|]. constructor; [by eexists | constructor].
    + right. split; [done|]. split; [lia|]. done.
  - exists r, this. split; [done|]. split; [done|]. split; [done|]. split; [done|].
    split; [done|]. by left.
Qed.


(** X27: [ensure] is idempotent: a second call with the same name returns
    the same index and leaves the set as the first call left it. *)
Theorem OfxMeshInputSetStruct_ensure_idempotent (this : input_set) inp i this' :
  named (inputs this) ->
  ensure new_properties new_mesh this inp = Some (i, this') ->
  ensure new_properties new_mesh this' inp = Some (i, this').
Proof.
  intros Hn He. destruct (ensure_cases this inp Hn)
    as (i0 & this0 & He0 & Hf & Hne & _).
  rewrite He in He0. injection He0 as <- <-.
  unfold ensure. rewrite Hf. simpl. by rewrite decide_False.
Qed.

Lemma deep_copy_inputs_length (l other l' : list input) :
  deep_copy_inputs properties_deep_copy_from mesh_deep_copy_from l other = Some l' ->
  length l <= length other /\
  OfxMeshInputStruct.name <$> l' = OfxMeshInputStruct.name <$> take (length l) other /\
  OfxMeshInputStruct.host <$> l' = OfxMeshInputStruct.host <$> take (length l) other.
Proof.
  revert other l'. induction l as [|x l IH]; intros other l' Hr; simpl in Hr.
  - injection Hr as <-. simpl. split; [lia|]. done.
  - destruct other as [|y other]; [done|].
    destruct (deep_copy_inputs _ _ l other) as [l''|] eqn:Hl; [|done]. simpl in Hr.
    injection Hr as <-. destruct (IH _ _ Hl) as (Hlen & Hnames & Hhosts).
    split; [simpl; lia|]. simpl take. rewrite !fmap_cons, Hnames, Hhosts. done.
Qed.

Lemma deep_copy_inputs_is_Some (l other : list input) :
  length l <= length other ->
  is_Some (deep_copy_inputs properties_deep_copy_from mesh_deep_copy_from l other).
Proof.
  revert other. induction l as [|x l IH]; intros other Hlen; simpl; [eauto|].
  destruct other as [|y other]; [simpl in Hlen; lia|].
  destruct (IH other) as [l' Hl']; [simpl in Hlen; lia|]. rewrite Hl'. simpl. eauto.
Qed.

(** X28: [deep_copy_from] has a result exactly when the set it is called on
    has no inputs; otherwise its loop reads inputs of [other] that do not
    exist.  The result has the host of [other], and its inputs have the
    names and hosts of the inputs of [other] in the same order, so that
    [find] answers on the copy what it answers on [other]. *)
Theorem OfxMeshInputSetStruct_deep_copy_from_empty (this other : input_set) :
  (is_Some (deep_copy_from new_properties new_mesh properties_deep_copy_from
              mesh_deep_copy_from this other) <-> inputs this = []) /\
  forall this',
    deep_copy_from new_properties new_mesh properties_deep_copy_from
      mesh_deep_copy_from this other = Some this' ->
    host this' = host other /\
    OfxMeshInputStruct.name <$> inputs this' = OfxMeshInputStruct.name <$> inputs other /\
    OfxMeshInputStruct.host <$> inputs this' = OfxMeshInputStruct.host <$> inputs other /\
    forall inp, find this' inp = find other inp.
Proof.
  unfold deep_copy_from, append, num_inputs.
  rewrite decide_False by lia. simpl.
  set (l := inputs this). set (lo := inputs other).
  replace (Z.to_nat (Z.of_nat (length l) + Z.of_nat (length lo)))
    with (length l + length lo) by lia.
  rewrite take_ge by lia. replace (length l + length lo - length l) with (length lo) by lia.
  set (l1 := l ++ replicate (length lo) _).
  assert (length l1 = length l + length lo) as Hlen1
    by (unfold l1; by rewrite length_app, length_replicate).
  split.
  - split.
    + intros [this' Hr].
      destruct (deep_copy_inputs _ _ l1 lo) as [l'|] eqn:Hl'; [|done].
      apply deep_copy_inputs_length in Hl' as [Hlen _].
      apply nil_length_inv. lia.
    + intros Hl. destruct (deep_copy_inputs_is_Some l1 lo) as [l' Hl']; [rewrite Hlen1, Hl; simpl; lia|].
      rewrite Hl'. simpl. eauto.
  - intros this' Hr.
    destruct (deep_copy_inputs _ _ l1 lo) as [l'|] eqn:Hl'; [|done].
    simpl in Hr. injection Hr as <-. simpl.
    apply deep_copy_inputs_length in Hl' as (Hlen & Hnames & Hhosts).
    rewrite take_ge in Hnames, Hhosts by lia.
    split; [done|]. split; [done|]. split; [done|].
    intros inp. unfold find. simpl. by apply find_from_names.
Qed.

End Inputs.

Lemma two_inputs_named : named (OfxMeshInputSetStruct.inputs two_inputs).
Proof. repeat constructor; by eexists. Qed.

Lemma OfxMeshInputSetStruct_find_first_witness :
  exists r,
    OfxMeshInputSetStruct.find two_inputs "b"%string = Some r /\
    ((r = (-1)%Z /\
      forall x, x ∈ OfxMeshInputSetStruct.inputs two_inputs ->
                OfxMeshInputStruct.name x <> Some "b"%string) \/
     (0 <= r < OfxMeshInputSetStruct.num_inputs two_inputs)%Z /\
     OfxMeshInputStruct.name <$> OfxMeshInputSetStruct.inputs two_inputs !! Z.to_nat r
       = Some (Some "b"%string) /\
     forall j, j < Z.to_nat r ->
               OfxMeshInputStruct.name <$> OfxMeshInputSetStruct.inputs two_inputs !! j
                 <> Some (Some "b"%string)).
Proof. apply (OfxMeshInputSetStruct_find_first two_inputs "b"%string), two_inputs_named. Defined.


Lemma OfxMeshInputSetStruct_ensure_idempotent_witness :
  OfxMeshInputSetStruct.ensure tt tt
    (OfxMeshInputSetStruct.mk
       (OfxMeshInputSetStruct.inputs two_inputs ++
        [OfxMeshInputStruct.mk (Some "c"%string) tt tt None]) None) "c"%string =
  Some (2%Z,
        OfxMeshInputSetStruct.mk
          (OfxMeshInputSetStruct.inputs two_inputs ++
           [OfxMeshInputStruct.mk (Some "c"%string) tt tt None]) None).
Proof.
  apply (OfxMeshInputSetStruct_ensure_idempotent tt tt two_inputs "c"%string).
  - apply two_inputs_named.
  - by vm_compute.
Defined.

Lemma OfxMeshInputSetStruct_deep_copy_from_empty_witness :
  (is_Some (OfxMeshInputSetStruct.deep_copy_from tt tt (fun _ p => p) (fun _ m => m)
              OfxMeshInputSetStruct.new two_inputs) <->
   OfxMeshInputSetStruct.inputs (@OfxMeshInputSetStruct.new unit unit) = []) /\
  forall this',
    OfxMeshInputSetStruct.deep_copy_from tt tt (fun _ p => p) (fun _ m => m)
      OfxMeshInputSetStruct.new two_inputs = Some this' ->
    OfxMeshInputSetStruct.host this' = OfxMeshInputSetStruct.host two_inputs /\
    OfxMeshInputStruct.name <$> OfxMeshInputSetStruct.inputs this' =
      OfxMeshInputStruct.name <$> OfxMeshInputSetStruct.inputs two_inputs /\
    OfxMeshInputStruct.host <$> OfxMeshInputSetStruct.inputs this' =
      OfxMeshInputStruct.host <$> OfxMeshInputSetStruct.inputs two_inputs /\
    forall inp, OfxMeshInputSetStruct.find this' inp = OfxMeshInputSetStruct.find two_inputs inp.
Proof.
  apply (OfxMeshInputSetStruct_deep_copy_from_empty tt tt (fun _ p => p) (fun _ m => m)
           OfxMeshInputSetStruct.new two_inputs).
Defined.

(** ** Selecting the objects of a collection *)

Section SelectLeaf.
Context `{K : Constants}.
Hypothesis Hne : BASE_SELECTED <> 0%Z.

#[local] Instance select_changes_dec deselect vl ob : Decision (select_changes deselect vl ob).
Proof.
  unfold select_changes. destruct (vl !! ob) as [base|].
  - destruct (decide (select_flag deselect base <> base)) as [H|H].
    + left. by exists base.
    + right. intros (b & [= <-] & ?). done.
  - right. by intros (b & ? & _).
Defined.

Lemma lor_land_selectable base :
  Z.land base BASE_SELECTABLED <> 0%Z ->
  Z.land (Z.lor base BASE_SELECTED) BASE_SELECTABLED <> 0%Z.
Proof.
  intros H. rewrite Z.land_lor_distr_l. intros [? _]%Z.lor_eq_0_iff. done.
Qed.

Lemma select_flag_idemp deselect base :
  select_flag deselect (select_flag deselect base) = select_flag deselect base.
Proof.
  unfold select_flag. destruct deselect.
  - destruct (Z.land base BASE_SELECTED =? 0)%Z eqn:Hs; simpl; [by rewrite Hs|].
    by rewrite land_lnot_same.
  - destruct (Z.land base BASE_SELECTABLED =? 0)%Z eqn:Ha; simpl; [by rewrite Ha|].
    destruct (Z.land base BASE_SELECTED =? 0)%Z eqn:Hs; simpl; [|by rewrite Ha, Hs].
    rewrite land_lor_same. apply Z.eqb_neq in Hne. rewrite Hne. by rewrite andb_false_r.
Qed.

Lemma select_object_alter deselect b vl ob :
  select_object deselect (b, vl) ob =
  (b || bool_decide (select_changes deselect vl ob), alter (select_flag deselect) ob vl).
Proof.
  unfold select_object, BKE_view_layer_base_find. simpl.
  destruct (vl !! ob) as [base|] eqn:Hb.
  - assert (forall c : bool,
              (c = true -> select_flag deselect base <> base) ->
              (c = false -> select_flag deselect base = base) ->
              (if c then (true, <[ob := select_flag deselect base]> vl) else (b, vl)) =
              (b || bool_decide (select_changes deselect vl ob),
               alter (select_flag deselect) ob vl)) as Hc.
    { intros c Ht Hf. destruct c.
      - rewrite bool_decide_eq_true_2, orb_true_r by (exists base; auto). f_equal.
        apply map_eq. intros k. destruct (decide (k = ob)) as [->|].
        + by rewrite lookup_insert_eq, lookup_alter_eq, Hb.
        + by rewrite lookup_insert_ne, lookup_alter_ne.
      - rewrite bool_decide_eq_false_2, orb_false_r.
        + f_equal. apply map_eq. intros k. destruct (decide (k = ob)) as [->|].
          * rewrite lookup_alter_eq, Hb. simpl. by rewrite Hf.
          * by rewrite lookup_alter_ne.
        + intros (base' & Hb' & Hch). rewrite Hb in Hb'. injection Hb' as <-.
          by apply Hch, Hf. }
    unfold select_flag in Hc. destruct deselect.
    + specialize (Hc (negb (Z.land base BASE_SELECTED =? 0)%Z)).
      destruct (negb (Z.land base BASE_SELECTED =? 0)%Z) eqn:Hs; apply Hc; try done.
      intros _ Heq. apply negb_true_iff, Z.eqb_neq in Hs. apply Hs.
      rewrite <- Heq. apply land_lnot_same.
    + specialize (Hc (negb (Z.land base BASE_SELECTABLED =? 0)%Z &&
                      (Z.land base BASE_SELECTED =? 0)%Z)).
      destruct (negb (Z.land base BASE_SELECTABLED =? 0)%Z &&
                (Z.land base BASE_SELECTED =? 0)%Z) eqn:Hs; apply Hc; try done.
      intros _ Heq. apply andb_true_iff in Hs as [_ Hs]. apply Z.eqb_eq in Hs.
      apply Hne. rewrite <- (land_lor_same base BASE_SELECTED), Heq. done.
  - rewrite bool_decide_eq_false_2; [|intros (base & ? & _); congruence].
    rewrite orb_false_r. f_equal. apply map_eq. intros k. destruct (decide (k = ob)) as [->|].
    + by rewrite lookup_alter_eq, Hb.
    + by rewrite lookup_alter_ne.
Qed.

Lemma foldl_select_object deselect l b vl :
  foldl (select_object deselect) (b, vl) l =
  (b || bool_decide (Exists (select_changes deselect vl) l),
   foldl (fun v ob => alter (select_flag deselect) ob v) vl l) /\
  forall ob, foldl (fun v ob => alter (select_flag deselect) ob v) vl l !! ob =
             if decide (ob ∈ l) then select_flag deselect <$> vl !! ob else vl !! ob.
Proof.
  revert b vl. induction l as [|x l IH]; intros b vl; cbn [foldl].
  - split; [|done]. rewrite bool_decide_eq_false_2; [|by intros ?%Exists_nil].
    by rewrite orb_false_r.
  - rewrite select_object_alter. destruct (IH (b || bool_decide (select_changes deselect vl x))
                                             (alter (select_flag deselect) x vl)) as [-> Hl].
    assert (forall ob, select_changes deselect (alter (select_flag deselect) x vl) ob <->
                       ob <> x /\ select_changes deselect vl ob) as Hch.
    { intros ob. unfold select_changes. destruct (decide (ob = x)) as [->|Hx].
      - rewrite lookup_alter_eq. split; [|by intros [? _]].
        intros (base & Hb & Hc). destruct (vl !! x) as [base0|]; [|done].
        injection Hb as <-. by rewrite select_flag_idemp in Hc.
      - rewrite lookup_alter_ne by done. tauto. }
    split.
    + f_equal. rewrite <- orb_assoc. f_equal.
      destruct (decide (select_changes deselect vl x)) as [Hx|Hx].
      * rewrite (bool_decide_eq_true_2 _ Hx). simpl. symmetry.
        apply bool_decide_eq_true_2. by left.
      * rewrite (bool_decide_eq_false_2 _ Hx). simpl. apply bool_decide_ext.
        rewrite Exists_cons, !Exists_exists. split.
        -- intros (ob & Hin & [_ Hc]%Hch). right. by exists ob.
        -- intros [?|(ob & Hin & Hc)]; [done|]. exists ob. split; [done|].
           apply Hch. split; [|done]. by intros ->.
    + intros ob. rewrite Hl. destruct (decide (ob = x)) as [->|Hx].
      * rewrite lookup_alter_eq. rewrite (decide_True (P := x ∈ x :: l)) by left.
        case_decide; [|done]. destruct (vl !! x); simpl; [|done].
        by rewrite select_flag_idemp.
      * rewrite lookup_alter_ne by done. destruct (decide (ob ∈ l)) as [Hin|Hin].
        -- rewrite decide_True; [done | by right].
        -- rewrite decide_False; [done|]. by intros [->|?]%elem_of_cons.
Qed.

Lemma collection_objects_select_leaf fuel st vl c deselect changed vl' :
  collection_objects_select fuel st vl c deselect = Some (changed, vl') ->
  (changed = false /\ vl' = vl /\
   forall v, collection_objects_select fuel st v c deselect = Some (false, v)) \/
  exists col, st !! c = Some col /\
    foldl (select_object deselect) (false, vl) (gobject col) = (changed, vl') /\
    forall v, collection_objects_select fuel st v c deselect =
              Some (foldl (select_object deselect) (false, v) (gobject col)).
Proof.
  destruct fuel as [|fuel]; [done|]. intros Hr.
  assert (is_Some (st !! c)) as [col Hcol].
  { simpl in Hr. destruct (st !! c); [eauto | done]. }
  destruct (Z.land (flag col) COLLECTION_RESTRICT_SELECT =? 0)%Z eqn:Hflag.
  - right. exists col. split; [done|].
    destruct (children col) as [|child rest] eqn:Hch.
    + simpl in Hr. rewrite Hcol in Hr. simpl in Hr. rewrite Hflag, Hch in Hr. simpl in Hr.
      injection Hr as Hr. split; [done|]. intros v. simpl. rewrite Hcol. simpl.
      by rewrite Hflag, Hch.
    + rewrite (collection_objects_select_diverges (S fuel) st _ c deselect col) in Hr;
        [done..| |].
      * by apply Z.eqb_eq.
      * by rewrite Hch.
  - left. simpl in Hr. rewrite Hcol in Hr. simpl in Hr. rewrite Hflag in Hr. simpl in Hr.
    injection Hr as <- <-. split; [done|]. split; [done|]. intros v. simpl. rewrite Hcol.
    simpl. by rewrite Hflag.
Qed.

(** X29: a call of [collection_objects_select] that returns reports a
    change exactly when it has changed the flag of a base, and a second call
    with the same arguments then reports no change and changes nothing:
    what can be selected (or deselected) is so after one call.
    BASE_SELECTED is a non-zero bit mask. *)
Theorem collection_objects_select_idempotent fuel st view_layer collection deselect
    changed view_layer' :
  collection_objects_select fuel st view_layer collection deselect
    = Some (changed, view_layer') ->
  (changed = true <-> view_layer' <> view_layer) /\
  collection_objects_select fuel st view_layer' collection deselect
    = Some (false, view_layer').
Proof.
  intros Hr.
  destruct (collection_objects_select_leaf _ _ _ _ _ _ _ Hr)
    as [(-> & -> & Hall)|(col & Hcol & Hfold & Hall)]; [by split|].
  destruct (foldl_select_object deselect (gobject col) false view_layer) as [Heq Hl].
  rewrite Heq in Hfold. simpl in Hfold. injection Hfold as <- <-.
  set (vl' := foldl _ view_layer (gobject col)) in *. split.
  - rewrite bool_decide_eq_true. split.
    + intros (ob & Hin & base & Hb & Hc)%Exists_exists Heq'.
      specialize (Hl ob). rewrite decide_True, Heq', Hb in Hl by done. simpl in Hl.
      by injection Hl as Hl.
    + intros Hdiff. apply dec_stable. intros Hno. apply Hdiff. apply map_eq. intros ob.
      rewrite Hl. case_decide as Hin; [|done].
      destruct (view_layer !! ob) as [base|] eqn:Hb; [|done]. simpl. f_equal.
      apply dec_stable. intros Hc. apply Hno, Exists_exists. exists ob. split; [done|].
      by exists base.
  - rewrite Hall. destruct (foldl_select_object deselect (gobject col) false vl') as [-> Hl'].
    simpl. f_equal. f_equal.
    + apply bool_decide_eq_false_2. rewrite Exists_exists.
      intros (ob & Hin & base & Hb & Hc). rewrite Hl, decide_True in Hb by done.
      destruct (view_layer !! ob) as [base0|]; [|done]. simpl in Hb. injection Hb as <-.
      by rewrite select_flag_idemp in Hc.
    + apply map_eq. intros ob. rewrite Hl'. case_decide as Hin; [|done].
      rewrite Hl, decide_True by done. destruct (view_layer !! ob); [|done]. simpl.
      by rewrite select_flag_idemp.
Qed.

End SelectLeaf.

Lemma collection_objects_select_idempotent_witness :
  (true = true <-> ({[ 5 := 5%Z ]} : gmap nat Z) <> {[ 5 := 4%Z ]}) /\
  collection_objects_select (K := blender_constants) 1 master_with_object {[ 5 := 5%Z ]} 0 false
    = Some (false, {[ 5 := 5%Z ]}).
Proof.
  refine (collection_objects_select_idempotent (K := blender_constants)
            _ 1 master_with_object {[ 5 := 4%Z ]} 0 false true {[ 5 := 5%Z ]} _).
  - done.
  - by vm_compute.
Defined.
